(** * NetBoost: shallow embedding of the adaptive batch downloader core

  The development follows the TypeScript modules under
  [entry/src/main/common]:

  - [PriorityPool.ts]     two-level task queue with a dynamic limit,
  - [WeakNetDetector.ts]  EWMA + CUSUM weak-link detector,
  - [HttpDownloader.ts]   HEAD / GET / Range GET and the file writes,
  - [RangeDownloader.ts]  resumable transfer over Range requests,
  - [NetProbe.ts]         the low-frequency one-byte probe,
  - [Runner.ts]           the batch orchestrator.

  Asynchronous code is modelled by explicit state passing: every stretch
  of code between two suspension points is one transition, and the
  scheduler's choices (which promise settles next, what the transport
  returned) are the events that drive the transitions. *)

From Stdlib Require Import ZArith List Bool Lia String Ascii QArith Qminmax Qabs.
From Stdlib Require Import DecimalString.
Import ListNotations.

Local Open Scope Z_scope.

(* ===================================================================== *)
(** * PriorityPool.ts *)
(* ===================================================================== *)

Module PriorityPool.

Section Pool.

(** Tasks are closures [() => Promise<void>]; the pool never inspects
    them, so the model is parametric in what a task is. *)
Context {task : Type}.

(** The five private fields of the class, followed by two bookkeeping
    fields that belong to the environment rather than to the class:
    [started] lists the tasks in the order in which [t()] was invoked,
    [inflight] holds the started tasks whose promise has not settled. *)
Record pool : Type := mkPool {
  limit    : Z;
  running  : Z;
  small    : list task;
  large    : list task;
  pumping  : bool;
  started  : list task;
  inflight : list task
}.

(** [constructor(limit) { this.limit = Math.max(1, limit); }] *)
Definition new (n : Z) : pool :=
  mkPool (Z.max 1 n) 0 [] [] false [] [].

(** [next(): this.small.shift() || this.large.shift()].  A task is a
    function object, hence truthy: the right operand is evaluated only
    when [small] is empty. *)
Definition next (p : pool) : option task * pool :=
  match small p with
  | t :: s' =>
      (Some t, mkPool (limit p) (running p) s' (large p) (pumping p)
                      (started p) (inflight p))
  | [] =>
      match large p with
      | t :: l' =>
          (Some t, mkPool (limit p) (running p) [] l' (pumping p)
                          (started p) (inflight p))
      | [] => (None, p)
      end
  end.

(** [this.running++; t()...]: the task, an async function, is invoked
    synchronously, cannot throw into [pump] and suspends at its first
    await. *)
Definition start (t : task) (p : pool) : pool :=
  mkPool (limit p) (running p + 1) (small p) (large p) (pumping p)
         (started p ++ [t]) (inflight p ++ [t]).

Definition queued (p : pool) : nat := List.length (small p) + List.length (large p).

(** The [while (this.running < this.limit)] loop of [pump].  Every
    iteration that does not leave the loop removes one queued task, so
    [queued p] iterations are all the loop can make (see
    [pump_loop_fuel]). *)
Fixpoint pump_loop (fuel : nat) (p : pool) : pool :=
  match fuel with
  | O => p
  | S k =>
      if running p <? limit p then
        match next p with
        | (Some t, p') => pump_loop k (start t p')
        | (None, _) => p
        end
      else p
  end.

Definition set_pumping (b : bool) (p : pool) : pool :=
  mkPool (limit p) (running p) (small p) (large p) b
         (started p) (inflight p).

(** [pump()]: guarded by the [pumping] sentinel, which the [finally]
    clause clears on the way out. *)
Definition pump (p : pool) : pool :=
  if pumping p then p
  else set_pumping false (pump_loop (queued p) (set_pumping true p)).

(** [setLimit(n) { this.limit = Math.max(1, n); this.pump(); }] *)
Definition setLimit (n : Z) (p : pool) : pool :=
  pump (mkPool (Z.max 1 n) (running p) (small p) (large p) (pumping p)
               (started p) (inflight p)).

(** [push(task, small = false)] *)
Definition push (t : task) (sm : bool) (p : pool) : pool :=
  pump (if sm
        then mkPool (limit p) (running p) (small p ++ [t]) (large p)
                    (pumping p) (started p) (inflight p)
        else mkPool (limit p) (running p) (small p) (large p ++ [t])
                    (pumping p) (started p) (inflight p)).

(** The callback registered with [.finally]:
    [this.running--; this.pumping = false; this.pump();] *)
Definition on_settled (p : pool) : pool :=
  pump (mkPool (limit p) (running p - 1) (small p) (large p) false
               (started p) (inflight p)).

(** [snapshot()] *)
Record snap : Type := mkSnap {
  s_running : Z; s_smallQ : nat; s_largeQ : nat; s_limit : Z
}.

Definition snapshot (p : pool) : snap :=
  mkSnap (running p) (List.length (small p)) (List.length (large p)) (limit p).

(** The condition tested by the [tick] of [idle()]. *)
Definition is_idle (p : pool) : bool :=
  (running p =? 0) && (Nat.eqb (List.length (small p)) 0)
                   && (Nat.eqb (List.length (large p)) 0).

(** ** Operations seen from outside

    [Settle k]: the promise of the [k]-th in-flight task settles and its
    [finally] callback runs.  Only a started, unsettled task can settle,
    which is why the step is partial. *)
Inductive op : Type :=
| Push (t : task) (sm : bool)
| SetLimit (n : Z)
| Settle (k : nat).

Fixpoint remove_nth {A : Type} (k : nat) (l : list A) : option (list A) :=
  match l, k with
  | [], _ => None
  | _ :: r, O => Some r
  | x :: r, S k' =>
      match remove_nth k' r with
      | Some r' => Some (x :: r')
      | None => None
      end
  end.

Definition step (p : pool) (o : op) : option pool :=
  match o with
  | Push t sm => Some (push t sm p)
  | SetLimit n => Some (setLimit n p)
  | Settle k =>
      match remove_nth k (inflight p) with
      | Some rest =>
          Some (on_settled (mkPool (limit p) (running p) (small p) (large p)
                                   (pumping p) (started p) rest))
      | None => None
      end
  end.

Fixpoint run (p : pool) (ops : list op) : option pool :=
  match ops with
  | [] => Some p
  | o :: rest =>
      match step p o with
      | Some p' => run p' rest
      | None => None
      end
  end.

(** The largest limit in force at some point of a run. *)
Fixpoint peak (hi : Z) (ops : list op) : Z :=
  match ops with
  | [] => hi
  | SetLimit n :: rest => peak (Z.max hi (Z.max 1 n)) rest
  | _ :: rest => peak hi rest
  end.

(** A run is [gentle] when no [setLimit] lowers the limit below the
    number of tasks running at that moment. *)
Fixpoint gentle (p : pool) (ops : list op) : bool :=
  match ops with
  | [] => true
  | o :: rest =>
      match o with
      | SetLimit n => running p <=? Z.max 1 n
      | _ => true
      end
      && match step p o with
         | Some p' => gentle p' rest
         | None => true
         end
  end.

(** What holds of the fields whenever no method of the pool is on the
    stack: the sentinel is down, [running] counts the in-flight tasks and
    the limit is positive. *)
Definition consistent (p : pool) : Prop :=
  pumping p = false /\
  running p = Z.of_nat (List.length (inflight p)) /\
  1 <= limit p.

End Pool.

Arguments pool : clear implicits.
Arguments op : clear implicits.

End PriorityPool.

(* ===================================================================== *)
(** * JavaScript numbers *)
(* ===================================================================== *)

(** Speeds, times and detector accumulators are JavaScript numbers.  The
    model computes with exact rationals; the non-finite values are kept
    apart where the code tests for them ([Number.isFinite]).  Every
    division of the detector is guarded against a zero divisor except the
    one by [cusumH * 2], which only enters the confidence. *)
Module JsNum.

Inductive jsnum : Type :=
| Fin (q : Q)
| NaN
| PosInf
| NegInf.

Definition isFinite (x : jsnum) : bool :=
  match x with Fin _ => true | _ => false end.

Definition Qltb (a b : Q) : bool := negb (Qle_bool b a).
Definition Qgtb (a b : Q) : bool := Qltb b a.
Definition Qgeb (a b : Q) : bool := Qle_bool b a.

Definition Qsum (l : list Q) : Q := fold_left Qplus l 0%Q.

End JsNum.

(* ===================================================================== *)
(** * WeakNetDetector.ts *)
(* ===================================================================== *)

Module WeakNetDetector.
Import JsNum.
Local Open Scope Q_scope.

(** [WeakParams]: every field is optional. *)
Record WeakParams : Type := mkParams {
  p_ewmaAlpha : option Q;
  p_cusumK    : option Q;
  p_cusumH    : option Q;
  p_gateRatio : option Q;
  p_fuseAlpha : option Q;
  p_fuseGamma : option Q;
  p_winSize   : option Q;
  p_warmupMin : option Q
}.

Definition no_params : WeakParams :=
  mkParams None None None None None None None None.

(** [Required<WeakParams>] *)
Record config : Type := mkConfig {
  ewmaAlpha : Q;
  cusumK    : Q;
  cusumH    : Q;
  gateRatio : Q;
  fuseAlpha : Q;
  fuseGamma : Q;
  winSize   : Q;
  warmupMin : Q
}.

Definition or_default (o : option Q) (d : Q) : Q :=
  match o with Some q => q | None => d end.

(** The object literal of the constructor: defaults, then [...params]. *)
Definition make_config (params : WeakParams) : config :=
  mkConfig (or_default (p_ewmaAlpha params) (2 # 10))
           (or_default (p_cusumK params) (3 # 10))
           (or_default (p_cusumH params) (12 # 10))
           (or_default (p_gateRatio params) (5 # 10))
           (or_default (p_fuseAlpha params) (7 # 10))
           (or_default (p_fuseGamma params) (3 # 10))
           (or_default (p_winSize params) 20)
           (or_default (p_warmupMin params) 10).

(** The private fields [ewma], [hist], [failWin], [cusumPos], [cusumNeg]
    next to the configuration. *)
Record detector : Type := mkDetector {
  cfg      : config;
  ewma     : Q;
  hist     : list Q;
  failWin  : list Q;
  cusumPos : Q;
  cusumNeg : Q
}.

Definition new (params : WeakParams) : detector :=
  mkDetector (make_config params) 0 [] [] 0 0.

Record WeakDecision : Type := mkDecision {
  isWeak : bool;
  confidence : Q
}.

(** [clamp01(x) = Math.max(0, Math.min(1, x))] *)
Definition clamp01 (x : Q) : Q := Qmax 0 (Qmin 1 x).

(** [safeDiv(a, b, eps = 1e-6)] *)
Definition safeDiv (a b : Q) : Q :=
  let eps := 1 # 1000000 in
  a / (if Qltb (Qabs b) eps then (if Qgeb b 0 then eps else - eps) else b).

(** [sort((a, b) => a - b)]: ascending numeric order. *)
Fixpoint insert_sorted (x : Q) (l : list Q) : list Q :=
  match l with
  | [] => [x]
  | y :: r => if Qle_bool x y then x :: l else y :: insert_sorted x r
  end.

Definition sort_asc (l : list Q) : list Q := fold_right insert_sorted [] l.

(** [baseline()]: mean of the lowest quarter of the history;
    [Math.floor(n * 0.25)] is the integer quotient of [n] by four. *)
Definition baseline (h : list Q) : Q :=
  let n := List.length h in
  match n with
  | O => 0
  | _ =>
      let sorted := sort_asc h in
      let k := Nat.max 1 (n / 4) in
      let low := firstn k sorted in
      Qsum low / inject_Z (Z.of_nat k)
  end.

Definition of_len {A : Type} (l : list A) : Q := inject_Z (Z.of_nat (List.length l)).

(** [feed(speedKBps, _ttfbMs, ok)]; the second argument is never read.
    The first line is
    [v = Number.isFinite(speedKBps) ? Math.max(0, speedKBps) : 0]. *)
Definition feed (d : detector) (speedKBps : jsnum) (ok : bool)
  : detector * WeakDecision :=
  let c := cfg d in
  let v := match speedKBps with Fin q => Qmax 0 q | _ => 0 end in
  let ewma1 :=
    match hist d with
    | [] => v
    | _ => ewmaAlpha c * v + (1 - ewmaAlpha c) * ewma d
    end in
  let hist1 := hist d ++ [v] in
  let fw0 := failWin d ++ [if ok then 0 else 1] in
  let fw1 := if Qgtb (of_len fw0) (winSize c) then tl fw0 else fw0 in
  let failRate :=
    match fw1 with
    | [] => 0
    | _ => Qsum fw1 / of_len fw1
    end in
  let baseRaw := baseline hist1 in
  let base := if Qgtb baseRaw 0 then baseRaw
              else if Qgtb v 0 then v else 1 # 1000 in
  let x := safeDiv (v - base) (Qmax (1 # 1000) base) in
  let cpos := Qmax 0 (cusumPos d + (x - cusumK c)) in
  let cneg := Qmin 0 (cusumNeg d + (x + cusumK c)) in
  let change := Qgtb cpos (cusumH c) || Qgtb (Qabs cneg) (cusumH c) in
  let zSpeed := safeDiv (v - base) (Qmax (1 # 1000) base) in
  let score := fuseAlpha c * (- zSpeed) + fuseGamma c * failRate in
  let weakByScore := Qgtb score (1 # 2) in
  let gate := Qltb ewma1 (gateRatio c * base) in
  let enough := Qgeb (of_len hist1) (Qmax 3 (warmupMin c)) in
  let weak := enough && change && weakByScore && gate in
  let confDrop := clamp01 (if Qgtb base 0 then (base - ewma1) / base else 0) in
  let cusumMag :=
    Qmin 1 (Qmax 0 (Qmax cpos (Qabs cneg) / (cusumH c * 2))) in
  let conf :=
    clamp01 ((45 # 100) * confDrop + (35 # 100) * failRate
             + (20 # 100) * cusumMag) in
  let cpos' := if weak then cpos * (1 # 4) else cpos in
  let cneg' := if weak then cneg * (1 # 4) else cneg in
  (mkDetector c ewma1 hist1 fw1 cpos' cneg', mkDecision weak conf).

(** [reset()] *)
Definition reset (d : detector) : detector :=
  mkDetector (cfg d) 0 [] [] 0 0.

(** A sample as the orchestrator passes it: speed and [ok] flag. *)
Definition sample : Type := (jsnum * bool)%type.

(** Feeding a sequence of samples, collecting the verdicts in order. *)
Fixpoint feed_all (d : detector) (samples : list sample)
  : detector * list WeakDecision :=
  match samples with
  | [] => (d, [])
  | (v, ok) :: rest =>
      let (d1, r) := feed d v ok in
      let (d2, rs) := feed_all d1 rest in
      (d2, r :: rs)
  end.

End WeakNetDetector.

(* ===================================================================== *)
(** * HttpDownloader.ts: transport and file system as seen by the core *)
(* ===================================================================== *)

Module HttpDownloader.

Definition bytes : Type := list Byte.byte.

(** The sandbox directory: a path holds a byte sequence or does not exist. *)
Definition filesystem : Type := string -> option bytes.

Definition fs_set (f : filesystem) (path : string) (c : option bytes)
  : filesystem :=
  fun p => if String.eqb p path then c else f p.

(** [fs.statSync(path).size]; [None] when the call throws. *)
Definition stat_size (f : filesystem) (path : string) : option Z :=
  match f path with
  | Some b => Some (Z.of_nat (List.length b))
  | None => None
  end.

(** [CREATE | WRITE_ONLY] then [writeSync]: the data lands at offset 0 and
    the file is not truncated, so a longer old file keeps its tail. *)
Definition write_from_start (f : filesystem) (path : string) (arr : bytes)
  : filesystem :=
  let old := match f path with Some b => b | None => [] end in
  fs_set f path (Some (arr ++ skipn (List.length arr) old)).

(** [CREATE | WRITE_ONLY | APPEND] then [writeSync]. *)
Definition write_append (f : filesystem) (path : string) (arr : bytes)
  : filesystem :=
  let old := match f path with Some b => b | None => [] end in
  fs_set f path (Some (old ++ arr)).

(** [HeadInfo], keeping the fields the core reads. *)
Record HeadInfo : Type := mkHead {
  h_ok : bool;
  h_status : Z;
  acceptRanges : bool;
  contentLength : option Z
}.

(** What a GET brings back: response code, body and the seconds it took. *)
Record response : Type := mkResponse {
  r_status : Z;
  r_body : bytes;
  r_elapsed : Q
}.

(** The remote side.  [None] stands for a request that fails ([err] in the
    callback, or an exception before it). *)
Record server : Type := mkServer {
  srv_head  : string -> option HeadInfo;
  srv_get   : string -> option response;
  srv_range : string -> Z -> option response
}.

Inductive request : Type :=
| ReqHead (url : string)
| ReqGet (url : string)
| ReqRange (url : string) (startByte : Z).

(** The part of the world a transfer acts on: the files and, as a record
    of what went over the wire, the requests issued so far. *)
Record world : Type := mkWorld {
  files : filesystem;
  wire  : list request
}.

Definition sent (w : world) (r : request) : world :=
  mkWorld (files w) (wire w ++ [r]).

Definition with_files (w : world) (f : filesystem) : world :=
  mkWorld f (wire w).

(** [downloadWhole(url, dstPath)]: [inr] is the rejected promise. *)
Definition downloadWhole (srv : server) (url dst : string) (w : world)
  : world * (Q * Z + unit) :=
  let w1 := sent w (ReqGet url) in
  match srv_get srv url with
  | None => (w1, inr tt)
  | Some r =>
      (with_files w1 (write_from_start (files w1) dst (r_body r)),
       inl (r_elapsed r, Z.of_nat (List.length (r_body r))))
  end.

(** [downloadRangeAppend(url, dstPath, startByte)]: whatever the status,
    the body is appended to the file. *)
Definition downloadRangeAppend (srv : server) (url dst : string)
    (startByte : Z) (w : world)
  : world * (response + unit) :=
  let w1 := sent w (ReqRange url startByte) in
  match srv_range srv url startByte with
  | None => (w1, inr tt)
  | Some r =>
      (with_files w1 (write_append (files w1) dst (r_body r)), inl r)
  end.

End HttpDownloader.

(* ===================================================================== *)
(** * RangeDownloader.ts *)
(* ===================================================================== *)

Module RangeDownloader.
Import HttpDownloader.

Record RangeResult : Type := mkResult {
  elapsed   : Q;
  size      : Z;
  usedRange : bool;
  retried   : bool
}.

(** How a call ends: the promise resolves, it rejects, or the loop is
    still running when the fuel is spent. *)
Inductive outcome : Type :=
| Resolved (r : RangeResult) (w : world)
| Rejected (w : world)
| Running (w : world).

(** [fileSize(path)]: 0 when [statSync] throws. *)
Definition fileSize (f : filesystem) (path : string) : Z :=
  match stat_size f path with Some n => n | None => 0 end.

(** [totalLen === undefined || offset < totalLen] *)
Definition loop_cond (totalLen : option Z) (offset : Z) : bool :=
  match totalLen with
  | None => true
  | Some n => offset <? n
  end.

(** The [while] loop of [downloadWithResume]; [k] receives the totals when
    the loop is left. *)
Fixpoint range_loop (fuel : nat) (srv : server) (url dst : string)
    (totalLen : option Z) (offset : Z) (totalElapsed : Q) (totalAppended : Z)
    (k : Q -> Z -> RangeResult) (w : world) : outcome :=
  if loop_cond totalLen offset then
    match fuel with
    | O => Running w
    | S fuel' =>
        match downloadRangeAppend srv url dst offset w with
        | (w1, inr _) => Rejected w1
        | (w1, inl rr) =>
            let sz := Z.of_nat (List.length (r_body rr)) in
            let totalElapsed1 := (totalElapsed + r_elapsed rr)%Q in
            let totalAppended1 := totalAppended + sz in
            if r_status rr =? 200 then
              Resolved (k totalElapsed1 totalAppended1) w1
            else
              let offset1 := offset + sz in
              if sz <=? 0 then Resolved (k totalElapsed1 totalAppended1) w1
              else range_loop fuel' srv url dst totalLen offset1
                              totalElapsed1 totalAppended1 k w1
        end
    end
  else Resolved (k totalElapsed totalAppended) w.

(** [downloadWithResume(url, dstPath)] *)
Definition downloadWithResume (fuel : nat) (srv : server) (url dst : string)
    (w : world) : outcome :=
  let w0 := sent w (ReqHead url) in
  let h := srv_head srv url in
  let supportRange :=
    match h with Some hi => acceptRanges hi | None => false end in
  let existed := fileSize (files w0) dst in
  if negb supportRange then
    match downloadWhole srv url dst w0 with
    | (w1, inl (el, sz)) => Resolved (mkResult el sz false (0 <? existed)) w1
    | (w1, inr _) => Rejected w1
    end
  else
    let totalLen :=
      match h with Some hi => contentLength hi | None => None end in
    let stale :=
      match totalLen with Some n => n <? existed | None => false end in
    let w1 := if stale then with_files w0 (fs_set (files w0) dst None) else w0 in
    let offset := if stale then 0 else existed in
    range_loop fuel srv url dst totalLen offset 0%Q 0
               (fun el ap => mkResult el ap supportRange (0 <? existed)) w1.

(** A server that is Range-capable for [url] and serves [body] there:
    HEAD announces [Accept-Ranges: bytes] and the length, and a request
    for [bytes=start-] inside the object is answered by 206 with the rest
    of the object. *)
Definition range_capable (srv : server) (url : string) (body : bytes) : Prop :=
  (exists hi, srv_head srv url = Some hi /\
              acceptRanges hi = true /\
              contentLength hi = Some (Z.of_nat (List.length body))) /\
  forall start : nat,
    (start < List.length body)%nat ->
    exists el,
      srv_range srv url (Z.of_nat start)
      = Some (mkResponse 206 (skipn start body) el).

(** The static server used in the examples. *)
Definition static_server (body : bytes) : server :=
  mkServer
    (fun _ => Some (mkHead true 200 true (Some (Z.of_nat (List.length body)))))
    (fun _ => Some (mkResponse 200 body 1))
    (fun _ start => Some (mkResponse 206 (skipn (Z.to_nat start) body) 1)).

(** A server that announces ranges on HEAD and then ignores the Range
    header: every GET is answered by 200 with the whole object. *)
Definition range_ignoring_server (body : bytes) : server :=
  mkServer
    (fun _ => Some (mkHead true 200 true (Some (Z.of_nat (List.length body)))))
    (fun _ => Some (mkResponse 200 body 1))
    (fun _ _ => Some (mkResponse 200 body 1)).

Definition only_file (path : string) (content : bytes) : world :=
  mkWorld (fun p => if String.eqb p path then Some content else None) [].

Definition empty_world : world := mkWorld (fun _ => None) [].

Definition example_url : string := "http://h/img_001.jpg".
Definition example_dst : string := "/files/img_001.jpg".

End RangeDownloader.

(* ===================================================================== *)
(** * String methods used by the orchestrator *)
(* ===================================================================== *)

(** Strings are sequences of ASCII characters, which is what URLs are. *)
Module JsString.
Local Open Scope string_scope.

Definition is_upper (c : ascii) : bool :=
  (65 <=? nat_of_ascii c)%nat && (nat_of_ascii c <=? 90)%nat.

Definition lower_char (c : ascii) : ascii :=
  if is_upper c then ascii_of_nat (nat_of_ascii c + 32) else c.

(** [s.toLowerCase()] *)
Fixpoint toLowerCase (s : string) : string :=
  match s with
  | EmptyString => EmptyString
  | String c r => String (lower_char c) (toLowerCase r)
  end.

(** [s.includes(sub)] *)
Fixpoint includes (sub s : string) : bool :=
  if String.prefix sub s then true
  else match s with
       | EmptyString => false
       | String _ r => includes sub r
       end.

(** [s.endsWith(suf)] *)
Fixpoint endsWith (suf s : string) : bool :=
  if String.eqb s suf then true
  else match s with
       | EmptyString => false
       | String _ r => endsWith suf r
       end.

Definition is_digit (c : ascii) : bool :=
  (48 <=? nat_of_ascii c)%nat && (nat_of_ascii c <=? 57)%nat.

Definition digit_val (c : ascii) : nat := nat_of_ascii c - 48.

(** The whole of [s] is [img_] followed by three digits and [.jpg]; the
    result is the number the three digits spell. *)
Definition img3_exact (s : string) : option nat :=
  match s with
  | String "i" (String "m" (String "g" (String "_"
      (String d1 (String d2 (String d3
        (String "." (String "j" (String "p" (String "g" EmptyString)))))))))) =>
      if is_digit d1 && is_digit d2 && is_digit d3
      then Some (100 * digit_val d1 + 10 * digit_val d2 + digit_val d3)%nat
      else None
  | _ => None
  end.

(** [s.match(/img_(\d{3})\.jpg$/)] followed by [Number(m[1])]: the pattern
    has a fixed length and is anchored at the end, so it can only match the
    last eleven characters. *)
Fixpoint match_img3 (s : string) : option nat :=
  match img3_exact s with
  | Some v => Some v
  | None =>
      match s with
      | EmptyString => None
      | String _ r => match_img3 r
      end
  end.

(** [s.replace(/\/$/, '')]: one trailing slash is removed. *)
Fixpoint strip_trailing_slash (s : string) : string :=
  match s with
  | EmptyString => EmptyString
  | String c r =>
      match r with
      | EmptyString => if Ascii.eqb c "/" then EmptyString else s
      | _ => String c (strip_trailing_slash r)
      end
  end.

(** [s.split('/').pop()]: what follows the last slash. *)
Fixpoint basename_acc (acc s : string) : string :=
  match s with
  | EmptyString => acc
  | String c r =>
      if Ascii.eqb c "/" then basename_acc r r else basename_acc acc r
  end.

Definition basename (s : string) : string := basename_acc s s.

(** [String(i).padStart(3, '0')] for a natural number [i]. *)
Definition padStart3 (i : nat) : string :=
  let d := NilZero.string_of_uint (Nat.to_uint i) in
  match String.length d with
  | 1%nat => "00" ++ d
  | 2%nat => "0" ++ d
  | _ => d
  end.

(** What the searches decide, stated on the text itself. *)
Definition contains (sub s : string) : Prop :=
  exists pre post, s = pre ++ sub ++ post.

Definition ends_with (suf s : string) : Prop :=
  exists pre, s = pre ++ suf.

(** [s] ends with [img_], three digits spelling [v], and [.jpg]. *)
Definition ends_with_img3 (s : string) (v : nat) : Prop :=
  exists pre d1 d2 d3,
    s = pre ++ "img_" ++ String d1 (String d2 (String d3 ".jpg")) /\
    is_digit d1 = true /\ is_digit d2 = true /\ is_digit d3 = true /\
    v = (100 * digit_val d1 + 10 * digit_val d2 + digit_val d3)%nat.

End JsString.

(* ===================================================================== *)
(** * NetProbe.ts *)
(* ===================================================================== *)

Module NetProbe.

Record probe : Type := mkProbe {
  everyN    : Z;
  fastUntil : Z;
  count     : Z;
  costMs    : Z
}.

Definition new (n : Z) : probe := mkProbe (Z.max 2 n) 0 0 0.

(** The interval computed at the head of [maybeProbe]. *)
Definition interval (now : Z) (pr : probe) : Z :=
  if now <? fastUntil pr then Z.max 2 (everyN pr / 2) else everyN pr.

(** [(idx % interval) !== 0] decides whether a probe request is sent. *)
Definition due (now idx : Z) (pr : probe) : bool :=
  Z.rem idx (interval now pr) =? 0.

(** The bookkeeping once the probe request has come back. *)
Definition account (cost : Z) (pr : probe) : probe :=
  mkProbe (everyN pr) (fastUntil pr) (count pr + 1) (costMs pr + cost).

(** [boostShort(durationMs)] *)
Definition boostShort (now durationMs : Z) (pr : probe) : probe :=
  mkProbe (everyN pr) (Z.max (fastUntil pr) (now + durationMs))
          (count pr) (costMs pr).

End NetProbe.

(* ===================================================================== *)
(** * Runner.ts *)
(* ===================================================================== *)

Module Runner.
Import JsNum JsString.

(** [enum Mode]; at run time the argument is whatever string the caller
    passes, and the body only ever compares it with [Mode.AUTO_SWITCH]. *)
Definition WIFI_ONLY : string := "WIFI_ONLY".
Definition AUTO_SWITCH : string := "AUTO_SWITCH".

Definition CONC_BEFORE : Z := 3.
Definition CONC_WEAK : Z := 2.
Definition CONC_AFTER : Z := 8.
Definition MAX_PROMPTS : Z := 1.
Definition NET_POLL_INTERVAL : Z := 1000.
Definition NET_POLL_TIMEOUT : Z := 120000.

Inductive link : Type := wifi | cell.

Record PerFile : Type := mkPerFile {
  pf_url : string;
  pf_t : Q;
  pf_bytes : Z;
  pf_path : link;
  pf_used_range : option bool;
  pf_retried : option bool
}.

(** [kbps(bytes, sec) = (bytes / 1024) / Math.max(0.001, sec)] *)
Definition kbps (bytes : Z) (sec : Q) : Q :=
  ((inject_Z bytes / 1024) / Qmax (1 # 1000) sec)%Q.

(** [isSmallByName(u)] *)
Definition isSmallByName (u : string) : bool :=
  let n := toLowerCase u in
  if includes "thumb" n || includes "_s" n || includes "_small" n
     || endsWith "_128.jpg" n
  then true
  else match match_img3 n with
       | Some idx => if (idx <=? 16)%nat then true else false
       | None => false
       end.

(** The loop that fills [urls] at the top of [runBatch]. *)
Definition url_of (baseUrl : string) (i : nat) : string :=
  (strip_trailing_slash baseUrl ++ "/" ++ ("img_" ++ padStart3 i ++ ".jpg"))%string.

Definition build_urls (baseUrl : string) (count : Z) : list string :=
  map (url_of baseUrl) (seq 1 (Z.to_nat count)).

(** Where the body of task [i] is suspended.

    - [Queued]: pushed, not started by the pool;
    - [Probing since]: at [await prober.maybeProbe(...)]; [since] is the
      probe's [t0] when a probe request was sent;
    - [Downloading t0]: at [await downloadWithResume(u, dst)];
    - [Draining wake]: the drain promise waits for its 100 ms timer;
    - [AwaitPrevId]: at [await getDefaultNetId()] after the drain;
    - [Opening prev pauseStart]: at [await openWifiSettings(context)];
    - [Polling prev pauseStart deadline]: inside [waitForDefaultNetChange],
      at [await getDefaultNetId()];
    - [Sleeping prev pauseStart deadline wake]: inside
      [waitForDefaultNetChange], at the 1000 ms sleep;
    - [Returned]: the async function has returned, its [finally] callback
      has not run yet;
    - [Finished]: the [finally] callback has run. *)
Inductive phase : Type :=
| Queued
| Probing (since : option Z)
| Downloading (t0 : Z)
| Draining (wake : Z)
| AwaitPrevId
| Opening (prev pauseStart : Z)
| Polling (prev pauseStart deadline : Z)
| Sleeping (prev pauseStart deadline wake : Z)
| Returned
| Finished.

Record result : Type := mkBatchResult {
  totalTime : Q;
  res_totalBytes : Z;
  res_perFile : list (option PerFile);
  wallTime : Q;
  res_pausedMs : Z
}.

(** Where [runBatch] itself stands: waiting on [pool.idle()] (whose timer
    fires at [wake]), returned with a value, or ended by an exception. *)
Inductive batch : Type :=
| AwaitIdle (wake : Z)
| Done (r : result)
| Threw.

(** The variables of [runBatch] that the task bodies close over, the
    clock and the per-task phases. *)
Record state : Type := mkState {
  mode : string;
  urls : list string;
  perFile : list (option PerFile);
  pool : PriorityPool.pool nat;
  detector : WeakNetDetector.detector;
  prober : NetProbe.probe;
  wallStart : Z;
  totalBytes : Z;
  pausedMs : Z;
  speeds : list Q;
  promptsLeft : Z;
  switched : bool;
  switching : bool;
  weakDetectIndex : Z;
  switchTriggerTs : Z;
  now : Z;
  phases : list phase;
  main : batch
}.

Definition set_pool_phases (st : state) (p : PriorityPool.pool nat)
    (ph : list phase) : state :=
  mkState (mode st) (urls st) (perFile st) p (detector st) (prober st)
          (wallStart st) (totalBytes st) (pausedMs st) (speeds st)
          (promptsLeft st) (switched st) (switching st) (weakDetectIndex st)
          (switchTriggerTs st) (now st) ph (main st).

Definition set_phases (st : state) (ph : list phase) : state :=
  set_pool_phases st (pool st) ph.

Definition set_prober (st : state) (pr : NetProbe.probe) : state :=
  mkState (mode st) (urls st) (perFile st) (pool st) (detector st) pr
          (wallStart st) (totalBytes st) (pausedMs st) (speeds st)
          (promptsLeft st) (switched st) (switching st) (weakDetectIndex st)
          (switchTriggerTs st) (now st) (phases st) (main st).

Definition set_detector (st : state) (d : WeakNetDetector.detector) : state :=
  mkState (mode st) (urls st) (perFile st) (pool st) d (prober st)
          (wallStart st) (totalBytes st) (pausedMs st) (speeds st)
          (promptsLeft st) (switched st) (switching st) (weakDetectIndex st)
          (switchTriggerTs st) (now st) (phases st) (main st).

Definition set_now (st : state) (t : Z) : state :=
  mkState (mode st) (urls st) (perFile st) (pool st) (detector st) (prober st)
          (wallStart st) (totalBytes st) (pausedMs st) (speeds st)
          (promptsLeft st) (switched st) (switching st) (weakDetectIndex st)
          (switchTriggerTs st) t (phases st) (main st).

Definition set_main (st : state) (b : batch) : state :=
  mkState (mode st) (urls st) (perFile st) (pool st) (detector st) (prober st)
          (wallStart st) (totalBytes st) (pausedMs st) (speeds st)
          (promptsLeft st) (switched st) (switching st) (weakDetectIndex st)
          (switchTriggerTs st) (now st) (phases st) b.

(** The assignments made on a settled transfer: [totalBytes], [perFile[i]]
    and [speeds]. *)
Definition set_record (st : state) (tb : Z) (pf : list (option PerFile))
    (sp : list Q) : state :=
  mkState (mode st) (urls st) pf (pool st) (detector st) (prober st)
          (wallStart st) tb (pausedMs st) sp
          (promptsLeft st) (switched st) (switching st) (weakDetectIndex st)
          (switchTriggerTs st) (now st) (phases st) (main st).

(** [switching = true; weakDetectIndex = i; switchTriggerTs = Date.now();] *)
Definition set_trigger (st : state) (i : Z) : state :=
  mkState (mode st) (urls st) (perFile st) (pool st) (detector st) (prober st)
          (wallStart st) (totalBytes st) (pausedMs st) (speeds st)
          (promptsLeft st) (switched st) true i (now st)
          (now st) (phases st) (main st).

(** [pausedMs += ...; switched = true; promptsLeft -= 1;] *)
Definition set_switched (st : state) (paused : Z) : state :=
  mkState (mode st) (urls st) (perFile st) (pool st) (detector st) (prober st)
          (wallStart st) (totalBytes st) paused (speeds st)
          (promptsLeft st - 1) true (switching st) (weakDetectIndex st)
          (switchTriggerTs st) (now st) (phases st) (main st).

(** [switching = false;] *)
Definition clear_switching (st : state) : state :=
  mkState (mode st) (urls st) (perFile st) (pool st) (detector st) (prober st)
          (wallStart st) (totalBytes st) (pausedMs st) (speeds st)
          (promptsLeft st) (switched st) false (weakDetectIndex st)
          (switchTriggerTs st) (now st) (phases st) (main st).

Fixpoint set_nth {A : Type} (i : nat) (x : A) (l : list A) : list A :=
  match l, i with
  | [], _ => []
  | _ :: r, O => x :: r
  | y :: r, S i' => y :: set_nth i' x r
  end.

Definition phase_of (st : state) (i : nat) : option phase :=
  nth_error (phases st) i.

Definition set_phase (st : state) (i : nat) (ph : phase) : state :=
  set_phases st (set_nth i ph (phases st)).

(** The synchronous head of a task body: [prober.maybeProbe(i+1, u)] runs
    up to its first await. *)
Definition enter_task (st : state) (i : nat) : phase :=
  if NetProbe.due (now st) (Z.of_nat i + 1) (prober st)
  then Probing (Some (now st))
  else Probing None.

(** Installing the pool after one of its methods has run: the tasks it
    started in the meantime have entered their bodies. *)
Definition install_pool (st : state) (p : PriorityPool.pool nat) : state :=
  let fresh :=
    skipn (List.length (PriorityPool.started (pool st)))
          (PriorityPool.started p) in
  set_pool_phases st p
    (fold_left (fun ph i => set_nth i (enter_task st i) ph) fresh (phases st)).

Fixpoint index_of (i : nat) (l : list nat) : option nat :=
  match l with
  | [] => None
  | x :: r =>
      if Nat.eqb x i then Some O
      else match index_of i r with
           | Some k => Some (S k)
           | None => None
           end
  end.

(** The [finally] callback of task [i]. *)
Definition settle_task (st : state) (i : nat) : option state :=
  match index_of i (PriorityPool.inflight (pool st)) with
  | Some k =>
      match PriorityPool.step (pool st) (PriorityPool.Settle k) with
      | Some p => Some (set_phase (install_pool st p) i Finished)
      | None => None
      end
  | None => None
  end.

Definition current_link (st : state) : link :=
  if switched st then cell else wifi.

(** The condition of the first [if] in the [try] block. *)
Definition detect_guard (st : state) : bool :=
  String.eqb (mode st) AUTO_SWITCH && negb (switched st)
  && negb (switching st) && (0 <? promptsLeft st).

(** One [tick] of the drain promise. *)
Definition drain_tick (st : state) (i : nat) : state :=
  let s := PriorityPool.snapshot (pool st) in
  if Nat.eqb (PriorityPool.s_smallQ s) 0
     && (PriorityPool.s_running s <=? CONC_WEAK)
  then set_phase st i AwaitPrevId
  else set_phase st i (Draining (now st + 100)).

(** The [try] block after [downloadWithResume] has resolved with [rr]. *)
Definition on_resolved (st : state) (i : nat) (t0 : Z)
    (rr : RangeDownloader.RangeResult) : state :=
  let u := nth i (urls st) EmptyString in
  let t := (inject_Z (now st - t0) / 1000)%Q in
  let sz := RangeDownloader.size rr in
  let pf := mkPerFile u t sz (current_link st)
              (Some (RangeDownloader.usedRange rr))
              (Some (RangeDownloader.retried rr)) in
  let spd := kbps sz t in
  let st1 := set_record st (totalBytes st + sz)
               (set_nth i (Some pf) (perFile st)) (speeds st ++ [spd]) in
  if detect_guard st1 then
    let (det, d) := WeakNetDetector.feed (detector st1) (Fin spd) true in
    let st2 := set_detector st1 det in
    if WeakNetDetector.isWeak d then
      let st3 :=
        if Qgeb (WeakNetDetector.confidence d) (1 # 2)
        then set_prober st2 (NetProbe.boostShort (now st2) 15000 (prober st2))
        else st2 in
      let st4 := set_trigger st3 (Z.of_nat i) in
      let st5 := install_pool st4 (PriorityPool.setLimit CONC_WEAK (pool st4)) in
      drain_tick st5 i
    else set_phase st2 i Returned
  else set_phase st1 i Returned.

(** The [catch] block. *)
Definition on_rejected (st : state) (i : nat) : state :=
  let u := nth i (urls st) EmptyString in
  let pf := mkPerFile u (-1) 0 (current_link st) None None in
  let st1 := set_record st (totalBytes st)
               (set_nth i (Some pf) (perFile st)) (speeds st) in
  let (det, _) := WeakNetDetector.feed (detector st1) (Fin 0) false in
  set_phase (set_detector st1 det) i Returned.

(** What follows [await waitForDefaultNetChange(prevId)], whatever it
    returned. *)
Definition finish_migration (st : state) (i : nat) (pauseStart : Z) : state :=
  let st1 := set_switched st (pausedMs st + (now st - pauseStart)) in
  let st2 := install_pool st1 (PriorityPool.setLimit CONC_AFTER (pool st1)) in
  set_phase (clear_switching st2) i Returned.

(** The tail of [runBatch] once [pool.idle()] has resolved.  Writing and
    mirroring the JSON log sits in [try]/[catch] blocks and has no effect
    on the value returned. *)
Definition finalize (st : state) : state :=
  let wall := (inject_Z (now st - wallStart st) / 1000)%Q in
  let total := Qmax 0 (wall - inject_Z (pausedMs st) / 1000)%Q in
  set_main st (Done (mkBatchResult total (totalBytes st) (perFile st)
                                   wall (pausedMs st))).

(** One [tick] of [pool.idle()]. *)
Definition idle_tick (st : state) : state :=
  if PriorityPool.is_idle (pool st) then finalize st
  else set_main st (AwaitIdle (now st + 50)).

(** What the scheduler and the outside world can make happen. *)
Inductive event : Type :=
| Elapse (ms : nat)
| ProbeDone (i : nat)
| TransferDone (i : nat) (r : option RangeDownloader.RangeResult)
| Settle (i : nat)
| DrainTimer (i : nat)
| NetId (i : nat) (id : Z)
| SettingsReturned (i : nat)
| PollTimer (i : nat)
| IdleTimer.

Definition step (st : state) (e : event) : option state :=
  match e with
  | Elapse ms => Some (set_now st (now st + Z.of_nat ms))
  | ProbeDone i =>
      match phase_of st i with
      | Some (Probing (Some p0)) =>
          Some (set_phase
                  (set_prober st (NetProbe.account (now st - p0) (prober st)))
                  i (Downloading (now st)))
      | Some (Probing None) => Some (set_phase st i (Downloading (now st)))
      | _ => None
      end
  | TransferDone i r =>
      match phase_of st i with
      | Some (Downloading t0) =>
          match r with
          | Some rr => Some (on_resolved st i t0 rr)
          | None => Some (on_rejected st i)
          end
      | _ => None
      end
  | Settle i =>
      match phase_of st i with
      | Some Returned => settle_task st i
      | _ => None
      end
  | DrainTimer i =>
      match phase_of st i with
      | Some (Draining wake) =>
          if wake <=? now st then Some (drain_tick st i) else None
      | _ => None
      end
  | NetId i id =>
      match phase_of st i with
      | Some AwaitPrevId => Some (set_phase st i (Opening id (now st)))
      | Some (Polling prev ps deadline) =>
          if negb (id =? 0) && negb (id =? prev)
          then Some (finish_migration st i ps)
          else Some (set_phase st i
                       (Sleeping prev ps deadline (now st + NET_POLL_INTERVAL)))
      | _ => None
      end
  | SettingsReturned i =>
      match phase_of st i with
      | Some (Opening prev ps) =>
          let deadline := now st + NET_POLL_TIMEOUT in
          if now st <? deadline
          then Some (set_phase st i (Polling prev ps deadline))
          else Some (finish_migration st i ps)
      | _ => None
      end
  | PollTimer i =>
      match phase_of st i with
      | Some (Sleeping prev ps deadline wake) =>
          if wake <=? now st then
            if now st <? deadline
            then Some (set_phase st i (Polling prev ps deadline))
            else Some (finish_migration st i ps)
          else None
      | _ => None
      end
  | IdleTimer =>
      match main st with
      | AwaitIdle wake =>
          if wake <=? now st then Some (idle_tick st) else None
      | _ => None
      end
  end.

Fixpoint run (st : state) (es : list event) : option state :=
  match es with
  | [] => Some st
  | e :: rest =>
      match step st e with
      | Some st' => run st' rest
      | None => None
      end
  end.

(** The state a run leads to; the starting state when the run is not a
    possible one. *)
Definition after (st : state) (es : list event) : state :=
  match run st es with
  | Some st' => st'
  | None => st
  end.

(** [enqueue(i)] *)
Definition enqueue (st : state) (i : nat) : state :=
  let u := nth i (urls st) EmptyString in
  install_pool st (PriorityPool.push i (isSmallByName u) (pool st)).

(** [runBatch(baseUrl, count, mode, context)] up to its first suspension:
    the set-up, the enqueue loop and the first [tick] of [pool.idle()]. *)
Definition runBatch (baseUrl : string) (count : Z) (mode : string)
    (clock : Z) : state :=
  let us := build_urls baseUrl count in
  let n := List.length us in
  let st0 :=
    mkState mode us (repeat None n) (PriorityPool.new CONC_BEFORE)
            (WeakNetDetector.new WeakNetDetector.no_params) (NetProbe.new 10)
            clock 0 0 [] MAX_PROMPTS false false (-1) 0 clock
            (repeat Queued n) (AwaitIdle clock) in
  idle_tick (fold_left enqueue (seq 0 n) st0).

(** The same state under another [mode] argument. *)
Definition set_mode (st : state) (m : string) : state :=
  mkState m (urls st) (perFile st) (pool st) (detector st) (prober st)
          (wallStart st) (totalBytes st) (pausedMs st) (speeds st)
          (promptsLeft st) (switched st) (switching st) (weakDetectIndex st)
          (switchTriggerTs st) (now st) (phases st) (main st).

(** ** A batch whose link degrades and never changes

    Sixty URLs.  Each transfer takes one second; the first 46 bring
    100 KiB, the later ones 1 KiB.  The verdict turns weak on the 52nd
    sample (task 51).  The default network id reads 7 at every poll. *)
Definition ok_result (sz : Z) : RangeDownloader.RangeResult :=
  RangeDownloader.mkResult 1 sz true false.

Definition complete (i ms : nat) (sz : Z) : list event :=
  [ProbeDone i; Elapse ms; TransferDone i (Some (ok_result sz)); Settle i].

Definition to_trigger : list event :=
  flat_map (fun i => complete i 1000 102400) (seq 0 46)
  ++ flat_map (fun i => complete i 1000 1024) (seq 46 5)
  ++ [ProbeDone 51; Elapse 1000; TransferDone 51 (Some (ok_result 1024))].

Definition to_poll : list event :=
  complete 52 1000 1024
  ++ [Elapse 100; DrainTimer 51; NetId 51 7; SettingsReturned 51].

Definition polls (n : nat) : list event :=
  List.concat (repeat [NetId 51 7; Elapse 1000; PollTimer 51] n).

Definition to_deadline : list event :=
  to_trigger ++ to_poll ++ polls 119 ++ [NetId 51 7; Elapse 1000].

Definition to_the_end : list event :=
  [Settle 51] ++ flat_map (fun i => complete i 1000 1024) (seq 53 7)
  ++ [IdleTimer].

Definition degrading_batch : state :=
  runBatch "http://h/images/" 60 AUTO_SWITCH 0.

Definition reads_only (id : Z) (e : event) : bool :=
  match e with
  | NetId _ x => x =? id
  | _ => true
  end.

(** The migration state of the design, read off the two flags. *)
Inductive MigrationState : Type := Normal | DrainingState | Switched.

Definition migration_state (st : state) : MigrationState :=
  if switched st then Switched
  else if switching st then DrainingState else Normal.

(** The heuristic as the design words it, on the basename of the URL. *)
Definition small_by_basename (u : string) : bool :=
  let b := basename u in
  includes "thumb" b || includes "_s" b || includes "_small" b
  || endsWith "_128.jpg" b
  || match img3_exact b with
     | Some idx => (idx <=? 16)%nat
     | None => false
     end.

End Runner.

From Stdlib Require Import Permutation Sorted Lqa DecimalNat.

(* ===================================================================== *)
(** * Runs of the pool: what was pushed, what has settled *)
(* ===================================================================== *)

Module PoolTrace.
Import PriorityPool.
Section Trace.
Context {task : Type}.

(** The tasks a sequence of operations pushes with the given tag, in the
    order of the calls. *)
Fixpoint pushed (sm : bool) (ops : list (op task)) : list task :=
  match ops with
  | [] => []
  | Push t b :: rest =>
      if Bool.eqb b sm then t :: pushed sm rest else pushed sm rest
  | _ :: rest => pushed sm rest
  end.

(** How many [finally] callbacks a sequence of operations runs. *)
Fixpoint settles (ops : list (op task)) : nat :=
  match ops with
  | [] => O
  | Settle _ :: rest => S (settles rest)
  | _ :: rest => settles rest
  end.

(** Every task in flight settles, the oldest first, until nothing is left
    to settle: one [Settle 0] per task in flight or queued. *)
Definition settle_all (p : pool task) : list (op task) :=
  repeat (Settle 0%nat) (List.length (inflight p) + queued p).

(** Headroom is used: below the limit nothing is left in the queues. *)
Definition headroom_used (p : pool task) : Prop :=
  running p < limit p -> small p = [] /\ large p = [].

End Trace.
End PoolTrace.

(* ===================================================================== *)
(** * What the detector keeps true of its state *)
(* ===================================================================== *)

Module DetectorInv.
Import JsNum WeakNetDetector.
Local Open Scope Q_scope.





End DetectorInv.

(* ===================================================================== *)
(** * Terms for stating what a transfer does *)
(* ===================================================================== *)

Module TransferTerms.
Import HttpDownloader RangeDownloader.

(** What a path holds, a missing file counting as empty. *)
Definition on_disk (f : filesystem) (path : string) : bytes :=
  match f path with Some b => b | None => [] end.

(** The promise has settled. *)
Definition settled (o : outcome) : Prop :=
  match o with Running _ => False | _ => True end.

(** The test that makes [downloadWithResume] drop the file and start at
    0: the length is known and the file is longer. *)
Definition stale (hi : HeadInfo) (existed : Z) : bool :=
  match contentLength hi with
  | Some n => n <? existed
  | None => false
  end.

(** A server that answers every Range GET for [url] with a non-empty
    body and a status other than 200. *)
Definition always_partial (srv : server) (url : string) : Prop :=
  forall start : Z,
    exists rr, srv_range srv url start = Some rr /\
               r_status rr <> 200 /\ r_body rr <> [].

(** Ranges announced, no length, and 416 with a one-byte page beyond the
    end of a two-byte object. *)
Definition lengthless_server : server :=
  mkServer
    (fun _ => Some (mkHead true 200 true None))
    (fun _ => Some (mkResponse 200 [Byte.x61; Byte.x62] 1))
    (fun _ start =>
       if start <? 2
       then Some (mkResponse 206 (skipn (Z.to_nat start) [Byte.x61; Byte.x62]) 1)
       else Some (mkResponse 416 [Byte.x3c] 1)).

(** No ranges announced. *)
Definition plain_server (body : bytes) : server :=
  mkServer
    (fun _ => Some (mkHead true 200 false (Some (Z.of_nat (List.length body)))))
    (fun _ => Some (mkResponse 200 body 1))
    (fun _ _ => None).


End TransferTerms.

(* ===================================================================== *)
(** * Terms for stating what a transfer sends and touches *)
(* ===================================================================== *)

Module TransferTrace.
Import HttpDownloader RangeDownloader.

(** The world a call leaves behind, however it ends. *)
Definition world_of (o : outcome) : world :=
  match o with
  | Resolved _ w => w
  | Rejected w => w
  | Running w => w
  end.

(** Range requests for [url] at the offsets [os], in this order. *)
Definition range_requests (url : string) (os : list Z) : list request :=
  map (ReqRange url) os.

End TransferTrace.

(* ===================================================================== *)
(** * Invariants of a running batch *)
(* ===================================================================== *)

Module RunnerInv.
Import JsNum JsString Runner.

(** The phases of the migration protocol. *)
Definition migrating (ph : phase) : bool :=
  match ph with
  | Draining _ | AwaitPrevId | Opening _ _ | Polling _ _ _
  | Sleeping _ _ _ _ => true
  | _ => false
  end.

(** The [pauseStart] a phase carries was read off the clock. *)
Definition stamp_ok (t : Z) (ph : phase) : Prop :=
  match ph with
  | Opening _ ps | Polling _ ps _ | Sleeping _ ps _ _ => ps <= t
  | _ => True
  end.

(** The limit [runBatch] gives the pool in each migration state. *)
Definition limit_for (m : MigrationState) : Z :=
  match m with
  | Normal => CONC_BEFORE
  | DrainingState => CONC_WEAK
  | Switched => CONC_AFTER
  end.

Definition rank (m : MigrationState) : nat :=
  match m with Normal => 0 | DrainingState => 1 | Switched => 2 end.

(** How [switching], [switched] and [promptsLeft] go together. *)
Definition flags_ok (st : state) : Prop :=
  match switching st, switched st with
  | true, true => False
  | true, false => promptsLeft st = 1
  | false, false => promptsLeft st = 1
  | false, true => promptsLeft st = 0
  end.

(** What [finalize] puts into a result. *)
Definition result_ok (n : nat) (r : result) : Prop :=
  List.length (res_perFile r) = n /\
  0 <= res_pausedMs r /\
  (0 <= totalTime r)%Q /\ (totalTime r <= wallTime r)%Q.

(** What holds of the orchestrator's variables between any two events. *)
Definition sane (st : state) : Prop :=
  (forall j ph, nth_error (phases st) j = Some ph ->
     (migrating ph = true ->
      switching st = true /\ Z.of_nat j = weakDetectIndex st) /\
     stamp_ok (now st) ph) /\
  flags_ok st /\
  PriorityPool.limit (pool st) = limit_for (migration_state st) /\
  0 <= pausedMs st /\
  wallStart st <= now st /\
  (String.eqb (mode st) AUTO_SWITCH = false ->
   switching st = false /\ switched st = false /\ pausedMs st = 0) /\
  (forall j pf, nth_error (perFile st) j = Some (Some pf) ->
     pf_path pf = cell -> switched st = true) /\
  List.length (perFile st) = List.length (urls st) /\
  List.length (phases st) = List.length (urls st) /\
  (forall r, main st = Done r -> result_ok (List.length (urls st)) r).

(** What one event can do to the migration variables: nothing; enter the
    migration; leave it. *)
Definition control_move (st st' : state) : Prop :=
  (switching st' = switching st /\ switched st' = switched st /\
   promptsLeft st' = promptsLeft st /\ pausedMs st' = pausedMs st) \/
  (switching st = false /\ switched st = false /\
   switching st' = true /\ switched st' = false /\
   promptsLeft st' = promptsLeft st /\ pausedMs st' = pausedMs st) \/
  (switching st = true /\ switched st = false /\
   switching st' = false /\ switched st' = true /\
   promptsLeft st' = promptsLeft st - 1 /\ pausedMs st <= pausedMs st').

(** Two states that agree on everything but the pool, the detector, the
    prober, the records and the phases. *)
Definition same_control (st st' : state) : Prop :=
  mode st' = mode st /\ urls st' = urls st /\ wallStart st' = wallStart st /\
  pausedMs st' = pausedMs st /\ promptsLeft st' = promptsLeft st /\
  switched st' = switched st /\ switching st' = switching st /\
  weakDetectIndex st' = weakDetectIndex st /\ now st' = now st /\
  main st' = main st.

End RunnerInv.

(* ===================================================================== *)
(** * The ledger of a batch: tasks, pool and records *)
(* ===================================================================== *)

Module TaskLedger.
Import Runner.

(** How far a task has come, as far as the pool and [perFile] can tell:
    not started; started and without a record; record written, [finally]
    callback pending; callback run. *)
Inductive stage : Type := Waiting | Fetching | Recorded | Closed.

Definition stage_of (ph : phase) : stage :=
  match ph with
  | Queued => Waiting
  | Probing _ => Fetching
  | Downloading _ => Fetching
  | Finished => Closed
  | _ => Recorded
  end.

Definition queue (p : PriorityPool.pool nat) : list nat :=
  PriorityPool.small p ++ PriorityPool.large p.

Definition bytes_of (o : option PerFile) : Z :=
  match o with
  | Some pf => pf_bytes pf
  | None => 0
  end.

(** The sum of [bytes] over the slots of [perFile], a hole counting 0. *)
Definition recorded_bytes (l : list (option PerFile)) : Z :=
  fold_right (fun o acc => bytes_of o + acc) 0 l.

Definition filled (o : option PerFile) : Prop := o <> None.

Definition complete_result (r : result) : Prop :=
  Forall filled (res_perFile r) /\
  res_totalBytes r = recorded_bytes (res_perFile r).

(** What the pool and [perFile] hold for task [j] in phase [ph], when the
    first [k] tasks have been enqueued. *)
Definition task_ok (k : nat) (st : state) (j : nat) (ph : phase) : Prop :=
  match stage_of ph with
  | Waiting =>
      ((j < k)%nat -> In j (queue (pool st))) /\
      nth_error (perFile st) j = Some None
  | Fetching =>
      In j (PriorityPool.inflight (pool st)) /\
      ~ In j (queue (pool st)) /\
      nth_error (perFile st) j = Some None
  | Recorded =>
      In j (PriorityPool.inflight (pool st)) /\
      ~ In j (queue (pool st)) /\
      exists pf, nth_error (perFile st) j = Some (Some pf)
  | Closed =>
      ~ In j (queue (pool st)) /\
      exists pf, nth_error (perFile st) j = Some (Some pf)
  end.

Definition coherent (k : nat) (st : state) : Prop :=
  PriorityPool.consistent (pool st) /\
  NoDup (queue (pool st)) /\
  (forall j, In j (queue (pool st)) -> (j < k)%nat) /\
  (k <= List.length (phases st))%nat /\
  (forall j ph, nth_error (phases st) j = Some ph -> task_ok k st j ph) /\
  (forall j ph, nth_error (phases st) j = Some ph -> (k <= j)%nat ->
     stage_of ph = Waiting) /\
  totalBytes st = recorded_bytes (perFile st) /\
  (forall r, main st = Done r -> complete_result r).

(** The tasks a method of the pool has started. *)
Definition fresh (p p' : PriorityPool.pool nat) : list nat :=
  skipn (List.length (PriorityPool.started p)) (PriorityPool.started p').

(** The phases after the fresh tasks have entered their bodies and task
    [i], if any, has moved to [new]. *)
Definition moved_phases (f : nat -> phase) (fr : list nat)
    (upd : option (nat * phase)) (l : list phase) : list phase :=
  let l1 := fold_left (fun ph j => set_nth j (f j) ph) fr l in
  match upd with
  | Some (i, new) => set_nth i new l1
  | None => l1
  end.

(** How a call into the pool relates the pool before and after:
    [settled] names the task whose [finally] callback made the call. *)
Definition pool_rel (p p' : PriorityPool.pool nat) (settled : option nat)
  : Prop :=
  PriorityPool.consistent p' /\
  queue p = fresh p p' ++ queue p' /\
  match settled with
  | None =>
      PriorityPool.inflight p' = PriorityPool.inflight p ++ fresh p p'
  | Some i =>
      exists idx rest,
        index_of i (PriorityPool.inflight p) = Some idx /\
        PriorityPool.remove_nth idx (PriorityPool.inflight p) = Some rest /\
        PriorityPool.inflight p' = rest ++ fresh p p'
  end.

(** The moves of a task that keep the ledger: the stage before, the
    stage after and whether a record is written on the way. *)
Definition legal_move (old new : stage) (rec : option PerFile) : Prop :=
  match old, new, rec with
  | Fetching, Fetching, None => True
  | Fetching, Recorded, Some _ => True
  | Recorded, Recorded, None => True
  | Recorded, Closed, None => True
  | _, _, _ => False
  end.

End TaskLedger.

(* ===================================================================== *)
(** * Terms for stating what the prober does *)
(* ===================================================================== *)

Module ProbeTerms.
Import NetProbe.

(** The two ways a prober changes after its construction: [boostShort]
    called at time [now], and the bookkeeping at the end of a probe. *)
Inductive call : Type :=
| Boost (now durationMs : Z)
| Probed (cost : Z).

Definition apply_call (pr : probe) (c : call) : probe :=
  match c with
  | Boost now d => boostShort now d pr
  | Probed cost => account cost pr
  end.

Definition after_calls (pr : probe) (cs : list call) : probe :=
  fold_left apply_call cs pr.

Definition probes_made (cs : list call) : Z :=
  Z.of_nat (List.length (filter (fun c => match c with Probed _ => true | _ => false end) cs)).

Definition cost_of (c : call) : Z :=
  match c with Probed cost => cost | Boost _ _ => 0 end.

End ProbeTerms.

(* ===================================================================== *)
(** * Terms for stating what the URLs of a batch look like *)
(* ===================================================================== *)

Module UrlTerms.
Import JsString Runner.
Local Open Scope string_scope.

(** The file name of index [i]: the template literal in the URL loop. *)
Definition file_name (i : nat) : string := "img_" ++ padStart3 i ++ ".jpg".

Fixpoint slashless (s : string) : bool :=
  match s with
  | EmptyString => true
  | String c r => negb (Ascii.eqb c "/") && slashless r
  end.

(** The number spelled by the digits a text starts with. *)
Fixpoint leading_number (acc : nat) (s : string) : nat :=
  match s with
  | EmptyString => acc
  | String c r =>
      if is_digit c then leading_number (10 * acc + digit_val c) r else acc
  end.

(** What the tests of [isSmallByName] find in a file name on its own. *)
Definition name_tests (i : nat) : bool :=
  String.eqb (toLowerCase (file_name i)) (file_name i)
  && negb (includes "thumb" (file_name i))
  && negb (includes "_s" (file_name i))
  && Bool.eqb (endsWith "_128.jpg" (file_name i)) (Nat.eqb i 128)
  && match match_img3 (file_name i) with
     | Some v => Nat.eqb v i
     | None => false
     end
  && Nat.leb 11 (String.length (file_name i)).

End UrlTerms.

(* ===================================================================== *)
(** * Properties of the pool *)
(* ===================================================================== *)

Module PoolFacts.
Import PriorityPool.

Section Facts.
Context {task : Type}.
Local Abbreviation pool := (PriorityPool.pool task).
Local Abbreviation op := (PriorityPool.op task).

Ltac next_cases p :=
  unfold next; destruct (small p) as [|? ?] eqn:?;
  [ destruct (large p) as [|? ?] eqn:? | ]; cbn [fst snd].

(** [queued p] iterations are all the loop can make: more fuel changes
    nothing. *)
Lemma pump_loop_fuel (fuel k : nat) : forall p : pool,
  (queued p <= fuel)%nat -> (queued p <= k)%nat ->
  pump_loop fuel p = pump_loop k p.
Proof.
  revert k. induction fuel as [|f IH]; intros k p Hf Hk.
  - assert (Hs : small p = []) by
      (unfold queued in Hf; destruct (small p); [reflexivity | simpl in Hf; lia]).
    assert (Hl : large p = []) by
      (unfold queued in Hf; destruct (large p); [reflexivity | simpl in Hf; lia]).
    destruct k as [|k]; [reflexivity|]. cbn [pump_loop].
    destruct (running p <? limit p); [|reflexivity].
    unfold next. rewrite Hs, Hl. reflexivity.
  - destruct k as [|k].
    + assert (Hs : small p = []) by
        (unfold queued in Hk; destruct (small p); [reflexivity | simpl in Hk; lia]).
      assert (Hl : large p = []) by
        (unfold queued in Hk; destruct (large p); [reflexivity | simpl in Hk; lia]).
      cbn [pump_loop]. destruct (running p <? limit p); [|reflexivity].
      unfold next. rewrite Hs, Hl. reflexivity.
    + cbn [pump_loop]. destruct (running p <? limit p); [|reflexivity].
      unfold queued in Hf, Hk. next_cases p; try reflexivity.
      * apply IH; unfold queued; cbn; rewrite ?Heql0 in *; simpl in *; lia.
      * apply IH; unfold queued; cbn; rewrite ?Heql in *; simpl in *; lia.
Qed.

(** What one run of the loop does: it starts a prefix [taken] of
    [small ++ large], in that order, never touches [large] while [small]
    is non-empty, and starts a task only below the limit. *)
Lemma pump_loop_spec (fuel : nat) : forall p : pool,
  let p' := pump_loop fuel p in
  limit p' = limit p /\ pumping p' = pumping p /\
  exists taken,
    small p ++ large p = taken ++ small p' ++ large p' /\
    started p' = started p ++ taken /\
    inflight p' = inflight p ++ taken /\
    running p' = running p + Z.of_nat (List.length taken) /\
    (large p' = large p \/ small p' = []) /\
    (taken = [] \/ running p' <= limit p).
Proof.
  induction fuel as [|f IH]; intros p; cbn zeta; cbn [pump_loop].
  - repeat split; exists []; rewrite !app_nil_r; cbn;
      repeat split; auto; lia.
  - destruct (running p <? limit p) eqn:Hlt.
    2:{ repeat split; exists []; rewrite !app_nil_r; cbn;
          repeat split; auto; lia. }
    apply Z.ltb_lt in Hlt.
    next_cases p.
    + repeat match goal with
             | H : small p = _ |- _ => rewrite H
             | H : large p = _ |- _ => rewrite H
             end.
      repeat split; exists []; rewrite !app_nil_r; cbn;
        repeat split; auto; lia.
    + match goal with |- context [pump_loop f ?q] =>
        specialize (IH q); set (r := pump_loop f q) in * end.
      cbn zeta in IH; cbn in IH. destruct IH as (Hl & Hp & tk & Hq & Hs & Hi & Hr & Hsm & Hb).
      split; [exact Hl|]. split; [exact Hp|].
      exists (t :: tk). rewrite <- !app_assoc in *. cbn [app] in *.
      repeat split.
      * rewrite Hq. reflexivity.
      * exact Hs.
      * exact Hi.
      * rewrite Hr. cbn [List.length]. lia.
      * right. destruct Hsm as [Hsm|Hsm]; [|exact Hsm].
        destruct (small r) as [|x xs] eqn:E; [reflexivity|].
        exfalso. rewrite Hsm in Hq.
        assert (Hlen := f_equal (@List.length task) Hq).
        rewrite !length_app in Hlen. cbn in Hlen. lia.
      * right. destruct Hb as [->|Hb]; [|exact Hb].
        rewrite Hr. cbn. lia.
    + match goal with |- context [pump_loop f ?q] =>
        specialize (IH q); set (r := pump_loop f q) in * end.
      cbn zeta in IH; cbn in IH. destruct IH as (Hl & Hp & tk & Hq & Hs & Hi & Hr & Hsm & Hb).
      split; [exact Hl|]. split; [exact Hp|].
      exists (t :: tk). rewrite <- !app_assoc in *. cbn [app] in *.
      repeat split.
      * rewrite Hq. reflexivity.
      * exact Hs.
      * exact Hi.
      * rewrite Hr. cbn [List.length]. lia.
      * exact Hsm.
      * right. destruct Hb as [->|Hb]; [|exact Hb].
        rewrite Hr. cbn. lia.
Qed.

(** Work conservation: when the loop returns below the limit, both queues
    are empty. *)
Lemma pump_loop_drains (fuel : nat) : forall p : pool,
  (queued p <= fuel)%nat ->
  running (pump_loop fuel p) < limit p ->
  small (pump_loop fuel p) = [] /\ large (pump_loop fuel p) = [].
Proof.
  induction fuel as [|f IH]; intros p Hq; cbn [pump_loop].
  - intros _. unfold queued in Hq.
    destruct (small p), (large p); simpl in Hq; try lia. auto.
  - destruct (running p <? limit p) eqn:Hlt.
    2:{ apply Z.ltb_ge in Hlt. lia. }
    unfold queued in Hq. next_cases p.
    + intros _. auto.
    + intros H. apply IH; [unfold queued; cbn|exact H].
      simpl in Hq. lia.
    + intros H. apply IH; [unfold queued; cbn|exact H].
      simpl in Hq. lia.
Qed.

Lemma pump_spec (p : pool) :
  pumping p = false ->
  limit (pump p) = limit p /\ pumping (pump p) = false /\
  (running (pump p) < limit p -> small (pump p) = [] /\ large (pump p) = []) /\
  exists taken,
    small p ++ large p = taken ++ small (pump p) ++ large (pump p) /\
    started (pump p) = started p ++ taken /\
    inflight (pump p) = inflight p ++ taken /\
    running (pump p) = running p + Z.of_nat (List.length taken) /\
    (large (pump p) = large p \/ small (pump p) = []) /\
    (taken = [] \/ running (pump p) <= limit p).
Proof.
  intros Hp. unfold pump. rewrite Hp.
  pose proof (pump_loop_spec (queued p) (set_pumping true p)) as H.
  pose proof (pump_loop_drains (queued p) (set_pumping true p) (le_n _)) as D.
  cbn zeta in H. cbn in H, D |- *.
  destruct H as (Hl & _ & H). rewrite Hl.
  split; [reflexivity|]. split; [reflexivity|]. split; [exact D|exact H].
Qed.

(** The order of dispatch, sentinel up or down: [pump] starts a prefix of
    [small ++ large] in that order, and takes from [large] only once
    [small] is empty. *)
Lemma pump_order (p : pool) :
  exists taken,
    small p ++ large p = taken ++ small (pump p) ++ large (pump p) /\
    started (pump p) = started p ++ taken /\
    (large (pump p) = large p \/ small (pump p) = []).
Proof.
  destruct (pumping p) eqn:Hp.
  - unfold pump. rewrite Hp. exists []. rewrite app_nil_r. auto.
  - destruct (pump_spec p Hp) as (_ & _ & _ & tk & H1 & H2 & _ & _ & H3 & _).
    exists tk. auto.
Qed.

Lemma remove_nth_length {A : Type} (k : nat) : forall l r : list A,
  remove_nth k l = Some r -> List.length l = S (List.length r).
Proof.
  induction k as [|k IH]; intros [|x l] r H; cbn in H; try discriminate.
  - now inversion H.
  - destruct (remove_nth k l) eqn:E; [|discriminate].
    inversion H; subst. cbn. f_equal. now apply IH.
Qed.

(** One operation: the invariant is kept, [running] stays non-negative and
    never rises above both its old value and the limit now in force. *)
Lemma step_consistent (p p' : pool) (o : op) :
  consistent p -> step p o = Some p' ->
  consistent p' /\
  0 <= running p' <= Z.max (running p) (limit p') /\
  limit p' = match o with SetLimit n => Z.max 1 n | _ => limit p end.
Proof.
  intros (Hp & Hr & Hl) Hs. destruct o as [t sm|n|k]; cbn [step] in Hs.
  - inversion Hs; subst p'; clear Hs. unfold push.
    match goal with |- context [pump ?q] =>
      assert (Hq : pumping q = false) by (destruct sm; exact Hp);
      pose proof (pump_spec q Hq) as HS; set (r := pump q) in *;
      assert (Hlq : limit q = limit p) by (destruct sm; reflexivity);
      assert (Hrq : running q = running p) by (destruct sm; reflexivity);
      assert (Hiq : inflight q = inflight p) by (destruct sm; reflexivity)
    end.
    destruct HS as (E1 & E2 & _ & tk & _ & _ & E3 & E4 & _ & E5).
    unfold consistent. rewrite E1, E2, E3, E4, Hlq, Hrq, Hiq, length_app in *.
    repeat split; try lia.
    destruct E5 as [->|E5]; cbn; lia.
  - inversion Hs; subst p'; clear Hs. unfold setLimit.
    match goal with |- context [pump ?q] =>
      pose proof (pump_spec q Hp) as HS; set (r := pump q) in *
    end.
    cbn [limit running inflight] in HS.
    destruct HS as (E1 & E2 & _ & tk & _ & _ & E3 & E4 & _ & E5).
    unfold consistent. rewrite E1, E2, E3, E4, length_app in *.
    repeat split; try lia.
    destruct E5 as [->|E5]; cbn; lia.
  - destruct (remove_nth k (inflight p)) as [rest|] eqn:E; [|discriminate].
    inversion Hs; subst p'; clear Hs. unfold on_settled.
    apply remove_nth_length in E.
    match goal with |- context [pump ?q] =>
      pose proof (pump_spec q eq_refl) as HS; set (r := pump q) in *
    end.
    cbn [limit running inflight] in HS.
    destruct HS as (E1 & E2 & _ & tk & _ & _ & E3 & E4 & _ & E5).
    unfold consistent. rewrite E1, E2, E3, E4, length_app in *.
    repeat split; try lia.
    destruct E5 as [->|E5]; cbn; lia.
Qed.

Lemma new_consistent (n : Z) : consistent (new n : pool).
Proof. unfold consistent, new; cbn. repeat split; lia. Qed.

Lemma peak_ge (ops : list op) : forall hi, hi <= peak hi ops.
Proof.
  induction ops as [|o ops IH]; intros hi; cbn; [lia|].
  destruct o; try apply IH.
  specialize (IH (Z.max hi (Z.max 1 n))). lia.
Qed.

Lemma peak_mono (ops : list op) : forall a b, a <= b -> peak a ops <= peak b ops.
Proof.
  induction ops as [|o ops IH]; intros a b Hab; cbn; [lia|].
  destruct o; try (apply IH; lia).
Qed.

(** A whole run. *)
Lemma run_consistent (ops : list op) : forall (p p' : pool) (hi : Z),
  consistent p -> 0 <= running p <= hi -> limit p <= hi ->
  run p ops = Some p' ->
  consistent p' /\
  0 <= running p' <= peak hi ops /\
  (running p <= limit p -> gentle p ops = true -> running p' <= limit p').
Proof.
  induction ops as [|o ops IH]; intros p p' hi Hc Hr Hl Hrun; cbn in Hrun.
  - inversion Hrun; subst p'. cbn.
    split; [exact Hc|]. split; [lia|]. intros H _; exact H.
  - destruct (step p o) as [q|] eqn:Hs; [|discriminate].
    destruct (step_consistent p q o Hc Hs) as (Hcq & Hrq & Hlq).
    set (hi' := match o with SetLimit n => Z.max hi (Z.max 1 n) | _ => hi end).
    assert (Hhi : hi <= hi') by (subst hi'; destruct o; lia).
    assert (Hpk : peak hi (o :: ops) = peak hi' ops) by (subst hi'; destruct o; reflexivity).
    assert (Hlq' : limit q <= hi') by (subst hi'; destruct o; lia).
    assert (Hrq' : 0 <= running q <= hi') by lia.
    destruct (IH q p' hi' Hcq Hrq' Hlq' Hrun) as (Hc' & Hr' & Hg').
    rewrite Hpk. split; [exact Hc'|]. split; [exact Hr'|].
    intros Hle Hg. cbn [gentle] in Hg. rewrite Hs in Hg.
    apply andb_true_iff in Hg. destruct Hg as [Hg1 Hg2].
    apply Hg'; [|exact Hg2].
    destruct o; lia.
Qed.

End Facts.

(** C4 as stated fails: three large tasks start under limit 3, then
    [setLimit(2)] returns with three tasks still running. *)
Lemma running_exceeds_lowered_limit :
  ~ (forall (n : Z) (ops : list (PriorityPool.op nat)) (p : PriorityPool.pool nat),
       run (new n) ops = Some p -> 0 <= running p <= limit p).
Proof.
  intros H.
  specialize (H 3 [Push 1%nat false; Push 2%nat false; Push 3%nat false; SetLimit 2]
                _ eq_refl).
  cbn in H. lia.
Qed.

(** C4 (amended): at every quiescent point of every run, [running] is
    non-negative and at most the largest limit that has been in force;
    it is at most the current limit when no [setLimit] lowered the limit
    below the number of running tasks. *)
Theorem running_within_limit {task : Type} (n : Z)
    (ops : list (PriorityPool.op task)) (p : PriorityPool.pool task) :
  run (new n) ops = Some p ->
  0 <= running p <= peak (Z.max 1 n) ops /\
  (gentle (new n) ops = true -> running p <= limit p).
Proof.
  intros Hrun.
  destruct (run_consistent ops (new n) p (Z.max 1 n) (new_consistent n))
    as (_ & Hr & Hg); cbn; try lia; try exact Hrun.
  split; [exact Hr|]. intros G. apply Hg; [cbn; lia|exact G].
Qed.

Lemma running_within_limit_witness :
  0 <= 2 <= 8 /\ 2 <= 8.
Proof.
  destruct (running_within_limit 3
              [Push 1%nat false; Push 2%nat true; Push 3%nat false;
               Settle 0%nat; SetLimit 2; SetLimit 8]
              _ eq_refl) as [H G].
  exact (conj H (G eq_refl)).
Defined.

(** C6: with limit 1, pushing L1, L2, S1, L3, S2 and letting each running
    task settle starts the tasks in the order L1, S1, S2, L2, L3.  In
    general every dispatch starts a prefix of [small ++ large]: queued
    small tasks go before queued large ones, and each class is served
    first in, first out. *)
Theorem start_order_small_first {task : Type} (L1 L2 S1 L3 S2 : task) :
  option_map started
    (run (new 1)
         [Push L1 false; Push L2 false; Push S1 true; Push L3 false;
          Push S2 true;
          Settle 0%nat; Settle 0%nat; Settle 0%nat; Settle 0%nat; Settle 0%nat])
  = Some [L1; S1; S2; L2; L3] /\
  forall p : PriorityPool.pool task,
    exists taken,
      small p ++ large p = taken ++ small (pump p) ++ large (pump p) /\
      started (pump p) = started p ++ taken /\
      (large (pump p) = large p \/ small (pump p) = []).
Proof. split; [reflexivity | apply pump_order]. Qed.

(** C10: the constructor and [setLimit] are total, store [max(1, n)] for
    every integer [n], and so the limit of a pool is at least 1 after
    every operation of every run. *)
Theorem limit_at_least_one {task : Type} (n m : Z)
    (ops : list (PriorityPool.op task)) (p : PriorityPool.pool task) :
  run (new n) ops = Some p ->
  limit (new n : PriorityPool.pool task) = Z.max 1 n /\
  step p (SetLimit m) = Some (setLimit m p) /\
  limit (setLimit m p) = Z.max 1 m /\
  1 <= limit p /\ 1 <= limit (setLimit m p).
Proof.
  intros Hrun.
  destruct (run_consistent ops (new n) p (Z.max 1 n) (new_consistent n))
    as ((Hp & _ & Hl) & _); cbn; try lia; try exact Hrun.
  assert (E : limit (setLimit m p) = Z.max 1 m).
  { unfold setLimit.
    match goal with |- context [pump ?q] =>
      destruct (pump_spec q Hp) as (E & _) end.
    exact E. }
  rewrite E. repeat split; try reflexivity; lia.
Qed.

Lemma limit_at_least_one_witness :
  1 <= limit (setLimit (-5) (new 0 : PriorityPool.pool nat)).
Proof.
  exact (proj2 (proj2 (proj2 (proj2
           (limit_at_least_one 0 (-5) [] (new 0 : PriorityPool.pool nat) eq_refl))))).
Defined.

End PoolFacts.

(* ===================================================================== *)
(** * Properties of the detector *)
(* ===================================================================== *)

Module DetectorFacts.
Import JsNum WeakNetDetector.
Local Open Scope Q_scope.

Lemma feed_cfg (d : detector) (v : jsnum) (ok : bool) :
  cfg (fst (feed d v ok)) = cfg d.
Proof. reflexivity. Qed.

Lemma feed_hist_length (d : detector) (v : jsnum) (ok : bool) :
  List.length (hist (fst (feed d v ok))) = S (List.length (hist d)).
Proof.
  unfold feed; cbn [fst hist]. rewrite length_app. cbn. lia.
Qed.

Lemma Qgeb_false_of_lt (a b : Q) : a < b -> Qgeb a b = false.
Proof.
  intros H. unfold Qgeb. destruct (Qle_bool b a) eqn:E; [|reflexivity].
  apply Qle_bool_iff in E. exfalso. apply (Qlt_not_le _ _ H E).
Qed.

(** One call: as long as the history, the sample just fed included, is
    shorter than [max(3, warmupMin)], the verdict is "not weak". *)
Lemma feed_during_warmup (d : detector) (v : jsnum) (ok : bool) :
  of_len (hist (fst (feed d v ok))) < Qmax 3 (warmupMin (cfg d)) ->
  isWeak (snd (feed d v ok)) = false.
Proof.
  intros H. unfold feed in *; cbn [fst snd hist isWeak] in *.
  rewrite (Qgeb_false_of_lt _ _ H). reflexivity.
Qed.

Lemma feed_all_nth (samples : list sample) :
  forall (d : detector) (k : nat) (r : WeakDecision),
    nth_error (snd (feed_all d samples)) k = Some r ->
    exists d' v ok,
      r = snd (feed d' v ok) /\ cfg d' = cfg d /\
      List.length (hist d') = (List.length (hist d) + k)%nat.
Proof.
  induction samples as [|[v ok] rest IH]; intros d k r H; cbn [feed_all] in H.
  - destruct k; discriminate.
  - destruct (feed d v ok) as [d1 r1] eqn:E1.
    destruct (feed_all d1 rest) as [d2 rs] eqn:E2.
    cbn [snd] in H. destruct k as [|k]; cbn in H.
    + inversion H; subst r1. exists d, v, ok. rewrite E1.
      split; [reflexivity|]. split; [reflexivity | lia].
    + assert (Hrs : rs = snd (feed_all d1 rest)) by (rewrite E2; reflexivity).
      rewrite Hrs in H. destruct (IH d1 k r H) as (d' & v' & ok' & Hr & Hc & Hl).
      exists d', v', ok'. split; [exact Hr|].
      assert (Hd1 : d1 = fst (feed d v ok)) by (rewrite E1; reflexivity).
      rewrite Hd1, feed_cfg, feed_hist_length in *.
      split; [exact Hc | lia].
Qed.

(** C7 as stated fails at the last call of the warm-up.  A detector with
    the default parameters is fed nine samples of speed 0; its history
    then has length 9, below [warmupMin = 10].  The tenth call, made in
    that state, pushes its sample before it tests the length and returns
    [isWeak = true]. *)
Lemma tenth_call_can_be_weak :
  let d9 := fst (feed_all (new no_params) (repeat (Fin 0, true) 9)) in
  List.length (hist d9) = 9%nat /\
  of_len (hist d9) < warmupMin (cfg d9) /\
  isWeak (snd (feed d9 (Fin 0) true)) = true /\
  map isWeak (snd (feed_all (new no_params) (repeat (Fin 0, true) 10)))
  = [false; false; false; false; false; false; false; false; false; true].
Proof.
  cbn zeta. repeat split; vm_compute; reflexivity.
Qed.

(** C7 (amended): whatever the samples and [ok] flags fed to a detector,
    every call after which the history, the sample just fed included, is
    still shorter than [warmupMin] returns [isWeak = false].  The [k]-th
    call (counting from 0) of a fresh detector leaves a history of length
    [k + 1]. *)
Theorem warmup_never_weak (params : WeakParams) (samples : list sample)
    (k : nat) (r : WeakDecision) :
  nth_error (snd (feed_all (new params) samples)) k = Some r ->
  inject_Z (Z.of_nat (S k)) < warmupMin (make_config params) ->
  isWeak r = false.
Proof.
  intros Hnth Hlt.
  destruct (feed_all_nth samples (new params) k r Hnth)
    as (d' & v & ok & Hr & Hc & Hl).
  subst r. apply feed_during_warmup.
  unfold of_len. rewrite feed_hist_length, Hl, Hc. cbn [new hist cfg List.length plus].
  apply Qlt_le_trans with (1 := Hlt). apply Q.le_max_r.
Qed.

Lemma warmup_never_weak_witness :
  isWeak (snd (feed (fst (feed_all (new no_params)
                                   (repeat (Fin 100, true) 8)))
                    (Fin 1) true)) = false.
Proof.
  apply (warmup_never_weak no_params
           (repeat (Fin 100, true) 8 ++ [(Fin 1, true)]) 8).
  - vm_compute. reflexivity.
  - vm_compute. reflexivity.
Defined.

End DetectorFacts.

(* ===================================================================== *)
(** * Properties of the resumable transfer *)
(* ===================================================================== *)

Module TransferFacts.
Import HttpDownloader RangeDownloader.
Import Byte.

Lemma files_sent (w : world) (r : request) : files (sent w r) = files w.
Proof. reflexivity. Qed.

Lemma fs_set_same (f : filesystem) (path : string) (c : option bytes) :
  fs_set f path c path = c.
Proof. unfold fs_set. now rewrite String.eqb_refl. Qed.

Lemma fileSize_some (f : filesystem) (path : string) (b : bytes) :
  f path = Some b -> fileSize f path = Z.of_nat (List.length b).
Proof. intros H. unfold fileSize, stat_size. now rewrite H. Qed.

Lemma fileSize_none (f : filesystem) (path : string) :
  f path = None -> fileSize f path = 0.
Proof. intros H. unfold fileSize, stat_size. now rewrite H. Qed.

(** When the first Range GET of a call is answered by 200, the body is
    appended behind what the file held and the loop is left. *)
Lemma status_200_appends (fuel : nat) (srv : server) (url dst : string)
    (w : world) (hi : HeadInfo) (old : bytes) (rr : response) :
  srv_head srv url = Some hi ->
  acceptRanges hi = true ->
  files w dst = Some old ->
  match contentLength hi with
  | Some n => Z.of_nat (List.length old) < n
  | None => True
  end ->
  srv_range srv url (Z.of_nat (List.length old)) = Some rr ->
  r_status rr = 200 ->
  exists r w',
    downloadWithResume (S fuel) srv url dst w = Resolved r w' /\
    files w' dst = Some (old ++ r_body rr) /\
    size r = Z.of_nat (List.length (r_body rr)) /\
    retried r = (0 <? Z.of_nat (List.length old)).
Proof.
  intros Hh Ha Hf Hn Hr Hs.
  unfold downloadWithResume. rewrite Hh, Ha. cbn [negb].
  rewrite files_sent, (fileSize_some _ _ _ Hf).
  set (e := Z.of_nat (List.length old)) in *.
  assert (Hstale : match contentLength hi with Some n => n <? e | None => false end = false).
  { destruct (contentLength hi); [apply Z.ltb_ge; lia | reflexivity]. }
  rewrite Hstale. cbn [range_loop].
  assert (Hc : loop_cond (contentLength hi) e = true).
  { unfold loop_cond. destruct (contentLength hi); [apply Z.ltb_lt; lia | reflexivity]. }
  rewrite Hc. unfold downloadRangeAppend. rewrite Hr, Hs. cbn [Z.eqb Pos.eqb].
  eexists. eexists. split; [reflexivity|].
  cbn [files with_files sent size retried]. unfold write_append.
  rewrite fs_set_same, Hf. repeat split; lia.
Qed.

(** C1: a file holding the first byte of a three-byte object, a server
    that announces ranges and answers the Range GET by 200 with the whole
    object.  The call resolves, and the file then holds the old byte
    followed by the whole object: four bytes, not the object once. *)
Theorem range_ignored_body_is_appended :
  let body := [x61; x62; x63] in
  let w := only_file example_dst [x61] in
  exists r w',
    downloadWithResume 1 (range_ignoring_server body)
      example_url example_dst w = Resolved r w' /\
    files w' example_dst = Some [x61; x61; x62; x63] /\
    files w' example_dst <> Some body /\
    size r = 3 /\ usedRange r = true /\ retried r = true.
Proof.
  cbn zeta. eexists. eexists. split; [reflexivity|].
  cbn. repeat split; try reflexivity. discriminate.
Qed.

Lemma write_append_at (f : filesystem) (path : string) (arr : bytes) :
  write_append f path arr path
  = Some (match f path with Some b => b | None => [] end ++ arr).
Proof. unfold write_append. apply fs_set_same. Qed.

Lemma fileSize_append (f : filesystem) (path : string) (arr : bytes) :
  fileSize (write_append f path arr) path
  = fileSize f path + Z.of_nat (List.length arr).
Proof.
  unfold fileSize, stat_size. rewrite write_append_at.
  destruct (f path); rewrite length_app; cbn [List.length]; lia.
Qed.

Lemma fileSize_nonneg (f : filesystem) (path : string) : 0 <= fileSize f path.
Proof. unfold fileSize, stat_size. destruct (f path); lia. Qed.

(** One pass through the loop body that fetches the rest of the object:
    the loop is left at the next test of its condition. *)
Lemma range_loop_fetches_rest (fuel : nat) (srv : server) (url dst : string)
    (body : bytes) (start : nat) (el0 : Q) (ap0 : Z)
    (k : Q -> Z -> RangeResult) (w : world) :
  (forall s : nat, (s < List.length body)%nat ->
     exists el, srv_range srv url (Z.of_nat s)
                = Some (mkResponse 206 (skipn s body) el)) ->
  (start < List.length body)%nat ->
  exists r,
    range_loop (S fuel) srv url dst (Some (Z.of_nat (List.length body)))
               (Z.of_nat start) el0 ap0 k w
    = Resolved r
        (with_files (sent w (ReqRange url (Z.of_nat start)))
                    (write_append (files w) dst (skipn start body))).
Proof.
  intros Hrange Hlt. destruct (Hrange start Hlt) as (el & Hr).
  cbn [range_loop]. unfold loop_cond at 1.
  assert (H0 : (Z.of_nat start <? Z.of_nat (List.length body)) = true)
    by (apply Z.ltb_lt; lia).
  rewrite H0. unfold downloadRangeAppend. rewrite Hr.
  cbn [r_status r_body Z.eqb Pos.eqb].
  assert (Hlen : List.length (skipn start body) = (List.length body - start)%nat)
    by apply length_skipn.
  rewrite Hlen.
  assert (Hsz : (Z.of_nat (List.length body - start) <=? 0) = false)
    by (apply Z.leb_gt; lia).
  rewrite Hsz.
  assert (Hend : loop_cond (Some (Z.of_nat (List.length body)))
                   (Z.of_nat start + Z.of_nat (List.length body - start)) = false)
    by (unfold loop_cond; apply Z.ltb_ge; lia).
  destruct fuel; cbn [range_loop]; rewrite Hend; eexists; reflexivity.
Qed.

(** The first call against a Range-capable server leaves a file as long
    as the object, whatever the file held before. *)
Lemma first_call_completes (fuel : nat) (srv : server) (url dst : string)
    (body : bytes) (w : world) :
  range_capable srv url body ->
  exists r w',
    downloadWithResume (S fuel) srv url dst w = Resolved r w' /\
    fileSize (files w') dst = Z.of_nat (List.length body) /\
    (files w dst = None -> body <> [] -> files w' dst = Some body).
Proof.
  intros ((hi & Hh & Ha & Hcl) & Hrange).
  unfold downloadWithResume. rewrite Hh, Ha, Hcl. cbn [negb].
  rewrite files_sent.
  pose proof (fileSize_nonneg (files w) dst) as He.
  set (e := fileSize (files w) dst) in *.
  destruct (Z.of_nat (List.length body) <? e) eqn:Hstale.
  - (* longer than the object: removed, fetched from 0 *)
    apply Z.ltb_lt in Hstale.
    assert (Hsome : files w dst <> None).
    { intros Hnone. subst e. rewrite (fileSize_none _ _ Hnone) in Hstale. lia. }
    destruct (Nat.eq_dec (List.length body) 0) as [Hz|Hnz].
    + rewrite Hz. cbn [range_loop loop_cond Z.of_nat Z.ltb Z.compare].
      eexists. eexists. split; [reflexivity|].
      cbn [files with_files]. split.
      * apply fileSize_none. apply fs_set_same.
      * intros Hnone. contradiction.
    + destruct (range_loop_fetches_rest fuel srv url dst body 0 0%Q 0
                  (fun el ap => mkResult el ap true (0 <? e))
                  (with_files (sent w (ReqHead url)) (fs_set (files w) dst None))
                  Hrange) as (r & Hr); [lia|].
      cbn [Z.of_nat] in Hr. rewrite Hr.
      eexists. eexists. split; [reflexivity|].
      cbn [files with_files sent skipn]. split.
      * rewrite fileSize_append, (fileSize_none _ _ (fs_set_same _ _ _)). lia.
      * intros Hnone. contradiction.
  - (* not longer: resumed at the current size *)
    apply Z.ltb_ge in Hstale.
    destruct (e <? Z.of_nat (List.length body)) eqn:Hlt.
    + apply Z.ltb_lt in Hlt.
      destruct (range_loop_fetches_rest fuel srv url dst body (Z.to_nat e) 0%Q 0
                  (fun el ap => mkResult el ap true (0 <? e))
                  (sent w (ReqHead url)) Hrange) as (r & Hr); [lia|].
      rewrite Z2Nat.id in Hr by exact He. rewrite Hr.
      eexists. eexists. split; [reflexivity|].
      cbn [files with_files sent]. split.
      * rewrite fileSize_append, length_skipn. fold e. lia.
      * intros Hnone _. rewrite write_append_at, Hnone.
        subst e. rewrite (fileSize_none _ _ Hnone). reflexivity.
    + apply Z.ltb_ge in Hlt.
      cbn [range_loop]. unfold loop_cond. 
      assert (H0 : (e <? Z.of_nat (List.length body)) = false)
        by (apply Z.ltb_ge; lia).
      rewrite H0. eexists. eexists. split; [reflexivity|].
      cbn [files sent]. split; [fold e; lia|].
      intros Hnone Hne. exfalso. subst e.
      rewrite (fileSize_none _ _ Hnone) in Hlt.
      destruct body; [congruence | cbn in Hlt; lia].
Qed.

(** A call that finds a file as long as the object sends the HEAD request
    and nothing else. *)
Lemma complete_file_is_kept (fuel : nat) (srv : server) (url dst : string)
    (body : bytes) (w : world) :
  range_capable srv url body ->
  fileSize (files w) dst = Z.of_nat (List.length body) ->
  exists r,
    downloadWithResume fuel srv url dst w
    = Resolved r (sent w (ReqHead url)) /\
    size r = 0 /\ usedRange r = true /\
    retried r = (0 <? Z.of_nat (List.length body)).
Proof.
  intros ((hi & Hh & Ha & Hcl) & _) Hsz.
  unfold downloadWithResume. rewrite Hh, Ha, Hcl. cbn [negb].
  rewrite files_sent, Hsz, Z.ltb_irrefl.
  assert (Hend : loop_cond (Some (Z.of_nat (List.length body)))
                           (Z.of_nat (List.length body)) = false)
    by (unfold loop_cond; apply Z.ltb_irrefl).
  destruct fuel; cbn [range_loop]; rewrite Hend;
    (eexists; split; [reflexivity|]); cbn; auto.
Qed.

(** C5 as stated fails for an object of length 0: both calls succeed and
    download nothing, and the second call reports [retried = false]. *)
Lemma retried_false_on_empty_object :
  ~ (forall (srv : server) (url dst : string) (body : bytes) (w r1 w1 : _),
       range_capable srv url body ->
       downloadWithResume 1 srv url dst w = Resolved r1 w1 ->
       exists r2 w2,
         downloadWithResume 1 srv url dst w1 = Resolved r2 w2 /\
         files w2 dst = files w1 dst /\
         retried r2 = true /\ size r2 = 0).
Proof.
  intros H.
  assert (Hcap : range_capable (static_server []) example_url []).
  { split.
    - eexists. split; [reflexivity|]. split; reflexivity.
    - intros start Hs. cbn in Hs. lia. }
  destruct (H (static_server []) example_url example_dst
              [] empty_world _ _ Hcap eq_refl) as (r2 & w2 & Hrun & _ & Hret & _).
  cbn in Hrun. inversion Hrun; subst r2. cbn in Hret. discriminate.
Qed.

(** C5 (amended): against a Range-capable server whose object has a known,
    positive length, a first call resolves whatever the file held, and a
    second call resolves with the file unchanged, [retried = true], no
    byte downloaded and no request sent beyond its HEAD. *)
Theorem resume_is_idempotent (f1 f2 : nat) (srv : server) (url dst : string)
    (body : bytes) (w : world) :
  range_capable srv url body ->
  body <> [] ->
  exists r1 w1 r2 w2,
    downloadWithResume (S f1) srv url dst w = Resolved r1 w1 /\
    downloadWithResume f2 srv url dst w1 = Resolved r2 w2 /\
    files w2 dst = files w1 dst /\
    retried r2 = true /\ size r2 = 0 /\
    wire w2 = wire w1 ++ [ReqHead url].
Proof.
  intros Hcap Hne.
  destruct (first_call_completes f1 srv url dst body w Hcap)
    as (r1 & w1 & H1 & Hsz & _).
  destruct (complete_file_is_kept f2 srv url dst body w1 Hcap Hsz)
    as (r2 & H2 & Hs2 & _ & Hr2).
  exists r1, w1, r2, (sent w1 (ReqHead url)).
  repeat split; auto.
  rewrite Hr2. apply Z.ltb_lt. destruct body; [congruence | cbn; lia].
Qed.

Lemma static_server_range_capable (url : string) (body : bytes) :
  range_capable (static_server body) url body.
Proof.
  split.
  - eexists. split; [reflexivity|]. split; reflexivity.
  - intros start _. exists 1%Q. cbn. now rewrite Nat2Z.id.
Qed.

Lemma resume_is_idempotent_witness :
  exists r1 w1 r2 w2,
    downloadWithResume 1 (static_server [x61; x62; x63])
      example_url example_dst
      (only_file example_dst [x61]) = Resolved r1 w1 /\
    downloadWithResume 1 (static_server [x61; x62; x63])
      example_url example_dst w1 = Resolved r2 w2 /\
    files w2 example_dst = files w1 example_dst /\
    retried r2 = true /\ size r2 = 0 /\
    wire w2 = wire w1 ++ [ReqHead example_url].
Proof.
  apply (resume_is_idempotent 0 1 (static_server [x61; x62; x63])
           example_url example_dst [x61; x62; x63]).
  - apply static_server_range_capable.
  - discriminate.
Defined.

End TransferFacts.

(* ===================================================================== *)
(** * Properties of the orchestrator *)
(* ===================================================================== *)

Module RunnerFacts.
Import JsNum JsString Runner.

(** ** Bookkeeping lemmas *)

Lemma set_nth_length {A : Type} (i : nat) (x : A) (l : list A) :
  List.length (set_nth i x l) = List.length l.
Proof.
  revert i; induction l as [|y l IH]; intros [|i]; cbn; auto.
Qed.

Lemma nth_error_set_nth {A : Type} (i : nat) (x : A) : forall l : list A,
  (i < List.length l)%nat -> nth_error (set_nth i x l) i = Some x.
Proof.
  induction i as [|i IH]; intros [|y l] H; cbn in *; try lia; auto.
  apply IH. lia.
Qed.

Lemma enter_all_length (f : nat -> phase) (fresh : list nat) :
  forall ph : list phase,
    List.length (fold_left (fun ph i => set_nth i (f i) ph) fresh ph)
    = List.length ph.
Proof.
  induction fresh as [|i fresh IH]; intros ph; cbn; [reflexivity|].
  rewrite IH. apply set_nth_length.
Qed.

Lemma install_pool_phases_length (st : state) (p : PriorityPool.pool nat) :
  List.length (phases (install_pool st p)) = List.length (phases st).
Proof. unfold install_pool; cbn [phases set_pool_phases]. apply enter_all_length. Qed.

Lemma phase_of_lt (st : state) (i : nat) (ph : phase) :
  phase_of st i = Some ph -> (i < List.length (phases st))%nat.
Proof.
  unfold phase_of. intros H. apply nth_error_Some. congruence.
Qed.

(** [setLimit] stores [max(1, n)] even when called with the sentinel up. *)
Lemma limit_setLimit (n : Z) (p : PriorityPool.pool nat) :
  PriorityPool.limit (PriorityPool.setLimit n p) = Z.max 1 n.
Proof.
  unfold PriorityPool.setLimit, PriorityPool.pump.
  cbn [PriorityPool.pumping].
  destruct (PriorityPool.pumping p); [reflexivity|].
  cbn [PriorityPool.set_pumping PriorityPool.limit].
  match goal with |- context [PriorityPool.pump_loop ?f ?q] =>
    destruct (PoolFacts.pump_loop_spec f q) as (E & _) end.
  exact E.
Qed.

(** ** The small-file heuristic (C9) *)

Section Strings.
Local Open Scope string_scope.

Lemma prefix_spec (a : string) : forall s : string,
  String.prefix a s = true <-> exists post, s = a ++ post.
Proof.
  induction a as [|c a IH]; intros s.
  - split; [intros _; exists s; reflexivity|].
    intros _. destruct s; reflexivity.
  - destruct s as [|d s]; cbn [String.prefix].
    + split; [discriminate|]. intros (post & H). discriminate.
    + destruct (ascii_dec c d) as [->|Hne].
      * rewrite IH. split; intros (post & H); exists post.
        -- cbn. now rewrite H.
        -- cbn in H. now inversion H.
      * split; [discriminate|]. intros (post & H). cbn in H.
        inversion H. congruence.
Qed.

Lemma includes_spec (sub : string) : forall s : string,
  includes sub s = true <-> contains sub s.
Proof.
  induction s as [|c s IH]; cbn [includes].
  - destruct (String.prefix sub "") eqn:E.
    + split; [intros _|reflexivity].
      apply prefix_spec in E. destruct E as (post & E).
      exists "", post. exact E.
    + split; [discriminate|]. intros (pre & post & H).
      destruct pre; [|discriminate]. cbn in H.
      assert (String.prefix sub "" = true) by (apply prefix_spec; eauto).
      congruence.
  - destruct (String.prefix sub (String c s)) eqn:E.
    + split; [intros _|reflexivity].
      apply prefix_spec in E. destruct E as (post & E).
      exists "", post. exact E.
    + rewrite IH. split.
      * intros (pre & post & H). exists (String c pre), post.
        cbn. now rewrite H.
      * intros (pre & post & H). destruct pre as [|c' pre].
        -- cbn in H.
           assert (String.prefix sub (String c s) = true)
             by (apply prefix_spec; eauto).
           congruence.
        -- cbn in H. inversion H. exists pre, post. reflexivity.
Qed.

Lemma endsWith_spec (suf : string) : forall s : string,
  endsWith suf s = true <-> ends_with suf s.
Proof.
  induction s as [|c s IH]; cbn [endsWith].
  - destruct (String.eqb "" suf) eqn:E.
    + apply String.eqb_eq in E. subst suf.
      split; [intros _; exists ""; reflexivity | reflexivity].
    + apply String.eqb_neq in E.
      split; [discriminate|]. intros (pre & H).
      destruct pre; [|discriminate]. cbn in H. congruence.
  - destruct (String.eqb (String c s) suf) eqn:E.
    + apply String.eqb_eq in E. subst suf.
      split; [intros _; exists ""; reflexivity | reflexivity].
    + apply String.eqb_neq in E. rewrite IH. split.
      * intros (pre & H). exists (String c pre). cbn. now rewrite H.
      * intros (pre & H). destruct pre as [|c' pre].
        -- cbn in H. congruence.
        -- cbn in H. inversion H. exists pre. reflexivity.
Qed.

Lemma img3_exact_spec (s : string) (v : nat) :
  img3_exact s = Some v <->
  exists d1 d2 d3,
    s = "img_" ++ String d1 (String d2 (String d3 ".jpg")) /\
    is_digit d1 = true /\ is_digit d2 = true /\ is_digit d3 = true /\
    v = (100 * digit_val d1 + 10 * digit_val d2 + digit_val d3)%nat.
Proof.
  split.
  - unfold img3_exact.
    repeat match goal with
           | |- match ?x with _ => _ end = _ -> _ =>
               is_var x; destruct x; try discriminate
           | |- (if ?b then _ else _) = _ -> _ =>
               is_var b; destruct b; try discriminate
           end.
    destruct (is_digit _) eqn:D1; try discriminate.
    destruct (is_digit _) eqn:D2 in |- *; try discriminate.
    destruct (is_digit _) eqn:D3 in |- *; try discriminate.
    cbn [andb]. intros H; inversion H.
    eexists _, _, _. split; [reflexivity|]. auto.
  - intros (d1 & d2 & d3 & -> & D1 & D2 & D3 & ->).
    cbn. rewrite D1, D2, D3. reflexivity.
Qed.

Lemma img3_exact_length (s : string) (v : nat) :
  img3_exact s = Some v -> String.length s = 11%nat.
Proof.
  intros H. apply img3_exact_spec in H.
  destruct H as (d1 & d2 & d3 & -> & _). reflexivity.
Qed.

Lemma length_append (a b : string) :
  String.length (a ++ b) = (String.length a + String.length b)%nat.
Proof. induction a; cbn; auto. Qed.

Lemma match_img3_spec : forall (s : string) (v : nat),
  match_img3 s = Some v <-> ends_with_img3 s v.
Proof.
  induction s as [|c s IH]; intros v; cbn [match_img3].
  - cbn. split; [discriminate|].
    intros (pre & d1 & d2 & d3 & H & _). destruct pre; discriminate.
  - destruct (img3_exact (String c s)) as [w|] eqn:E.
    + split.
      * intros H; inversion H; subst w.
        apply img3_exact_spec in E.
        destruct E as (d1 & d2 & d3 & E & D).
        exists "", d1, d2, d3. split; [exact E | exact D].
      * intros (pre & d1 & d2 & d3 & H & D1 & D2 & D3 & Hv).
        apply img3_exact_length in E as L.
        apply (f_equal String.length) in H as HL.
        rewrite L, length_append in HL. cbn in HL.
        destruct pre; [|cbn in HL; lia].
        cbn [append] in H.
        assert (E' : img3_exact (String c s) = Some v)
          by (apply img3_exact_spec; exists d1, d2, d3; auto).
        congruence.
    + rewrite IH. split.
      * intros (pre & d1 & d2 & d3 & H & D).
        exists (String c pre), d1, d2, d3. split; [cbn; now rewrite H | exact D].
      * intros (pre & d1 & d2 & d3 & H & D1 & D2 & D3 & Hv).
        destruct pre as [|c' pre].
        -- cbn [append] in H.
           assert (E' : img3_exact (String c s) = Some v)
             by (apply img3_exact_spec; exists d1, d2, d3; auto).
           congruence.
        -- cbn in H. inversion H.
           exists pre, d1, d2, d3. auto.
Qed.

End Strings.

(** C9 as stated fails: with the base URL [http://h/thumbs] the
    orchestrator enqueues [http://h/thumbs/img_100.jpg]; the basename
    [img_100.jpg] meets none of the conditions, and the URL is tagged
    small because [thumb] occurs in the directory part. *)
Lemma small_by_directory_name :
  let u := url_of "http://h/thumbs" 100 in
  In u (build_urls "http://h/thumbs" 100) /\
  basename u = "img_100.jpg"%string /\
  small_by_basename u = false /\
  isSmallByName u = true.
Proof.
  cbn zeta. split.
  - unfold build_urls. apply in_map. apply in_seq. lia.
  - repeat split; vm_compute; reflexivity.
Qed.

(** C9 (amended): a URL is tagged small if and only if, once put in
    lower case, the URL as a whole contains [thumb], [_s] or [_small], or
    ends in [_128.jpg], or ends in [img_DDD.jpg] with three digits [DDD]
    and [DDD <= 16]; every other URL is tagged large. *)
Theorem small_iff_url_matches (u : string) :
  isSmallByName u = true <->
  (contains "thumb" (toLowerCase u) \/
   contains "_s" (toLowerCase u) \/
   contains "_small" (toLowerCase u) \/
   ends_with "_128.jpg" (toLowerCase u) \/
   exists v, ends_with_img3 (toLowerCase u) v /\ (v <= 16)%nat).
Proof.
  unfold isSmallByName. cbn zeta.
  rewrite <- !includes_spec, <- endsWith_spec.
  destruct (includes "thumb" (toLowerCase u)); [cbn; intuition|].
  destruct (includes "_s" (toLowerCase u)); [cbn; intuition|].
  destruct (includes "_small" (toLowerCase u)); [cbn; intuition|].
  destruct (endsWith "_128.jpg" (toLowerCase u)); [cbn; intuition|].
  cbn [orb].
  destruct (match_img3 (toLowerCase u)) as [idx|] eqn:E.
  - apply match_img3_spec in E.
    destruct (idx <=? 16)%nat eqn:L.
    + apply Nat.leb_le in L. split; [intros _|reflexivity].
      right; right; right; right. exists idx. auto.
    + apply Nat.leb_gt in L. split; [discriminate|].
      intros [H|[H|[H|[H|(v & Hv & Hle)]]]]; try discriminate.
      apply match_img3_spec in Hv, E. rewrite E in Hv.
      inversion Hv. lia.
  - split; [discriminate|].
    intros [H|[H|[H|[H|(v & Hv & Hle)]]]]; try discriminate.
    apply match_img3_spec in Hv. congruence.
Qed.

(** ** The success path of a task (C3) *)

(** C3 as stated fails: in a [WIFI_ONLY] batch the first transfer
    succeeds, its speed is computed and recorded, and the detector is left
    as it was created: nothing has been fed to it. *)
Lemma wifi_only_success_not_fed :
  exists st,
    run (runBatch "http://h/images/" 3 WIFI_ONLY 0)
        [ProbeDone 0; Elapse 1000;
         TransferDone 0 (Some (RangeDownloader.mkResult 1 102400 true false))]
    = Some st /\
    speeds st = [kbps 102400 (inject_Z 1000 / 1000)] /\
    detector st = WeakNetDetector.new WeakNetDetector.no_params /\
    WeakNetDetector.hist (detector st) = [] /\
    detector st
    <> fst (WeakNetDetector.feed
              (WeakNetDetector.new WeakNetDetector.no_params)
              (Fin (kbps 102400 (inject_Z 1000 / 1000))) true).
Proof.
  eexists. split; [vm_compute; reflexivity|].
  repeat split. intros H.
  apply (f_equal WeakNetDetector.hist) in H. vm_compute in H. discriminate.
Qed.

(** C3 (amended): for every transfer that succeeds, in either mode and
    before or after a migration, the speed [bytes/1024 / max(0.001, t)] is
    computed and appended to [speeds]; it is fed to the detector, with
    [ok = true], exactly when the mode is [AUTO_SWITCH], no switch has
    happened or is under way, and a prompt is left.  Otherwise the
    detector is not touched. *)
Theorem success_feeds_detector_under_guard (st : state) (i : nat) (t0 : Z)
    (rr : RangeDownloader.RangeResult) :
  phase_of st i = Some (Downloading t0) ->
  let spd := kbps (RangeDownloader.size rr) (inject_Z (now st - t0) / 1000) in
  exists st',
    step st (TransferDone i (Some rr)) = Some st' /\
    speeds st' = speeds st ++ [spd] /\
    detector st'
    = (if (String.eqb (mode st) AUTO_SWITCH && negb (switched st)
           && negb (switching st) && (0 <? promptsLeft st))%bool
       then fst (WeakNetDetector.feed (detector st) (Fin spd) true)
       else detector st).
Proof.
  intros Hph spd. eexists. split.
  - cbn [step]. rewrite Hph. reflexivity.
  - unfold on_resolved. fold spd.
    change (detect_guard (set_record _ _ _ _)) with (detect_guard st).
    change (String.eqb (mode st) AUTO_SWITCH && negb (switched st)
            && negb (switching st) && (0 <? promptsLeft st))%bool
      with (detect_guard st).
    destruct (detect_guard st) eqn:G.
    + cbn [detector set_record].
      destruct (WeakNetDetector.feed (detector st) (Fin spd) true) as [det d] eqn:F.
      cbn [fst].
      destruct (WeakNetDetector.isWeak d).
      * unfold drain_tick.
        destruct (Qgeb (WeakNetDetector.confidence d) (1 # 2));
        match goal with |- context [if ?c then _ else _] => destruct c end;
        split; reflexivity.
      * split; reflexivity.
    + split; reflexivity.
Qed.

Lemma success_feeds_detector_under_guard_witness :
  exists st',
    step (after (runBatch "http://h/images/" 3 AUTO_SWITCH 0)
                [ProbeDone 0; Elapse 1000])
         (TransferDone 0 (Some (RangeDownloader.mkResult 1 102400 true false)))
    = Some st' /\
    WeakNetDetector.hist (detector st')
    = [kbps 102400 (inject_Z (1000 - 0) / 1000)].
Proof.
  destruct (success_feeds_detector_under_guard
              (after (runBatch "http://h/images/" 3 AUTO_SWITCH 0)
                     [ProbeDone 0; Elapse 1000])
              0 0 (RangeDownloader.mkResult 1 102400 true false) eq_refl)
    as (st' & Hs & _ & Hd).
  exists st'. split; [exact Hs|]. rewrite Hd. reflexivity.
Defined.

(** ** The link-change timeout (C2) *)

(** C2 as stated fails.  In the degrading batch the migration is entered
    by task 51; every poll reads the same network id; when the timer
    fires at the 120 s deadline the state is still [Draining] with one
    prompt left, and that very step moves it to [Switched] and takes the
    prompt.  The batch goes on to return its result. *)
Lemma timeout_advances_to_switched :
  let st := after degrading_batch to_deadline in
  let st' := after st [PollTimer 51] in
  run degrading_batch to_deadline = Some st /\
  forallb (reads_only 7) to_deadline = true /\
  phase_of st 51 = Some (Sleeping 7 53100 173100 173100) /\
  now st = 173100 /\
  migration_state st = DrainingState /\ promptsLeft st = 1 /\
  step st (PollTimer 51) = Some st' /\
  migration_state st' = Switched /\ promptsLeft st' = 0 /\
  migration_state st' <> DrainingState /\
  (exists r, option_map main (run st' to_the_end) = Some (Done r)).
Proof.
  cbn zeta.
  split; [vm_compute; reflexivity|].
  split; [vm_compute; reflexivity|].
  split; [vm_compute; reflexivity|].
  split; [vm_compute; reflexivity|].
  split; [vm_compute; reflexivity|].
  split; [vm_compute; reflexivity|].
  split; [vm_compute; reflexivity|].
  split; [vm_compute; reflexivity|].
  split; [vm_compute; reflexivity|].
  split; [vm_compute; discriminate|].
  eexists. vm_compute. reflexivity.
Qed.

Lemma finish_migration_fields (st : state) (i : nat) (ps : Z) :
  (i < List.length (phases st))%nat ->
  let st' := finish_migration st i ps in
  main st' = main st /\
  switched st' = true /\ switching st' = false /\
  migration_state st' = Switched /\
  promptsLeft st' = promptsLeft st - 1 /\
  pausedMs st' = pausedMs st + (now st - ps) /\
  PriorityPool.limit (pool st') = CONC_AFTER /\
  phase_of st' i = Some Returned.
Proof.
  intros Hi. cbn zeta. unfold finish_migration.
  repeat split.
  - cbn. apply limit_setLimit.
  - unfold phase_of, set_phase, set_phases. cbn [phases set_pool_phases].
    apply nth_error_set_nth.
    change (phases (clear_switching ?s)) with (phases s).
    rewrite install_pool_phases_length. exact Hi.
Qed.

(** C2 (amended): when the poll inside [waitForDefaultNetChange] runs
    into its deadline without having seen a change, the batch is not
    aborted ([runBatch] keeps waiting on [pool.idle()]), and the migration
    is completed as on success: [pausedMs] takes the wait, [switched] is
    set, [promptsLeft] is decremented, the limit becomes [CONC_AFTER] and
    the state is [Switched]. *)
Theorem link_timeout_completes_migration (st : state) (i : nat)
    (prev ps deadline wake : Z) :
  phase_of st i = Some (Sleeping prev ps deadline wake) ->
  wake <= now st ->
  deadline <= now st ->
  exists st',
    step st (PollTimer i) = Some st' /\
    main st' = main st /\
    switched st' = true /\ switching st' = false /\
    migration_state st' = Switched /\
    promptsLeft st' = promptsLeft st - 1 /\
    pausedMs st' = pausedMs st + (now st - ps) /\
    PriorityPool.limit (pool st') = CONC_AFTER /\
    phase_of st' i = Some Returned.
Proof.
  intros Hph Hw Hd. exists (finish_migration st i ps). split.
  - cbn [step]. rewrite Hph.
    assert (H1 : (wake <=? now st) = true) by (apply Z.leb_le; exact Hw).
    assert (H2 : (now st <? deadline) = false) by (apply Z.ltb_ge; exact Hd).
    rewrite H1, H2. reflexivity.
  - apply finish_migration_fields. eapply phase_of_lt; eassumption.
Qed.

Lemma link_timeout_completes_migration_witness :
  exists st',
    step (after degrading_batch to_deadline) (PollTimer 51) = Some st' /\
    main st' = main (after degrading_batch to_deadline) /\
    switched st' = true /\ switching st' = false /\
    migration_state st' = Switched /\
    promptsLeft st' = promptsLeft (after degrading_batch to_deadline) - 1 /\
    pausedMs st'
    = pausedMs (after degrading_batch to_deadline)
      + (now (after degrading_batch to_deadline) - 53100) /\
    PriorityPool.limit (pool st') = CONC_AFTER /\
    phase_of st' 51 = Some Returned.
Proof.
  apply (link_timeout_completes_migration
           (after degrading_batch to_deadline) 51 7 53100 173100 173100).
  - vm_compute. reflexivity.
  - vm_compute. discriminate.
  - vm_compute. discriminate.
Defined.

(** ** Configuration (C8) *)

(** C8 as stated fails: with [count = 0], and with a negative count and
    a mode that is neither of the two, [runBatch] returns a result whose
    [perFile] is empty; with an unknown mode and one URL the batch runs
    to a result like any other.  No exception is raised. *)
Lemma invalid_configuration_returns_result :
  (exists r, main (runBatch "http://h/images/" 0 WIFI_ONLY 0) = Done r /\
             res_perFile r = [] /\ res_totalBytes r = 0) /\
  (exists r, main (runBatch "http://h/images/" (-4) "bogus" 0) = Done r /\
             res_perFile r = [] /\ res_totalBytes r = 0) /\
  (exists r, option_map main
               (run (runBatch "http://h/images/" 1 "bogus" 0)
                    (complete 0 1000 102400 ++ [IdleTimer])) = Some (Done r) /\
             res_totalBytes r = 102400) /\
  main (runBatch "http://h/images/" 0 WIFI_ONLY 0) <> Threw /\
  main (runBatch "http://h/images/" (-4) "bogus" 0) <> Threw.
Proof.
  repeat split; try (eexists; split; [vm_compute; reflexivity|]);
    try (split; reflexivity); try reflexivity; vm_compute; discriminate.
Qed.

Lemma enqueue_set_mode (m : string) (st : state) (i : nat) :
  enqueue (set_mode st m) i = set_mode (enqueue st i) m.
Proof. reflexivity. Qed.

Lemma enqueue_all_set_mode (m : string) (l : list nat) : forall st : state,
  fold_left enqueue l (set_mode st m) = set_mode (fold_left enqueue l st) m.
Proof.
  induction l as [|i l IH]; intros st; cbn [fold_left]; [reflexivity|].
  rewrite enqueue_set_mode. apply IH.
Qed.

Lemma idle_tick_set_mode (m : string) (st : state) :
  idle_tick (set_mode st m) = set_mode (idle_tick st) m.
Proof.
  unfold idle_tick. cbn [pool set_mode].
  destruct (PriorityPool.is_idle (pool st)); reflexivity.
Qed.

Lemma runBatch_set_mode (baseUrl m : string) (count clock : Z) :
  runBatch baseUrl count m clock
  = set_mode (runBatch baseUrl count WIFI_ONLY clock) m.
Proof.
  unfold runBatch. cbn zeta.
  rewrite <- idle_tick_set_mode, <- enqueue_all_set_mode. reflexivity.
Qed.

(** A mode other than [AUTO_SWITCH] is never told apart from another. *)
Lemma step_set_mode (m : string) (st : state) (e : event) :
  String.eqb m AUTO_SWITCH = false ->
  String.eqb (mode st) AUTO_SWITCH = false ->
  step (set_mode st m) e = option_map (fun s => set_mode s m) (step st e).
Proof.
  intros Hm Hst. destruct e as [ms|i|i r|i|i|i id|i|i|]; cbn [step];
    try change (phase_of (set_mode st m) i) with (phase_of st i).
  - reflexivity.
  - destruct (phase_of st i) as [[| [p0|] | | | | | | | |]|]; reflexivity.
  - destruct (phase_of st i) as [[| | t0 | | | | | | |]|]; try reflexivity.
    destruct r as [rr|].
    + unfold on_resolved, detect_guard.
      cbn [mode set_mode set_record]. rewrite Hm, Hst. reflexivity.
    + unfold on_rejected. cbn [detector set_mode set_record].
      destruct (WeakNetDetector.feed (detector st) (Fin 0) false). reflexivity.
  - destruct (phase_of st i) as [[| | | | | | | | |]|]; try reflexivity.
    unfold settle_task. cbn [pool set_mode].
    destruct (index_of i (PriorityPool.inflight (pool st))); [|reflexivity].
    destruct (PriorityPool.step (pool st) (PriorityPool.Settle n)); reflexivity.
  - destruct (phase_of st i) as [[| | | wake | | | | | |]|]; try reflexivity.
    cbn [now set_mode]. destruct (wake <=? now st); [|reflexivity].
    unfold drain_tick. cbn [pool set_mode].
    match goal with |- context [if ?c then _ else _] => destruct c end;
      reflexivity.
  - destruct (phase_of st i) as [[| | | | | | prev ps dl | | |]|]; try reflexivity.
    destruct (negb (id =? 0) && negb (id =? prev))%bool; reflexivity.
  - destruct (phase_of st i) as [[| | | | | prev ps | | | |]|]; try reflexivity.
    cbn [now set_mode].
    destruct (now st <? now st + NET_POLL_TIMEOUT); reflexivity.
  - destruct (phase_of st i) as [[| | | | | | | prev ps dl wake | |]|]; try reflexivity.
    cbn [now set_mode]. destruct (wake <=? now st); [|reflexivity].
    destruct (now st <? dl); reflexivity.
  - cbn [main set_mode]. destruct (main st) as [wake| |]; try reflexivity.
    cbn [now set_mode]. destruct (wake <=? now st); [|reflexivity].
    cbn [option_map]. f_equal. apply idle_tick_set_mode.
Qed.

Lemma step_keeps_mode (st st' : state) (e : event) :
  step st e = Some st' -> mode st' = mode st.
Proof.
  destruct e as [ms|i|i r|i|i|i id|i|i|]; cbn [step];
    try (destruct (phase_of st i) as [[| [p0|] | | | | | | | |]|];
         try discriminate).
  all: try (intros H; inversion H; reflexivity).
  - destruct r as [rr|]; intros H; inversion H; subst st'; clear H.
    + unfold on_resolved.
      destruct (detect_guard _); [|reflexivity].
      destruct (WeakNetDetector.feed _ _ _) as [det d].
      destruct (WeakNetDetector.isWeak d); [|reflexivity].
      unfold drain_tick.
      destruct (Qgeb _ _);
        match goal with |- context [if ?c then _ else _] => destruct c end;
        reflexivity.
    + unfold on_rejected.
      destruct (WeakNetDetector.feed _ _ _). reflexivity.
  - unfold settle_task.
    destruct (index_of _ _); [|discriminate].
    destruct (PriorityPool.step _ _); [|discriminate].
    intros H; inversion H; reflexivity.
  - destruct (_ <=? _); [|discriminate].
    intros H; inversion H. unfold drain_tick.
    match goal with |- context [if ?c then _ else _] => destruct c end;
      reflexivity.
  - destruct (_ && _)%bool; intros H; inversion H; reflexivity.
  - destruct (_ <? _); intros H; inversion H; reflexivity.
  - destruct (_ <=? _); [|discriminate].
    destruct (_ <? _); intros H; inversion H; reflexivity.
  - destruct (main st) as [wake| |]; try discriminate.
    destruct (_ <=? _); [|discriminate].
    intros H; inversion H. unfold idle_tick.
    destruct (PriorityPool.is_idle _); reflexivity.
Qed.

Lemma run_set_mode (m : string) (es : list event) : forall st : state,
  String.eqb m AUTO_SWITCH = false ->
  String.eqb (mode st) AUTO_SWITCH = false ->
  run (set_mode st m) es = option_map (fun s => set_mode s m) (run st es).
Proof.
  induction es as [|e es IH]; intros st Hm Hst; cbn [run]; [reflexivity|].
  rewrite (step_set_mode m st e Hm Hst).
  destruct (step st e) as [st'|] eqn:E; cbn [option_map]; [|reflexivity].
  apply IH; [exact Hm|]. rewrite (step_keeps_mode _ _ _ E). exact Hst.
Qed.

(** C8 (amended): [runBatch] checks neither argument.  With [count <= 0]
    it returns at once a result with an empty [perFile] and zero totals,
    whatever the mode; and under a mode that is not [AUTO_SWITCH] every
    run of the batch is the run of a [WIFI_ONLY] batch. *)
Theorem no_validation_at_entry (baseUrl m : string) (count clock : Z)
    (es : list event) :
  (count <= 0 ->
   exists r,
     main (runBatch baseUrl count m clock) = Done r /\
     res_perFile r = [] /\ res_totalBytes r = 0 /\ res_pausedMs r = 0 /\
     (wallTime r == 0)%Q /\ (totalTime r == 0)%Q) /\
  (String.eqb m AUTO_SWITCH = false ->
   run (runBatch baseUrl count m clock) es
   = option_map (fun s => set_mode s m)
                (run (runBatch baseUrl count WIFI_ONLY clock) es)).
Proof.
  split.
  - intros Hc. unfold runBatch, build_urls.
    assert (Hn : Z.to_nat count = 0%nat) by lia.
    rewrite Hn. cbn. rewrite Z.sub_diag.
    eexists. split; [reflexivity|]. cbn. repeat split; reflexivity.
  - intros Hm. rewrite runBatch_set_mode. apply run_set_mode; [exact Hm|].
    rewrite (runBatch_set_mode baseUrl WIFI_ONLY count clock). reflexivity.
Qed.

Lemma no_validation_at_entry_witness :
  (exists r,
     main (runBatch "http://h/images/" (-4) "bogus" 7) = Done r /\
     res_perFile r = [] /\ res_totalBytes r = 0 /\ res_pausedMs r = 0 /\
     (wallTime r == 0)%Q /\ (totalTime r == 0)%Q) /\
  run (runBatch "http://h/images/" 2 "bogus" 7)
      (complete 0 1000 102400 ++ complete 1 1000 102400 ++ [IdleTimer])
  = option_map (fun s => set_mode s "bogus")
      (run (runBatch "http://h/images/" 2 WIFI_ONLY 7)
           (complete 0 1000 102400 ++ complete 1 1000 102400 ++ [IdleTimer])).
Proof.
  split.
  - apply (proj1 (no_validation_at_entry "http://h/images/" "bogus" (-4) 7 [])).
    vm_compute. discriminate.
  - apply (proj2 (no_validation_at_entry "http://h/images/" "bogus" 2 7
                    (complete 0 1000 102400 ++ complete 1 1000 102400
                     ++ [IdleTimer]))).
    reflexivity.
Defined.

End RunnerFacts.

(* ===================================================================== *)
(** * More on the pool: dispatch, accounting, draining *)
(* ===================================================================== *)

Module PoolMore.
Import PriorityPool PoolTrace PoolFacts.

Section More.
Context {task : Type}.
Local Abbreviation pool := (PriorityPool.pool task).
Local Abbreviation op := (PriorityPool.op task).

(** The loop takes a prefix [ts] of [small] and then, only if [small] is
    used up, a prefix [tl] of [large]. *)
Lemma pump_loop_split (fuel : nat) : forall p : pool,
  exists ts tl,
    small p = ts ++ small (pump_loop fuel p) /\
    large p = tl ++ large (pump_loop fuel p) /\
    started (pump_loop fuel p) = started p ++ ts ++ tl /\
    inflight (pump_loop fuel p) = inflight p ++ ts ++ tl /\
    (tl = [] \/ small (pump_loop fuel p) = []).
Proof.
  induction fuel as [|f IH]; intros p; cbn [pump_loop].
  - exists [], []. cbn. rewrite ?app_nil_r. repeat split; auto.
  - destruct (running p <? limit p).
    2:{ exists [], []. cbn. rewrite ?app_nil_r. repeat split; auto. }
    unfold next. destruct (small p) as [|t s'] eqn:Es.
    + destruct (large p) as [|t l'] eqn:El.
      * exists [], []. cbn. rewrite ?Es, ?El, ?app_nil_r. repeat split; auto.
      * match goal with |- context [pump_loop f ?q] =>
          destruct (IH q) as (ts & tl & H1 & H2 & H3 & H4 & H5);
          set (r := pump_loop f q) in * end.
        cbn [small large started inflight start] in H1, H2, H3, H4.
        assert (ts = [] /\ small r = []) as [-> Hr]
          by (destruct ts; [split; [reflexivity|]; destruct (small r); [reflexivity|discriminate] | discriminate]).
        exists [], (t :: tl). cbn [app] in *. rewrite Hr.
        repeat split; auto.
        -- now rewrite H2.
        -- rewrite H3, <- app_assoc. reflexivity.
        -- rewrite H4, <- app_assoc. reflexivity.
    + match goal with |- context [pump_loop f ?q] =>
        destruct (IH q) as (ts & tl & H1 & H2 & H3 & H4 & H5);
        set (r := pump_loop f q) in * end.
      cbn [small large started inflight start] in H1, H2, H3, H4.
      exists (t :: ts), tl. cbn [app]. repeat split; auto.
      * now rewrite H1.
      * rewrite H3, <- app_assoc. reflexivity.
      * rewrite H4, <- app_assoc. reflexivity.
Qed.

Lemma pump_split (p : pool) :
  exists ts tl,
    small p = ts ++ small (pump p) /\
    large p = tl ++ large (pump p) /\
    started (pump p) = started p ++ ts ++ tl /\
    inflight (pump p) = inflight p ++ ts ++ tl.
Proof.
  unfold pump. destruct (pumping p).
  - exists [], []. cbn. rewrite ?app_nil_r. repeat split; auto.
  - destruct (pump_loop_split (queued p) (set_pumping true p))
      as (ts & tl & H1 & H2 & H3 & H4 & _).
    exists ts, tl. cbn in *. auto.
Qed.

Lemma step_uses_headroom (p p' : pool) (o : op) :
  consistent p -> step p o = Some p' -> headroom_used p'.
Proof.
  intros (Hp & _ & _) Hs. unfold headroom_used.
  destruct o as [t sm|n|k]; cbn [step] in Hs.
  - inversion Hs; subst p'; clear Hs. unfold push.
    match goal with |- context [pump ?q] =>
      assert (Hq : pumping q = false) by (destruct sm; exact Hp);
      destruct (pump_spec q Hq) as (E1 & _ & E3 & _) end.
    rewrite E1. exact E3.
  - inversion Hs; subst p'; clear Hs. unfold setLimit.
    match goal with |- context [pump ?q] =>
      destruct (pump_spec q Hp) as (E1 & _ & E3 & _) end.
    rewrite E1. exact E3.
  - destruct (remove_nth k (inflight p)) as [rest|]; [|discriminate].
    inversion Hs; subst p'; clear Hs. unfold on_settled.
    match goal with |- context [pump ?q] =>
      destruct (pump_spec q eq_refl) as (E1 & _ & E3 & _) end.
    rewrite E1. exact E3.
Qed.

Lemma run_uses_headroom (ops : list op) : forall p p' : pool,
  consistent p -> headroom_used p -> run p ops = Some p' ->
  consistent p' /\ headroom_used p'.
Proof.
  induction ops as [|o ops IH]; intros p p' Hc Hh Hrun; cbn [run] in Hrun.
  - inversion Hrun; subst; auto.
  - destruct (step p o) as [q|] eqn:Hs; [|discriminate].
    apply (IH q p'); [|eapply step_uses_headroom; eassumption | exact Hrun].
    apply (step_consistent p q o Hc Hs).
Qed.

Lemma new_uses_headroom (n : Z) : headroom_used (new n : pool).
Proof. intros _. split; reflexivity. Qed.

(** What one operation does to the queues and to the start record. *)
Lemma step_split (p p' : pool) (o : op) :
  step p o = Some p' ->
  exists ts tl,
    small p ++ pushed true [o] = ts ++ small p' /\
    large p ++ pushed false [o] = tl ++ large p' /\
    started p' = started p ++ ts ++ tl /\
    (List.length (started p') + List.length (inflight p)
     = List.length (started p) + List.length (inflight p') + settles [o])%nat.
Proof.
  intros Hs. destruct o as [t sm|n|k]; cbn [step] in Hs.
  - inversion Hs; subst p'; clear Hs. unfold push.
    match goal with |- context [pump ?q] =>
      destruct (pump_split q) as (ts & tl & H1 & H2 & H3 & H4);
      set (r := pump q) in * end.
    exists ts, tl. destruct sm; cbn [small large started inflight pushed Bool.eqb settles] in *;
      rewrite ?app_nil_r; repeat split; auto;
      rewrite H3, H4, !length_app; lia.
  - inversion Hs; subst p'; clear Hs. unfold setLimit.
    match goal with |- context [pump ?q] =>
      destruct (pump_split q) as (ts & tl & H1 & H2 & H3 & H4);
      set (r := pump q) in * end.
    exists ts, tl. cbn [small large started inflight pushed settles] in *.
    rewrite ?app_nil_r; repeat split; auto.
    rewrite H3, H4, !length_app; lia.
  - destruct (remove_nth k (inflight p)) as [rest|] eqn:E; [|discriminate].
    inversion Hs; subst p'; clear Hs. unfold on_settled.
    apply remove_nth_length in E.
    match goal with |- context [pump ?q] =>
      destruct (pump_split q) as (ts & tl & H1 & H2 & H3 & H4);
      set (r := pump q) in * end.
    exists ts, tl. cbn [small large started inflight pushed settles] in *.
    rewrite ?app_nil_r; repeat split; auto.
    rewrite H3, H4, E, !length_app; lia.
Qed.

Lemma pushed_cons (sm : bool) (o : op) (ops : list op) :
  pushed sm (o :: ops) = pushed sm [o] ++ pushed sm ops.
Proof.
  destruct o as [t b| |]; cbn; try reflexivity.
  destruct (Bool.eqb b sm); reflexivity.
Qed.

Lemma settles_cons (o : op) (ops : list op) :
  settles (o :: ops) = (settles [o] + settles ops)%nat.
Proof. destruct o; reflexivity. Qed.

Lemma run_split (ops : list op) : forall p p' : pool,
  run p ops = Some p' ->
  exists ps pl,
    small p ++ pushed true ops = ps ++ small p' /\
    large p ++ pushed false ops = pl ++ large p' /\
    Permutation (started p') (started p ++ ps ++ pl) /\
    (List.length (started p') + List.length (inflight p)
     = List.length (started p) + List.length (inflight p') + settles ops)%nat.
Proof.
  induction ops as [|o ops IH]; intros p p' Hrun; cbn [run] in Hrun.
  - inversion Hrun; subst p'. exists [], []. cbn. rewrite !app_nil_r.
    repeat split; auto. 
  - destruct (step p o) as [q|] eqn:Hs; [|discriminate].
    destruct (step_split p q o Hs) as (ts & tl & A1 & A2 & A3 & A4).
    destruct (IH q p' Hrun) as (ps & pl & B1 & B2 & B3 & B4).
    exists (ts ++ ps), (tl ++ pl).
    rewrite (pushed_cons true), (pushed_cons false), settles_cons.
    repeat split.
    + rewrite app_assoc, A1, <- !app_assoc, B1. reflexivity.
    + rewrite app_assoc, A2, <- !app_assoc, B2. reflexivity.
    + rewrite B3, A3, <- !app_assoc.
      apply Permutation_app_head. apply Permutation_app_head.
      rewrite !app_assoc. apply Permutation_app_tail.
      apply Permutation_app_comm.
    + lia.
Qed.

End More.

(** After every run of operations on a fresh pool, headroom is never left
    unused: below the limit, both queues are empty. *)
Theorem headroom_is_used {task : Type} (n : Z)
    (ops : list (PriorityPool.op task)) (p : PriorityPool.pool task) :
  run (new n) ops = Some p ->
  running p < limit p ->
  small p = [] /\ large p = [].
Proof.
  intros Hrun.
  apply (run_uses_headroom ops (new n) p (new_consistent n)
           (new_uses_headroom n) Hrun).
Qed.

Lemma headroom_is_used_witness :
  exists p : PriorityPool.pool nat,
    run (new 3) [Push 1%nat false; Push 2%nat true; Settle 0%nat] = Some p /\
    small p = [] /\ large p = [].
Proof.
  eexists. split; [reflexivity|].
  apply (headroom_is_used 3 [Push 1%nat false; Push 2%nat true; Settle 0%nat]).
  - reflexivity.
  - cbn. lia.
Defined.

(** [running] counts the tasks started and not yet settled. *)
Theorem running_counts_unsettled {task : Type} (n : Z)
    (ops : list (PriorityPool.op task)) (p : PriorityPool.pool task) :
  run (new n) ops = Some p ->
  running p = Z.of_nat (List.length (started p)) - Z.of_nat (settles ops) /\
  (settles ops <= List.length (started p))%nat.
Proof.
  intros Hrun.
  destruct (run_consistent ops (new n) p (Z.max 1 n) (new_consistent n))
    as ((_ & Hr & _) & _); cbn; try lia; try exact Hrun.
  destruct (run_split ops (new n) p Hrun) as (_ & _ & _ & _ & _ & H).
  cbn in H. lia.
Qed.

Lemma running_counts_unsettled_witness :
  exists p : PriorityPool.pool nat,
    run (new 1) [Push 1%nat false; Push 2%nat true; Settle 0%nat] = Some p /\
    running p = 2 - 1.
Proof.
  eexists. split; [reflexivity|].
  apply (running_counts_unsettled 1
           [Push 1%nat false; Push 2%nat true; Settle 0%nat]).
  reflexivity.
Defined.

(** No task is lost, duplicated or reordered inside its class: each queue
    is the tail of what was pushed with its tag, in push order, and the
    tasks started are the ones before those tails. *)
Theorem queues_are_tails_of_pushes {task : Type} (n : Z)
    (ops : list (PriorityPool.op task)) (p : PriorityPool.pool task) :
  run (new n) ops = Some p ->
  exists ps pl,
    pushed true ops = ps ++ small p /\
    pushed false ops = pl ++ large p /\
    Permutation (started p) (ps ++ pl).
Proof.
  intros Hrun.
  destruct (run_split ops (new n) p Hrun) as (ps & pl & H1 & H2 & H3 & _).
  exists ps, pl. cbn in *. auto.
Qed.

Lemma queues_are_tails_of_pushes_witness :
  exists (p : PriorityPool.pool nat) ps pl,
    run (new 1) [Push 1%nat false; Push 2%nat false; Push 3%nat true] = Some p /\
    pushed true [Push 1%nat false; Push 2%nat false; Push 3%nat true]
    = ps ++ small p /\
    pushed false [Push 1%nat false; Push 2%nat false; Push 3%nat true]
    = pl ++ large p /\
    Permutation (started p) (ps ++ pl).
Proof.
  eexists.
  destruct (queues_are_tails_of_pushes 1
              [Push 1%nat false; Push 2%nat false; Push 3%nat true] _ eq_refl)
    as (ps & pl & H).
  exists ps, pl. split; [reflexivity | exact H].
Defined.

Section Drain.
Context {task : Type}.
Local Abbreviation pool := (PriorityPool.pool task).

Lemma settle_all_reaches_idle (m : nat) : forall p : pool,
  consistent p -> headroom_used p ->
  m = (List.length (inflight p) + queued p)%nat ->
  exists p',
    run p (repeat (Settle 0%nat) m) = Some p' /\
    is_idle p' = true /\
    List.length (started p') = (List.length (started p) + queued p)%nat.
Proof.
  induction m as [|m IH]; intros p Hc Hh Hm.
  - exists p. split; [reflexivity|].
    destruct Hc as (_ & Hr & _). unfold queued in *. unfold is_idle.
    destruct (inflight p), (small p), (large p); cbn in Hm; try lia.
    rewrite Hr. cbn. split; [reflexivity | lia].
  - destruct (inflight p) as [|x rest] eqn:Ei.
    + exfalso. destruct Hc as (_ & Hr & Hl). rewrite Ei in Hr. cbn in Hr.
      destruct Hh as [Hs Hg]; [lia|]. unfold queued in Hm.
      rewrite Hs, Hg in Hm. cbn in Hm. lia.
    + cbn [repeat run].
      destruct (step p (Settle 0%nat)) as [q|] eqn:Hs.
      2:{ cbn in Hs. rewrite Ei in Hs. cbn in Hs. discriminate. }
      pose proof (step_consistent p q _ Hc Hs) as (Hcq & _).
      pose proof (step_uses_headroom p q _ Hc Hs) as Hhq.
      destruct (step_split p q _ Hs) as (ts & tl & A1 & A2 & A3 & A4).
      cbn [pushed settles] in A1, A2, A4. rewrite app_nil_r in A1, A2.
      assert (Hq : (queued p = List.length ts + List.length tl + queued q)%nat).
      { unfold queued. rewrite A1, A2, !length_app. lia. }
      assert (Hst : (List.length (started q)
                     = List.length (started p) + List.length ts + List.length tl)%nat)
        by (rewrite A3, !length_app; lia).
      destruct (IH q Hcq Hhq) as (p' & Hrun & Hidle & Hlen).
      { rewrite Ei in *. cbn [List.length] in *. lia. }
      exists p'. split; [exact Hrun|]. split; [exact Hidle|]. lia.
Qed.

End Drain.

(** From any state a fresh pool can reach, letting the tasks in flight
    settle one after the other empties the pool: every queued task gets
    started and the condition [idle()] waits for becomes true. *)
Theorem settling_leads_to_idle {task : Type} (n : Z)
    (ops : list (PriorityPool.op task)) (p : PriorityPool.pool task) :
  run (new n) ops = Some p ->
  exists p',
    run p (settle_all p) = Some p' /\
    is_idle p' = true /\
    List.length (started p') = (List.length (started p) + queued p)%nat.
Proof.
  intros Hrun.
  destruct (run_uses_headroom ops (new n) p (new_consistent n)
              (new_uses_headroom n) Hrun) as (Hc & Hh).
  apply settle_all_reaches_idle; auto.
Qed.

Lemma settling_leads_to_idle_witness :
  exists p p' : PriorityPool.pool nat,
    run (new 2) [Push 1%nat false; Push 2%nat false; Push 3%nat true;
                 SetLimit 1] = Some p /\
    run p (settle_all p) = Some p' /\
    is_idle p' = true /\
    List.length (started p') = (List.length (started p) + queued p)%nat.
Proof.
  eexists.
  destruct (settling_leads_to_idle 2
              [Push 1%nat false; Push 2%nat false; Push 3%nat true; SetLimit 1]
              _ eq_refl) as (p' & H).
  exists p'. split; [reflexivity | exact H].
Defined.

End PoolMore.

(* ===================================================================== *)
(** * More on the detector: baseline, ranges, steady links, reset *)
(* ===================================================================== *)

Module DetectorMore.
Import JsNum WeakNetDetector DetectorInv.
Local Open Scope Q_scope.

(** ** The sort behind [baseline] *)



Lemma insert_sorted_sorted (x : Q) (l : list Q) :
  Sorted Qle l -> Sorted Qle (insert_sorted x l).
Proof.
  induction l as [|y l IH]; intros Hs; cbn.
  - repeat constructor.
  - destruct (Qle_bool x y) eqn:E.
    + apply Qle_bool_iff in E. constructor; [exact Hs | constructor; exact E].
    + assert (Hyx : y <= x).
      { destruct (Qlt_le_dec y x) as [H|H]; [apply Qlt_le_weak; exact H|].
        apply Qle_bool_iff in H. congruence. }
      inversion Hs as [|? ? Hs' Hhd]; subst.
      constructor; [apply IH; exact Hs'|].
      destruct l as [|z l]; cbn.
      * constructor; exact Hyx.
      * destruct (Qle_bool x z); constructor; [exact Hyx|].
        inversion Hhd; assumption.
Qed.

Lemma sort_asc_sorted (l : list Q) : Sorted Qle (sort_asc l).
Proof.
  induction l as [|x l IH]; cbn; [constructor|].
  now apply insert_sorted_sorted.
Qed.

(** ** Sums and means *)





(** ** The baseline *)




(** ** The verdict and the accumulators *)






Lemma Qltb_true (a b : Q) : Qltb a b = true -> a < b.
Proof.
  unfold Qltb. intros H. apply negb_true_iff in H.
  destruct (Qlt_le_dec a b) as [L|L]; [exact L|].
  apply Qle_bool_iff in L. congruence.
Qed.



Lemma feed_all_cfg (samples : list sample) : forall d : detector,
  cfg (fst (feed_all d samples)) = cfg d.
Proof.
  induction samples as [|[v ok] rest IH]; intros d; cbn [feed_all];
    [reflexivity|].
  pose proof (DetectorFacts.feed_cfg d v ok) as E.
  destruct (feed d v ok) as [d1 r]. cbn [fst] in E.
  specialize (IH d1). destruct (feed_all d1 rest) as [d2 rs]. cbn [fst] in *.
  congruence.
Qed.






(** ** The moving average *)







(** ** A steady link *)










(** [reset()] forgets every sample: a detector that has been reset gives
    the verdicts of a fresh detector with the same parameters. *)
Theorem reset_gives_fresh_detector (params : WeakParams)
    (before after : list sample) :
  feed_all (reset (fst (feed_all (new params) before))) after
  = feed_all (new params) after.
Proof.
  unfold reset. rewrite feed_all_cfg. reflexivity.
Qed.

End DetectorMore.

(* ===================================================================== *)
(** * More on the transfer: resume, termination, accounting, failures *)
(* ===================================================================== *)

Module TransferMore.
Import HttpDownloader RangeDownloader TransferTerms TransferFacts.
Import Byte.

Lemma fileSize_on_disk (f : filesystem) (path : string) :
  fileSize f path = Z.of_nat (List.length (on_disk f path)).
Proof. unfold fileSize, stat_size, on_disk. destruct (f path); reflexivity. Qed.

Lemma on_disk_append (f : filesystem) (path : string) (arr : bytes) :
  on_disk (write_append f path arr) path = on_disk f path ++ arr.
Proof. unfold on_disk at 1. rewrite write_append_at. reflexivity. Qed.

(** One pass through the loop body against a Range-capable server, with
    the result spelled out. *)
Lemma range_loop_one_pass (fuel : nat) (srv : server) (url dst : string)
    (body : bytes) (start : nat) (el0 : Q) (ap0 : Z)
    (k : Q -> Z -> RangeResult) (w : world) :
  range_capable srv url body ->
  (start < List.length body)%nat ->
  exists el,
    range_loop (S fuel) srv url dst (Some (Z.of_nat (List.length body)))
               (Z.of_nat start) el0 ap0 k w
    = Resolved (k (el0 + el)%Q (ap0 + Z.of_nat (List.length body - start)))
        (with_files (sent w (ReqRange url (Z.of_nat start)))
                    (write_append (files w) dst (skipn start body))).
Proof.
  intros (_ & Hrange) Hlt. destruct (Hrange start Hlt) as (el & Hr).
  exists el. cbn [range_loop]. unfold loop_cond at 1.
  assert (H0 : (Z.of_nat start <? Z.of_nat (List.length body)) = true)
    by (apply Z.ltb_lt; lia).
  rewrite H0. unfold downloadRangeAppend. rewrite Hr.
  cbn [r_status r_body r_elapsed Z.eqb Pos.eqb].
  rewrite length_skipn.
  assert (Hsz : (Z.of_nat (List.length body - start) <=? 0) = false)
    by (apply Z.leb_gt; lia).
  rewrite Hsz.
  assert (Hend : loop_cond (Some (Z.of_nat (List.length body)))
                   (Z.of_nat start + Z.of_nat (List.length body - start)) = false)
    by (unfold loop_cond; apply Z.ltb_ge; lia).
  destruct fuel; cbn [range_loop]; rewrite Hend; reflexivity.
Qed.

(** Resume: the file holds the first [e] bytes of the object (none when
    it is missing).  The call fetches the rest with one Range GET at
    offset [e], or nothing when the file is complete, and leaves the whole
    object on disk; [size] is the number of bytes fetched. *)
Theorem resume_completes_the_object (fuel : nat) (srv : server)
    (url dst : string) (body : bytes) (e : nat) (w : world) :
  range_capable srv url body ->
  (e <= List.length body)%nat ->
  on_disk (files w) dst = firstn e body ->
  exists r w',
    downloadWithResume (S fuel) srv url dst w = Resolved r w' /\
    on_disk (files w') dst = body /\
    size r = Z.of_nat (List.length body - e) /\
    usedRange r = true /\
    retried r = (0 <? Z.of_nat e) /\
    wire w' = wire w ++ ReqHead url
                :: (if (e <? List.length body)%nat
                    then [ReqRange url (Z.of_nat e)] else []).
Proof.
  intros Hcap He Hdisk.
  pose proof Hcap as ((hi & Hh & Ha & Hcl) & _).
  unfold downloadWithResume. rewrite Hh, Ha, Hcl. cbn [negb].
  rewrite files_sent, fileSize_on_disk, Hdisk, length_firstn.
  replace (Nat.min e (List.length body)) with e by lia.
  assert (Hst : (Z.of_nat (List.length body) <? Z.of_nat e) = false)
    by (apply Z.ltb_ge; lia).
  rewrite Hst.
  destruct (e <? List.length body)%nat eqn:Hlt.
  - apply Nat.ltb_lt in Hlt.
    destruct (range_loop_one_pass fuel srv url dst body e 0%Q 0
                (fun el ap => mkResult el ap true (0 <? Z.of_nat e))
                (sent w (ReqHead url)) Hcap Hlt) as (el & Hr).
    rewrite Hr. eexists. eexists. split; [reflexivity|].
    cbn [files with_files sent wire size usedRange retried].
    rewrite on_disk_append, Hdisk, firstn_skipn, <- app_assoc.
    repeat split; reflexivity.
  - apply Nat.ltb_ge in Hlt. assert (e = List.length body) by lia. subst e.
    assert (Hend : loop_cond (Some (Z.of_nat (List.length body)))
                     (Z.of_nat (List.length body)) = false)
      by (unfold loop_cond; apply Z.ltb_irrefl).
    cbn [range_loop]. rewrite Hend.
    eexists. eexists. split; [reflexivity|].
    cbn [files sent wire size usedRange retried].
    rewrite Hdisk, firstn_all, Nat.sub_diag. repeat split; reflexivity.
Qed.

Lemma resume_completes_the_object_witness :
  exists r w',
    downloadWithResume 1 (static_server [x61; x62; x63; x64])
      example_url example_dst (only_file example_dst [x61]) = Resolved r w' /\
    on_disk (files w') example_dst = [x61; x62; x63; x64] /\
    size r = 3 /\ retried r = true.
Proof.
  destruct (resume_completes_the_object 0 (static_server [x61; x62; x63; x64])
              example_url example_dst [x61; x62; x63; x64] 1
              (only_file example_dst [x61])
              (static_server_range_capable _ _)) as (r & w' & H1 & H2 & H3 & _ & H5 & _).
  - cbn. lia.
  - reflexivity.
  - exists r, w'. auto.
Defined.



(** ** Termination *)

Lemma range_loop_settles (n : Z) (srv : server) (url dst : string)
    (k : Q -> Z -> RangeResult) (fuel : nat) :
  forall (offset : Z) (el : Q) (ap : Z) (w : world),
    (Z.to_nat (n - offset) <= fuel)%nat ->
    settled (range_loop fuel srv url dst (Some n) offset el ap k w).
Proof.
  induction fuel as [|f IH]; intros offset el ap w Hf.
  - cbn [range_loop loop_cond].
    destruct (offset <? n) eqn:E; [|exact I].
    apply Z.ltb_lt in E. lia.
  - cbn [range_loop loop_cond].
    destruct (offset <? n) eqn:E; [|exact I].
    apply Z.ltb_lt in E.
    destruct (downloadRangeAppend srv url dst offset w) as [w1 [rr|]]; [|exact I].
    destruct (r_status rr =? 200); [exact I|].
    destruct (Z.of_nat (List.length (r_body rr)) <=? 0) eqn:Es; [exact I|].
    apply Z.leb_gt in Es. apply IH. lia.
Qed.

(** When HEAD gives the length of the object, or no ranges at all, the
    call always settles, whatever the server answers afterwards: the loop
    is left after at most as many passes as the object has bytes. *)
Theorem known_length_always_settles (fuel : nat) (srv : server)
    (url dst : string) (w : world) :
  (forall hi, srv_head srv url = Some hi -> acceptRanges hi = true ->
     exists n, contentLength hi = Some n /\ (Z.to_nat n <= fuel)%nat) ->
  settled (downloadWithResume fuel srv url dst w).
Proof.
  intros H. unfold downloadWithResume.
  destruct (srv_head srv url) as [hi|] eqn:Hh.
  2:{ cbn [negb]. unfold downloadWhole.
      destruct (srv_get srv url); exact I. }
  destruct (acceptRanges hi) eqn:Ha.
  2:{ cbn [negb]. unfold downloadWhole.
      destruct (srv_get srv url); exact I. }
  cbn [negb]. destruct (H hi eq_refl Ha) as (n & Hn & Hf). rewrite Hn.
  apply range_loop_settles.
  pose proof (fileSize_nonneg (files (sent w (ReqHead url))) dst).
  destruct (n <? _); lia.
Qed.

Lemma known_length_always_settles_witness :
  settled (downloadWithResume 3 (range_ignoring_server [x61; x62; x63])
             example_url example_dst (only_file example_dst [x61])).
Proof.
  apply (known_length_always_settles 3 (range_ignoring_server [x61; x62; x63])).
  intros hi Hh _. inversion Hh; subst. eexists. split; [reflexivity|].
  cbn. lia.
Defined.

Lemma range_loop_keeps_running (srv : server) (url dst : string)
    (k : Q -> Z -> RangeResult) (fuel : nat) :
  always_partial srv url ->
  forall (offset : Z) (el : Q) (ap : Z) (w : world),
    exists w', range_loop fuel srv url dst None offset el ap k w = Running w'.
Proof.
  intros Hp. induction fuel as [|f IH]; intros offset el ap w.
  - eexists. reflexivity.
  - cbn [range_loop loop_cond]. unfold downloadRangeAppend.
    destruct (Hp offset) as (rr & Hr & Hs & Hb). rewrite Hr.
    assert (E1 : (r_status rr =? 200) = false) by (apply Z.eqb_neq; exact Hs).
    assert (E2 : (Z.of_nat (List.length (r_body rr)) <=? 0) = false).
    { apply Z.leb_gt. destruct (r_body rr); [congruence | cbn; lia]. }
    rewrite E1, E2. apply IH.
Qed.

(** When HEAD announces ranges but no length, only a 200 answer, an empty
    body or a transport error ends the loop: against a server that keeps
    answering otherwise, the call is still running after any number of
    passes. *)
Theorem unknown_length_may_never_settle (fuel : nat) (srv : server)
    (url dst : string) (hi : HeadInfo) (w : world) :
  srv_head srv url = Some hi ->
  acceptRanges hi = true ->
  contentLength hi = None ->
  always_partial srv url ->
  exists w', downloadWithResume fuel srv url dst w = Running w'.
Proof.
  intros Hh Ha Hn Hp. unfold downloadWithResume.
  rewrite Hh, Ha, Hn. cbn [negb]. apply range_loop_keeps_running. exact Hp.
Qed.

Lemma lengthless_always_partial (url : string) :
  always_partial lengthless_server url.
Proof.
  intros start. cbn. destruct (start <? 2) eqn:E.
  - eexists. split; [reflexivity|]. split; [discriminate|]. cbn.
    apply Z.ltb_lt in E.
    destruct (Z.to_nat start) as [|[|k]] eqn:Ek; cbn; try discriminate. lia.
  - eexists. split; [reflexivity|]. split; discriminate.
Qed.

Lemma unknown_length_may_never_settle_witness :
  exists w',
    downloadWithResume 1000 lengthless_server example_url example_dst
      empty_world = Running w'.
Proof.
  apply (unknown_length_may_never_settle 1000 lengthless_server
           example_url example_dst (mkHead true 200 true None) empty_world).
  - reflexivity.
  - reflexivity.
  - reflexivity.
  - apply lengthless_always_partial.
Defined.

(** ** Accounting *)

Lemma range_loop_accounts (srv : server) (url dst : string)
    (totalLen : option Z) (b1 b2 : bool) (fuel : nat) :
  forall (offset : Z) (el : Q) (ap : Z) (w : world) (r : RangeResult)
         (w' : world),
    range_loop fuel srv url dst totalLen offset el ap
               (fun e a => mkResult e a b1 b2) w = Resolved r w' ->
    ap <= size r /\
    fileSize (files w') dst = fileSize (files w) dst + (size r - ap).
Proof.
  induction fuel as [|f IH]; intros offset el ap w r w' H;
    cbn [range_loop] in H.
  - destruct (loop_cond totalLen offset); [discriminate|].
    inversion H; subst. cbn. lia.
  - destruct (loop_cond totalLen offset).
    2:{ inversion H; subst. cbn. lia. }
    unfold downloadRangeAppend in H.
    destruct (srv_range srv url offset) as [rr|]; [|discriminate].
    set (w1 := with_files (sent w (ReqRange url offset))
                 (write_append (files (sent w (ReqRange url offset))) dst
                    (r_body rr))) in *.
    assert (Hw1 : fileSize (files w1) dst
                  = fileSize (files w) dst + Z.of_nat (List.length (r_body rr))).
    { subst w1. cbn [files with_files sent]. apply fileSize_append. }
    destruct (r_status rr =? 200).
    { inversion H; subst. cbn [size]. lia. }
    destruct (Z.of_nat (List.length (r_body rr)) <=? 0).
    { inversion H; subst. cbn [size]. lia. }
    apply IH in H. lia.
Qed.

(** On the Range path, [size] is what the call added to the file: the
    file ends [size] bytes longer than it was when the first request went
    out (0 bytes when a longer file had to be removed first). *)
Theorem size_is_what_was_appended (fuel : nat) (srv : server)
    (url dst : string) (hi : HeadInfo) (w : world) (r : RangeResult)
    (w' : world) :
  srv_head srv url = Some hi ->
  acceptRanges hi = true ->
  downloadWithResume fuel srv url dst w = Resolved r w' ->
  0 <= size r /\
  fileSize (files w') dst
  = (if stale hi (fileSize (files w) dst) then 0 else fileSize (files w) dst)
    + size r.
Proof.
  intros Hh Ha H. unfold downloadWithResume in H.
  rewrite Hh, Ha in H. cbn [negb] in H. rewrite files_sent in H.
  apply range_loop_accounts in H. unfold stale.
  destruct (match contentLength hi with
            | Some n => n <? fileSize (files w) dst
            | None => false
            end).
  - cbn [files with_files] in H.
    rewrite (fileSize_none _ _ (fs_set_same _ _ _)) in H. lia.
  - rewrite files_sent in H. lia.
Qed.

Lemma size_is_what_was_appended_witness :
  exists r w',
    downloadWithResume 2 (range_ignoring_server [x61; x62; x63])
      example_url example_dst (only_file example_dst [x61]) = Resolved r w' /\
    0 <= size r /\
    fileSize (files w') example_dst = 1 + size r.
Proof.
  eexists. eexists. split; [reflexivity|].
  apply (size_is_what_was_appended 2 (range_ignoring_server [x61; x62; x63])
           example_url example_dst
           (mkHead true 200 true (Some 3)) (only_file example_dst [x61]));
    reflexivity.
Defined.

(** ** Without ranges, and when requests fail *)

(** Without [Accept-Ranges: bytes], or when HEAD fails, the object is
    fetched by one plain GET and written from offset 0 without truncating:
    the file then starts with the object, and what an older, longer file
    held beyond the object's length stays.  When the GET fails the call
    rejects and the file is untouched. *)
Theorem whole_file_fallback (fuel : nat) (srv : server) (url dst : string)
    (w : world) :
  match srv_head srv url with
  | Some hi => acceptRanges hi = false
  | None => True
  end ->
  match srv_get srv url with
  | Some resp =>
      exists r w',
        downloadWithResume fuel srv url dst w = Resolved r w' /\
        on_disk (files w') dst
        = r_body resp
          ++ skipn (List.length (r_body resp)) (on_disk (files w) dst) /\
        size r = Z.of_nat (List.length (r_body resp)) /\
        usedRange r = false /\
        retried r = (0 <? fileSize (files w) dst) /\
        wire w' = wire w ++ [ReqHead url; ReqGet url]
  | None =>
      exists w',
        downloadWithResume fuel srv url dst w = Rejected w' /\
        files w' = files w
  end.
Proof.
  intros Hh. unfold downloadWithResume.
  assert (Hs : match srv_head srv url with
               | Some hi => acceptRanges hi
               | None => false
               end = false)
    by (destruct (srv_head srv url); [exact Hh | reflexivity]).
  rewrite Hs. cbn [negb]. unfold downloadWhole.
  destruct (srv_get srv url) as [resp|].
  - eexists. eexists. split; [reflexivity|].
    cbn [files with_files sent wire size usedRange retried].
    unfold write_from_start, on_disk at 1. rewrite fs_set_same.
    rewrite <- app_assoc. repeat split; reflexivity.
  - eexists. split; reflexivity.
Qed.

Lemma whole_file_fallback_witness :
  exists r w',
    downloadWithResume 0 (plain_server [x61; x62]) example_url example_dst
      (only_file example_dst [x7a; x7a; x7a]) = Resolved r w' /\
    on_disk (files w') example_dst = [x61; x62; x7a] /\
    size r = 2 /\ usedRange r = false /\ retried r = true.
Proof.
  destruct (whole_file_fallback 0 (plain_server [x61; x62]) example_url
              example_dst (only_file example_dst [x7a; x7a; x7a]) eq_refl)
    as (r & w' & H1 & H2 & H3 & H4 & H5 & _).
  exists r, w'. repeat split; assumption.
Defined.



End TransferMore.

(* ===================================================================== *)
(** * What a transfer sends and touches *)
(* ===================================================================== *)

Module TransferTraceFacts.
Import HttpDownloader RangeDownloader TransferTerms TransferTrace.

Lemma fs_set_other (f : filesystem) (path p : string) (c : option bytes) :
  p <> path -> fs_set f path c p = f p.
Proof.
  intros H. unfold fs_set. apply String.eqb_neq in H. now rewrite H.
Qed.

Lemma range_loop_frame (srv : server) (url dst p : string)
    (totalLen : option Z) (k : Q -> Z -> RangeResult) (fuel : nat) :
  p <> dst ->
  forall (offset : Z) (el : Q) (ap : Z) (w : world),
    files (world_of (range_loop fuel srv url dst totalLen offset el ap k w)) p
    = files w p.
Proof.
  intros Hp. induction fuel as [|fuel IH]; intros offset el ap w;
    cbn [range_loop]; destruct (loop_cond totalLen offset); try reflexivity.
  unfold downloadRangeAppend. cbn zeta.
  destruct (srv_range srv url offset) as [rr|]; [|reflexivity].
  assert (E : files (with_files (sent w (ReqRange url offset))
                (write_append (files (sent w (ReqRange url offset))) dst
                              (r_body rr))) p = files w p).
  { cbn [with_files files sent]. unfold write_append.
    apply fs_set_other; exact Hp. }
  destruct (r_status rr =? 200); [exact E|].
  destruct (Z.of_nat (List.length (r_body rr)) <=? 0); [exact E|].
  rewrite IH. exact E.
Qed.

(** A transfer leaves every file but its destination as it was, however
    it ends and whatever the server answers. *)
Theorem only_the_destination_is_written (fuel : nat) (srv : server)
    (url dst p : string) (w : world) :
  p <> dst ->
  files (world_of (downloadWithResume fuel srv url dst w)) p = files w p.
Proof.
  intros Hp. unfold downloadWithResume. cbn zeta.
  destruct (negb _).
  - unfold downloadWhole. cbn zeta.
    destruct (srv_get srv url) as [r|]; [|reflexivity].
    cbn [world_of with_files files sent]. unfold write_from_start.
    apply fs_set_other; exact Hp.
  - rewrite range_loop_frame by exact Hp.
    match goal with |- context [if ?c then _ else _] => destruct c end;
      [|reflexivity].
    cbn [with_files files sent]. apply fs_set_other; exact Hp.
Qed.

Lemma only_the_destination_is_written_witness :
  files (world_of (downloadWithResume 5 (static_server [Byte.x61; Byte.x62])
                     example_url example_dst
                     (only_file "/files/other.jpg"%string [Byte.x63])))
        "/files/other.jpg"%string
  = files (only_file "/files/other.jpg"%string [Byte.x63])
          "/files/other.jpg"%string.
Proof.
  apply (only_the_destination_is_written 5 (static_server [Byte.x61; Byte.x62])
           example_url example_dst "/files/other.jpg"%string).
  discriminate.
Defined.

Lemma range_loop_wire (srv : server) (url dst : string)
    (totalLen : option Z) (k : Q -> Z -> RangeResult) (fuel : nat) :
  forall (offset : Z) (el : Q) (ap : Z) (w : world),
  exists os,
    wire (world_of (range_loop fuel srv url dst totalLen offset el ap k w))
    = wire w ++ range_requests url os /\
    StronglySorted Z.lt os /\ Forall (fun o => offset <= o) os /\
    (forall o, hd_error os = Some o -> o = offset).
Proof.
  induction fuel as [|fuel IH]; intros offset el ap w; cbn [range_loop].
  - exists []. cbn. rewrite app_nil_r.
    destruct (loop_cond totalLen offset); repeat split;
      try constructor; discriminate.
  - destruct (loop_cond totalLen offset).
    2:{ exists []. cbn. rewrite app_nil_r.
        repeat split; try constructor; discriminate. }
    unfold downloadRangeAppend. cbn zeta.
    assert (One : forall (o : outcome),
      wire (world_of o) = wire w ++ [ReqRange url offset] ->
      exists os, wire (world_of o) = wire w ++ range_requests url os /\
                 StronglySorted Z.lt os /\ Forall (fun o => offset <= o) os /\
                 (forall o, hd_error os = Some o -> o = offset)).
    { intros o Ho. exists [offset]. rewrite Ho. repeat split.
      - repeat constructor.
      - repeat constructor. lia.
      - cbn. congruence. }
    destruct (srv_range srv url offset) as [rr|];
      [|apply One; reflexivity].
    destruct (r_status rr =? 200); [apply One; reflexivity|].
    destruct (Z.of_nat (List.length (r_body rr)) <=? 0) eqn:Esz;
      [apply One; reflexivity|].
    apply Z.leb_gt in Esz.
    match goal with |- context [range_loop fuel srv url dst totalLen ?o ?e ?a k ?w1] =>
      destruct (IH o e a w1) as (os & Hw & Hs & Hf & _) end.
    exists (offset :: os). rewrite Hw. cbn [with_files wire sent].
    rewrite <- app_assoc. cbn [range_requests map app]. repeat split.
    + constructor; [exact Hs|].
      eapply Forall_impl; [|exact Hf]. cbn. intros; lia.
    + constructor; [lia|]. eapply Forall_impl; [|exact Hf]. cbn. intros; lia.
    + cbn. congruence.
Qed.

(** What a transfer puts on the wire: one HEAD, then either one plain GET
    or Range GETs at strictly ascending offsets, the first of them at the
    size of the file or at 0; every request is for the URL of the call. *)
Theorem requests_are_head_then_gets (fuel : nat) (srv : server)
    (url dst : string) (w : world) :
  wire (world_of (downloadWithResume fuel srv url dst w))
  = wire w ++ [ReqHead url; ReqGet url]
  \/
  exists os,
    wire (world_of (downloadWithResume fuel srv url dst w))
    = wire w ++ ReqHead url :: range_requests url os /\
    StronglySorted Z.lt os /\
    (forall o, hd_error os = Some o -> o = 0 \/ o = fileSize (files w) dst).
Proof.
  unfold downloadWithResume. cbn zeta.
  destruct (negb _).
  - left. unfold downloadWhole. cbn zeta.
    destruct (srv_get srv url); cbn; rewrite <- app_assoc; reflexivity.
  - right.
    match goal with |- context [range_loop fuel srv url dst ?t ?o ?e ?a ?k ?w1] =>
      destruct (range_loop_wire srv url dst t k fuel o e a w1)
        as (os & Hw & Hs & _ & Hh) end.
    exists os. rewrite Hw. split.
    { match goal with |- context [if ?c then _ else _] => destruct c end;
        cbn [with_files wire sent]; rewrite <- app_assoc; reflexivity. }
    split; [exact Hs|].
    intros o Ho. rewrite (Hh o Ho). cbn [files sent].
    match goal with |- context [if ?c then _ else _] => destruct c end; auto.
Qed.

End TransferTraceFacts.

(* ===================================================================== *)
(** * Further properties of the runner *)
(* ===================================================================== *)

Module RunnerMore.
Import JsNum JsString Runner RunnerInv RunnerFacts.

Lemma nth_error_set_nth_inv {A : Type} (i : nat) (x : A) :
  forall (l : list A) (j : nat) (y : A),
    nth_error (set_nth i x l) j = Some y ->
    (j = i /\ y = x) \/ (j <> i /\ nth_error l j = Some y).
Proof.
  induction i as [|i IH]; intros [|a l] [|j] y H; cbn in H;
    try discriminate.
  - inversion H. auto.
  - right. split; [discriminate | exact H].
  - right. split; [discriminate | exact H].
  - destruct (IH l j y H) as [[-> ->]|[Hne H']]; auto.
Qed.

Lemma enter_all_inv (f : nat -> phase) (fresh : list nat) :
  forall (l : list phase) (j : nat) (ph : phase),
    nth_error (fold_left (fun ph i => set_nth i (f i) ph) fresh l) j = Some ph ->
    ph = f j \/ nth_error l j = Some ph.
Proof.
  induction fresh as [|i fresh IH]; intros l j ph H; cbn [fold_left] in H; auto.
  apply IH in H. destruct H as [H|H]; auto.
  apply nth_error_set_nth_inv in H. destruct H as [[-> ->]|[_ H]]; auto.
Qed.

Lemma install_pool_phase_inv (st : state) (p : PriorityPool.pool nat)
    (j : nat) (ph : phase) :
  nth_error (phases (install_pool st p)) j = Some ph ->
  (exists s, ph = Probing s) \/ nth_error (phases st) j = Some ph.
Proof.
  unfold install_pool. cbn [phases set_pool_phases]. intros H.
  apply enter_all_inv in H. destruct H as [H|H]; auto.
  left. subst ph. unfold enter_task. destruct (NetProbe.due _ _ _); eauto.
Qed.

Lemma limit_pump (p : PriorityPool.pool nat) :
  PriorityPool.limit (PriorityPool.pump p) = PriorityPool.limit p.
Proof.
  unfold PriorityPool.pump. destruct (PriorityPool.pumping p); [reflexivity|].
  cbn [PriorityPool.set_pumping PriorityPool.limit].
  destruct (PoolFacts.pump_loop_spec (PriorityPool.queued p)
              (PriorityPool.set_pumping true p)) as (E & _).
  exact E.
Qed.

Lemma limit_pool_step (p p' : PriorityPool.pool nat) (o : PriorityPool.op nat) :
  PriorityPool.step p o = Some p' ->
  PriorityPool.limit p'
  = match o with
    | PriorityPool.SetLimit n => Z.max 1 n
    | _ => PriorityPool.limit p
    end.
Proof.
  destruct o as [t sm|n|k]; cbn [PriorityPool.step]; intros H.
  - inversion H. unfold PriorityPool.push. rewrite limit_pump.
    destruct sm; reflexivity.
  - inversion H. apply limit_setLimit.
  - destruct (PriorityPool.remove_nth k (PriorityPool.inflight p)); [|discriminate].
    inversion H. unfold PriorityPool.on_settled. rewrite limit_pump. reflexivity.
Qed.

Lemma stamp_ok_quiet (t : Z) (ph : phase) :
  migrating ph = false -> stamp_ok t ph.
Proof. destruct ph; cbn; intros; try exact I; discriminate. Qed.

Lemma stamp_ok_later (t t' : Z) (ph : phase) :
  t <= t' -> stamp_ok t ph -> stamp_ok t' ph.
Proof. destruct ph; cbn; intros; try exact I; lia. Qed.

(** A transition that leaves the control variables alone. *)
Lemma sane_frame (st st' : state) :
  sane st ->
  same_control st st' ->
  PriorityPool.limit (pool st') = PriorityPool.limit (pool st) ->
  (forall j ph, nth_error (phases st') j = Some ph ->
     nth_error (phases st) j = Some ph \/ migrating ph = false \/
     (exists old, nth_error (phases st) j = Some old /\
                  migrating old = true /\ stamp_ok (now st) ph)) ->
  List.length (phases st') = List.length (phases st) ->
  (forall j pf, nth_error (perFile st') j = Some (Some pf) ->
     nth_error (perFile st) j = Some (Some pf) \/
     pf_path pf = current_link st) ->
  List.length (perFile st') = List.length (perFile st) ->
  sane st'.
Proof.
  intros (Hph & Hfl & Hlim & Hpa & Hws & Hwifi & Hcell & Hlp & Hlph & Hres)
         (E1 & E2 & E3 & E4 & E5 & E6 & E7 & E8 & E9 & E10)
         Elim Hphases Elph Hfiles Elp.
  unfold sane, flags_ok, migration_state in *.
  rewrite E1, E2, E3, E4, E5, E6, E7, E8, E9, E10, Elim, Elph, Elp.
  split; [|split; [exact Hfl|split; [exact Hlim|split; [exact Hpa|
    split; [exact Hws|split; [exact Hwifi|split; [|split; [exact Hlp|
    split; [exact Hlph|exact Hres]]]]]]]]].
  - intros j ph H.
    destruct (Hphases j ph H) as [Ho|[Hq|(old & Ho & Hmo & Hst)]].
    + apply (Hph j ph Ho).
    + split; [congruence | apply stamp_ok_quiet; exact Hq].
    + split; [intros _; apply (Hph j old Ho); exact Hmo | exact Hst].
  - intros j pf Hn Hc. destruct (Hfiles j pf Hn) as [Ho|Hcur].
    + apply (Hcell j pf Ho Hc).
    + unfold current_link in Hcur. destruct (switched st); congruence.
Qed.

Lemma same_control_refl (st : state) : same_control st st.
Proof. unfold same_control. repeat split. Qed.

Lemma sane_elapse (st : state) (ms : nat) :
  sane st -> sane (set_now st (now st + Z.of_nat ms)).
Proof.
  intros (Hph & Hfl & Hlim & Hpa & Hws & Hwifi & Hcell & Hlp & Hlph & Hres).
  unfold sane, flags_ok, migration_state in *.
  cbn [set_now mode urls perFile pool wallStart pausedMs promptsLeft switched
       switching weakDetectIndex now phases main].
  split; [|split; [exact Hfl|split; [exact Hlim|split; [exact Hpa|
    split; [lia|split; [exact Hwifi|split; [exact Hcell|split; [exact Hlp|
    split; [exact Hlph|exact Hres]]]]]]]]].
  intros j ph H. destruct (Hph j ph H) as [H1 H2]. split; [exact H1|].
  apply stamp_ok_later with (t := now st); [lia | exact H2].
Qed.

Lemma guard_facts (st : state) :
  detect_guard st = true ->
  String.eqb (mode st) AUTO_SWITCH = true /\ switched st = false /\
  switching st = false /\ 0 < promptsLeft st.
Proof.
  unfold detect_guard. intros H.
  apply andb_true_iff in H. destruct H as [H H4].
  apply andb_true_iff in H. destruct H as [H H3].
  apply andb_true_iff in H. destruct H as [H1 H2].
  apply negb_true_iff in H2, H3. apply Z.ltb_lt in H4. auto.
Qed.

(** Entering the migration: [switching = true], the limit goes to
    [CONC_WEAK] and the task starts to drain. *)
Lemma sane_begin (st : state) (i : nat) (ph : phase) :
  sane st ->
  detect_guard st = true ->
  (ph = AwaitPrevId \/ exists w, ph = Draining w) ->
  sane (set_phase
          (install_pool (set_trigger st (Z.of_nat i))
             (PriorityPool.setLimit CONC_WEAK
                (pool (set_trigger st (Z.of_nat i))))) i ph).
Proof.
  intros (Hph & Hfl & Hlim & Hpa & Hws & Hwifi & Hcell & Hlp & Hlph & Hres)
         Hg Hshape.
  destruct (guard_facts st Hg) as (Gm & Gsd & Gsg & Gp).
  unfold sane, flags_ok, migration_state in *.
  cbn [set_phase set_phases set_pool_phases install_pool set_trigger mode urls
       perFile pool wallStart pausedMs promptsLeft switched switching
       weakDetectIndex now phases main].
  rewrite Gsd in *. rewrite Gsg in *.
  split; [|split; [exact Hfl|split; [apply limit_setLimit|split; [exact Hpa|
    split; [exact Hws|split; [congruence|split; [exact Hcell|split; [exact Hlp|
    split; [|exact Hres]]]]]]]]].
  - intros j y H. apply nth_error_set_nth_inv in H.
    destruct H as [[-> ->]|[_ H]].
    + split; [intros _; split; reflexivity|].
      destruct Hshape as [->|(w & ->)]; exact I.
    + apply enter_all_inv in H. destruct H as [->|H].
      * unfold enter_task. destruct (NetProbe.due _ _ _);
          (split; [discriminate | exact I]).
      * destruct (Hph j y H) as [H1 H2]. split; [|exact H2].
        intros Hm. destruct (H1 Hm) as [C _]. discriminate.
  - rewrite set_nth_length, enter_all_length. exact Hlph.
Qed.

(** Leaving the migration, by a change of network or by the deadline. *)
Lemma sane_finish (st : state) (i : nat) (old : phase) (ps : Z) :
  sane st ->
  nth_error (phases st) i = Some old ->
  migrating old = true ->
  ps <= now st ->
  sane (finish_migration st i ps).
Proof.
  intros (Hph & Hfl & Hlim & Hpa & Hws & Hwifi & Hcell & Hlp & Hlph & Hres)
         Hold Hm Hps.
  destruct (Hph i old Hold) as [Hi _]. destruct (Hi Hm) as [Hsw Hidx].
  unfold sane, flags_ok, migration_state, finish_migration in *.
  cbn [set_phase set_phases set_pool_phases install_pool set_switched
       clear_switching mode urls perFile pool wallStart pausedMs promptsLeft
       switched switching weakDetectIndex now phases main].
  rewrite Hsw in *.
  destruct (switched st) eqn:Esd; [contradiction|].
  split; [|split; [lia|split; [apply limit_setLimit|split; [lia|
    split; [exact Hws|split; [|split; [reflexivity|split; [exact Hlp|
    split; [|exact Hres]]]]]]]]].
  - intros j y H. apply nth_error_set_nth_inv in H.
    destruct H as [[-> ->]|[Hne H]].
    + split; [discriminate | exact I].
    + apply enter_all_inv in H. destruct H as [->|H].
      * unfold enter_task. destruct (NetProbe.due _ _ _);
          (split; [discriminate | exact I]).
      * destruct (Hph j y H) as [H1 H2]. split; [|exact H2].
        intros Hmy. destruct (H1 Hmy) as [_ C]. exfalso. apply Hne. lia.
  - intros Hmode. destruct (Hwifi Hmode) as [C _]. discriminate.
  - rewrite set_nth_length, enter_all_length. exact Hlph.
Qed.

Lemma wall_time_nonneg (z : Z) : 0 <= z -> (0 <= inject_Z z / 1000)%Q.
Proof.
  intros H. apply Qle_shift_div_l; [reflexivity|].
  rewrite Qmult_0_l. change 0%Q with (inject_Z 0). now rewrite <- Zle_Qle.
Qed.

Lemma sane_idle_tick (st : state) : sane st -> sane (idle_tick st).
Proof.
  intros (Hph & Hfl & Hlim & Hpa & Hws & Hwifi & Hcell & Hlp & Hlph & Hres).
  unfold idle_tick. destruct (PriorityPool.is_idle (pool st)).
  - unfold finalize, sane, flags_ok, migration_state in *.
    cbn [set_main mode urls perFile pool wallStart pausedMs promptsLeft
         switched switching weakDetectIndex now phases main].
    split; [exact Hph|split; [exact Hfl|split; [exact Hlim|split; [exact Hpa|
      split; [exact Hws|split; [exact Hwifi|split; [exact Hcell|split; [exact Hlp|
      split; [exact Hlph|]]]]]]]]].
    intros r Hr. inversion Hr; subst r. unfold result_ok.
    cbn [res_perFile res_pausedMs totalTime wallTime].
    split; [exact Hlp|]. split; [exact Hpa|].
    split; [apply Q.le_max_l|].
    assert (W : (0 <= inject_Z (now st - wallStart st) / 1000)%Q)
      by (apply wall_time_nonneg; lia).
    assert (P : (0 <= inject_Z (pausedMs st) / 1000)%Q)
      by (apply wall_time_nonneg; exact Hpa).
    apply Q.max_lub; [exact W|].
    set (a := (inject_Z (now st - wallStart st) / 1000)%Q) in *.
    set (b := (inject_Z (pausedMs st) / 1000)%Q) in *.
    clearbody a b. lra.
  - unfold sane, flags_ok, migration_state in *.
    cbn [set_main mode urls perFile pool wallStart pausedMs promptsLeft
         switched switching weakDetectIndex now phases main].
    split; [exact Hph|split; [exact Hfl|split; [exact Hlim|split; [exact Hpa|
      split; [exact Hws|split; [exact Hwifi|split; [exact Hcell|split; [exact Hlp|
      split; [exact Hlph|]]]]]]]]].
    intros r Hr. discriminate.
Qed.

Lemma sane_set_phase (st : state) (i : nat) (ph : phase) :
  sane st ->
  (migrating ph = false \/
   exists old, nth_error (phases st) i = Some old /\
               migrating old = true /\ stamp_ok (now st) ph) ->
  sane (set_phase st i ph).
Proof.
  intros H Hph. apply sane_frame with (st := st); auto.
  - unfold same_control; repeat split.
  - cbn [set_phase set_phases set_pool_phases phases]. intros j y Hn.
    apply nth_error_set_nth_inv in Hn. destruct Hn as [[-> ->]|[_ Hn]]; auto.
  - cbn [set_phase set_phases set_pool_phases phases]. apply set_nth_length.
Qed.

Lemma sane_set_prober (st : state) (pr : NetProbe.probe) :
  sane st -> sane (set_prober st pr).
Proof.
  intros H. apply sane_frame with (st := st); auto. unfold same_control; repeat split.
Qed.

Lemma sane_set_detector (st : state) (d : WeakNetDetector.detector) :
  sane st -> sane (set_detector st d).
Proof.
  intros H. apply sane_frame with (st := st); auto. unfold same_control; repeat split.
Qed.

Lemma sane_set_record (st : state) (tb : Z) (i : nat) (pf : PerFile)
    (sp : list Q) :
  sane st ->
  pf_path pf = current_link st ->
  sane (set_record st tb (set_nth i (Some pf) (perFile st)) sp).
Proof.
  intros H Hp. apply sane_frame with (st := st); auto.
  - unfold same_control; repeat split.
  - cbn [set_record perFile]. intros j y Hn.
    apply nth_error_set_nth_inv in Hn. destruct Hn as [[-> E]|[_ Hn]]; auto.
    inversion E; subst. auto.
  - cbn [set_record perFile]. apply set_nth_length.
Qed.

Lemma sane_install_pool (st : state) (p : PriorityPool.pool nat) :
  sane st ->
  PriorityPool.limit p = PriorityPool.limit (pool st) ->
  sane (install_pool st p).
Proof.
  intros H Hl. apply sane_frame with (st := st); auto.
  - unfold same_control; repeat split.
  - intros j y Hn. apply install_pool_phase_inv in Hn.
    destruct Hn as [(s0 & ->)|Hn]; auto.
  - apply install_pool_phases_length.
Qed.

Lemma sane_on_resolved (st : state) (i : nat) (t0 : Z)
    (rr : RangeDownloader.RangeResult) :
  sane st -> sane (on_resolved st i t0 rr).
Proof.
  intros H. unfold on_resolved.
  match goal with |- context [set_record st ?tb (set_nth i (Some ?pf) _) ?sp] =>
    pose proof (sane_set_record st tb i pf sp H eq_refl) as H1;
    set (st1 := set_record st tb (set_nth i (Some pf) (perFile st)) sp) in *
  end.
  destruct (detect_guard st1) eqn:G.
  2:{ apply sane_set_phase; auto. }
  destruct (WeakNetDetector.feed (detector st1) _ true) as [det d].
  pose proof (sane_set_detector st1 det H1) as H2.
  destruct (WeakNetDetector.isWeak d).
  2:{ apply sane_set_phase; auto. }
  match goal with |- context [set_trigger ?x _] =>
    assert (H3 : sane x) by
      (destruct (Qgeb (WeakNetDetector.confidence d) (1 # 2));
       [apply sane_set_prober; exact H2 | exact H2]);
    assert (G3 : detect_guard x = true) by
      (destruct (Qgeb (WeakNetDetector.confidence d) (1 # 2)); exact G);
    set (st3 := x) in *
  end.
  unfold drain_tick.
  match goal with |- context [if ?c then _ else _] => destruct c end.
  - apply sane_begin; auto.
  - apply sane_begin; eauto.
Qed.

Lemma sane_on_rejected (st : state) (i : nat) :
  sane st -> sane (on_rejected st i).
Proof.
  intros H. unfold on_rejected.
  match goal with |- context [set_record st ?tb (set_nth i (Some ?pf) _) ?sp] =>
    pose proof (sane_set_record st tb i pf sp H eq_refl) as H1;
    set (st1 := set_record st tb (set_nth i (Some pf) (perFile st)) sp) in *
  end.
  destruct (WeakNetDetector.feed (detector st1) _ false) as [det d].
  apply sane_set_phase; [apply sane_set_detector; exact H1 | auto].
Qed.

(** Every event keeps the orchestrator sane. *)
Lemma step_sane (st st' : state) (e : event) :
  sane st -> step st e = Some st' -> sane st'.
Proof.
  intros H Hs.
  pose proof H as (Hph & _).
  destruct e as [ms|i|i r|i|i|i id|i|i|]; cbn [step] in Hs;
    try (unfold phase_of in Hs;
         destruct (nth_error (phases st) i) as [ph|] eqn:Hn; [|discriminate];
         destruct ph; try discriminate).
  - inversion Hs; subst. apply sane_elapse; exact H.
  - destruct since; inversion Hs; subst.
    + apply sane_set_phase; [apply sane_set_prober; exact H | auto].
    + apply sane_set_phase; auto.
  - destruct r as [rr|]; inversion Hs; subst.
    + apply sane_on_resolved; exact H.
    + apply sane_on_rejected; exact H.
  - unfold settle_task in Hs.
    destruct (index_of i _) as [k|]; [|discriminate].
    destruct (PriorityPool.step (pool st) (PriorityPool.Settle k)) as [p|] eqn:Ep;
      [|discriminate].
    inversion Hs; subst.
    apply sane_set_phase; [|auto]. apply sane_install_pool; [exact H|].
    apply (limit_pool_step _ _ _ Ep).
  - destruct (wake <=? now st); [|discriminate]. inversion Hs; subst.
    unfold drain_tick.
    match goal with |- context [if ?c then _ else _] => destruct c end;
      (apply sane_set_phase; [exact H|]; right;
       eexists; split; [exact Hn|]; split; [reflexivity | exact I]).
  - inversion Hs; subst. apply sane_set_phase; [exact H|]. right.
    eexists. split; [exact Hn|]. split; [reflexivity|]. cbn. lia.
  - destruct (Hph i _ Hn) as [_ Hst]. cbn in Hst.
    destruct (negb (id =? 0) && negb (id =? prev))%bool; inversion Hs; subst.
    + eapply sane_finish; eauto.
    + apply sane_set_phase; [exact H|]. right.
      eexists. split; [exact Hn|]. split; [reflexivity|]. exact Hst.
  - destruct (Hph i _ Hn) as [_ Hst]. cbn in Hst.
    destruct (now st <? now st + NET_POLL_TIMEOUT); inversion Hs; subst.
    + apply sane_set_phase; [exact H|]. right.
      eexists. split; [exact Hn|]. split; [reflexivity|]. exact Hst.
    + eapply sane_finish; eauto.
  - destruct (Hph i _ Hn) as [_ Hst]. cbn in Hst.
    destruct (wake <=? now st); [|discriminate].
    destruct (now st <? deadline); inversion Hs; subst.
    + apply sane_set_phase; [exact H|]. right.
      eexists. split; [exact Hn|]. split; [reflexivity|]. exact Hst.
    + eapply sane_finish; eauto.
  - destruct (main st) as [wake| |]; try discriminate.
    destruct (wake <=? now st); [|discriminate]. inversion Hs; subst.
    apply sane_idle_tick; exact H.
Qed.

Lemma run_sane (es : list event) : forall st st' : state,
  sane st -> run st es = Some st' -> sane st'.
Proof.
  induction es as [|e es IH]; intros st st' H Hr; cbn [run] in Hr.
  - inversion Hr; subst; exact H.
  - destruct (step st e) as [st1|] eqn:E; [|discriminate].
    apply (IH st1 st'); [eapply step_sane; eassumption | exact Hr].
Qed.

Lemma limit_push (t : nat) (sm : bool) (p : PriorityPool.pool nat) :
  PriorityPool.limit (PriorityPool.push t sm p) = PriorityPool.limit p.
Proof.
  unfold PriorityPool.push. rewrite limit_pump. destruct sm; reflexivity.
Qed.

Lemma enqueue_all_sane (l : list nat) : forall st : state,
  sane st -> sane (fold_left enqueue l st).
Proof.
  induction l as [|i l IH]; intros st H; cbn [fold_left]; [exact H|].
  apply IH. unfold enqueue. apply sane_install_pool; [exact H|].
  apply limit_push.
Qed.

Lemma runBatch_sane (baseUrl m : string) (count clock : Z) :
  sane (runBatch baseUrl count m clock).
Proof.
  unfold runBatch. cbn zeta. apply sane_idle_tick. apply enqueue_all_sane.
  unfold sane, flags_ok, migration_state.
  cbn [mode urls perFile pool wallStart pausedMs promptsLeft switched
       switching weakDetectIndex now phases main].
  rewrite !repeat_length.
  split; [|repeat split; try reflexivity; try lia; try discriminate].
  - intros j ph Hn. apply nth_error_In in Hn. apply repeat_spec in Hn. subst ph.
    split; [discriminate | exact I].
  - intros j pf Hn. apply nth_error_In in Hn. apply repeat_spec in Hn.
    discriminate.
Qed.

Lemma finish_moves (st : state) (i : nat) (old : phase) (ps : Z) :
  sane st ->
  nth_error (phases st) i = Some old -> migrating old = true ->
  ps <= now st ->
  control_move st (finish_migration st i ps).
Proof.
  intros (Hph & Hfl & _) Hn Hm Hps.
  destruct (Hph i old Hn) as [Hi _]. destruct (Hi Hm) as [Hsw _].
  unfold flags_ok in Hfl. rewrite Hsw in Hfl.
  destruct (switched st) eqn:Esd; [contradiction|].
  right. right. unfold finish_migration.
  cbn [set_phase set_phases set_pool_phases install_pool set_switched
       clear_switching pausedMs promptsLeft switched switching].
  repeat split; auto. lia.
Qed.

(** The URLs never change, the clock never runs backwards, and the
    migration variables move in one of the three ways. *)
Lemma step_control (st st' : state) (e : event) :
  sane st -> step st e = Some st' ->
  urls st' = urls st /\ now st <= now st' /\ control_move st st'.
Proof.
  intros H Hs. pose proof H as (Hph & _).
  destruct e as [ms|i|i r|i|i|i id|i|i|]; cbn [step] in Hs;
    try (unfold phase_of in Hs;
         destruct (nth_error (phases st) i) as [ph|] eqn:Hn; [|discriminate];
         destruct ph; try discriminate).
  - inversion Hs; subst. cbn. repeat split; try lia. left. auto.
  - destruct since; inversion Hs; subst;
      (split; [reflexivity|]; split; [cbn; lia|]; left; repeat split).
  - destruct r as [rr|]; inversion Hs; subst.
    + unfold on_resolved.
      match goal with |- context [detect_guard ?x] =>
        destruct (detect_guard x) eqn:G end.
      2:{ split; [reflexivity|]. split; [cbn; lia|]. left. repeat split. }
      destruct (WeakNetDetector.feed _ _ true) as [det d].
      destruct (WeakNetDetector.isWeak d).
      2:{ split; [reflexivity|]. split; [cbn; lia|]. left. repeat split. }
      apply guard_facts in G. destruct G as (_ & Gsd & Gsg & _).
      cbn [switched switching set_record] in Gsd, Gsg.
      unfold drain_tick.
      destruct (Qgeb (WeakNetDetector.confidence d) (1 # 2));
        match goal with |- context [if ?c then _ else _] => destruct c end;
        (split; [reflexivity|]; split; [cbn; lia|]; right; left;
         repeat split; assumption).
    + unfold on_rejected. destruct (WeakNetDetector.feed _ _ false).
      split; [reflexivity|]. split; [cbn; lia|]. left. repeat split.
  - unfold settle_task in Hs.
    destruct (index_of i _) as [k|]; [|discriminate].
    destruct (PriorityPool.step (pool st) (PriorityPool.Settle k)) as [p|];
      [|discriminate].
    inversion Hs; subst.
    split; [reflexivity|]. split; [cbn; lia|]. left. repeat split.
  - destruct (wake <=? now st); [|discriminate]. inversion Hs; subst.
    unfold drain_tick.
    match goal with |- context [if ?c then _ else _] => destruct c end;
      (split; [reflexivity|]; split; [cbn; lia|]; left; repeat split).
  - inversion Hs; subst.
    split; [reflexivity|]. split; [cbn; lia|]. left. repeat split.
  - destruct (Hph i _ Hn) as [_ Hst]. cbn in Hst.
    destruct (negb (id =? 0) && negb (id =? prev))%bool; inversion Hs; subst.
    + split; [reflexivity|]. split; [cbn; lia|].
      eapply finish_moves; eauto.
    + split; [reflexivity|]. split; [cbn; lia|]. left. repeat split.
  - destruct (Hph i _ Hn) as [_ Hst]. cbn in Hst.
    destruct (now st <? now st + NET_POLL_TIMEOUT); inversion Hs; subst.
    + split; [reflexivity|]. split; [cbn; lia|]. left. repeat split.
    + split; [reflexivity|]. split; [cbn; lia|].
      eapply finish_moves; eauto.
  - destruct (Hph i _ Hn) as [_ Hst]. cbn in Hst.
    destruct (wake <=? now st); [|discriminate].
    destruct (now st <? deadline); inversion Hs; subst.
    + split; [reflexivity|]. split; [cbn; lia|]. left. repeat split.
    + split; [reflexivity|]. split; [cbn; lia|].
      eapply finish_moves; eauto.
  - destruct (main st) as [wake| |]; try discriminate.
    destruct (wake <=? now st); [|discriminate]. inversion Hs; subst.
    unfold idle_tick. destruct (PriorityPool.is_idle (pool st));
      (split; [reflexivity|]; split; [cbn; lia|]; left; repeat split).
Qed.

Lemma run_urls (es : list event) : forall st st' : state,
  sane st -> run st es = Some st' -> urls st' = urls st.
Proof.
  induction es as [|e es IH]; intros st st' H Hr; cbn [run] in Hr.
  - inversion Hr; reflexivity.
  - destruct (step st e) as [st1|] eqn:E; [|discriminate].
    rewrite (IH st1 st' (step_sane _ _ _ H E) Hr).
    apply (step_control st st1 e H E).
Qed.

Lemma enqueue_all_urls (l : list nat) : forall st : state,
  urls (fold_left enqueue l st) = urls st.
Proof.
  induction l as [|i l IH]; intros st; cbn [fold_left]; [reflexivity|].
  rewrite IH. reflexivity.
Qed.

Lemma runBatch_urls (baseUrl m : string) (count clock : Z) :
  urls (runBatch baseUrl count m clock) = build_urls baseUrl count.
Proof.
  unfold runBatch. cbn zeta. unfold idle_tick.
  destruct (PriorityPool.is_idle _); cbn [finalize set_main urls];
    rewrite enqueue_all_urls; reflexivity.
Qed.

Lemma run_keeps_mode (es : list event) : forall st st' : state,
  run st es = Some st' -> mode st' = mode st.
Proof.
  induction es as [|e es IH]; intros st st' Hr; cbn [run] in Hr.
  - inversion Hr; reflexivity.
  - destruct (step st e) as [st1|] eqn:E; [|discriminate].
    rewrite (IH st1 st' Hr). apply (step_keeps_mode _ _ _ E).
Qed.

Lemma enqueue_all_mode (l : list nat) : forall st : state,
  mode (fold_left enqueue l st) = mode st.
Proof.
  induction l as [|i l IH]; intros st; cbn [fold_left]; [reflexivity|].
  rewrite IH. reflexivity.
Qed.

Lemma runBatch_mode (baseUrl m : string) (count clock : Z) :
  mode (runBatch baseUrl count m clock) = m.
Proof.
  unfold runBatch. cbn zeta. unfold idle_tick.
  destruct (PriorityPool.is_idle _); cbn [finalize set_main mode];
    rewrite enqueue_all_mode; reflexivity.
Qed.

Lemma build_urls_length (baseUrl : string) (count : Z) :
  List.length (build_urls baseUrl count) = Z.to_nat count.
Proof. unfold build_urls. now rewrite length_map, length_seq. Qed.

(** The migration happens at most once in a batch and never goes back:
    at every point [promptsLeft] is 1, or it is 0 and the state is
    [Switched]; and no event lowers the migration state. *)
Theorem migration_happens_once (baseUrl m : string) (count clock : Z)
    (es : list event) (st : state) (e : event) (st' : state) :
  run (runBatch baseUrl count m clock) es = Some st ->
  step st e = Some st' ->
  (rank (migration_state st) <= rank (migration_state st'))%nat /\
  ((promptsLeft st' = 1 /\ switched st' = false) \/
   (promptsLeft st' = 0 /\ migration_state st' = Switched)).
Proof.
  intros Hr Hs.
  pose proof (run_sane es _ st (runBatch_sane baseUrl m count clock) Hr) as H.
  pose proof (step_sane st st' e H Hs) as H'.
  destruct (step_control st st' e H Hs) as (_ & _ & Hc).
  split.
  - unfold migration_state.
    destruct Hc as [(E1 & E2 & _)|[(E1 & E2 & E3 & E4 & _)|(E1 & E2 & E3 & E4 & _)]].
    + rewrite E1, E2. lia.
    + rewrite E1, E2, E3, E4. cbn. lia.
    + rewrite E1, E2, E3, E4. cbn. lia.
  - destruct H' as (_ & Hfl & _). unfold flags_ok, migration_state in *.
    destruct (switching st'), (switched st'); try contradiction; auto.
Qed.

Lemma migration_happens_once_witness :
  (rank (migration_state (after degrading_batch to_deadline))
   <= rank (migration_state
              (after degrading_batch (to_deadline ++ [PollTimer 51]))))%nat /\
  ((promptsLeft (after degrading_batch (to_deadline ++ [PollTimer 51])) = 1 /\
    switched (after degrading_batch (to_deadline ++ [PollTimer 51])) = false)
   \/
   (promptsLeft (after degrading_batch (to_deadline ++ [PollTimer 51])) = 0 /\
    migration_state (after degrading_batch (to_deadline ++ [PollTimer 51]))
    = Switched)).
Proof.
  apply (migration_happens_once "http://h/images/" AUTO_SWITCH 60 0
           to_deadline (after degrading_batch to_deadline) (PollTimer 51)).
  - vm_compute. reflexivity.
  - vm_compute. reflexivity.
Defined.

(** The pool's limit tells the migration state at every point of a
    batch: [CONC_BEFORE] while normal, [CONC_WEAK] while draining and
    waiting for the link, [CONC_AFTER] once switched. *)
Theorem pool_limit_follows_migration (baseUrl m : string) (count clock : Z)
    (es : list event) (st : state) :
  run (runBatch baseUrl count m clock) es = Some st ->
  PriorityPool.limit (pool st)
  = match migration_state st with
    | Normal => 3
    | DrainingState => 2
    | Switched => 8
    end.
Proof.
  intros Hr.
  destruct (run_sane es _ st (runBatch_sane baseUrl m count clock) Hr)
    as (_ & _ & Hl & _).
  rewrite Hl. destruct (migration_state st); reflexivity.
Qed.

Lemma pool_limit_follows_migration_witness :
  PriorityPool.limit (pool (after degrading_batch to_trigger))
  = match migration_state (after degrading_batch to_trigger) with
    | Normal => 3
    | DrainingState => 2
    | Switched => 8
    end.
Proof.
  apply (pool_limit_follows_migration "http://h/images/" AUTO_SWITCH 60 0
           to_trigger).
  vm_compute. reflexivity.
Defined.

(** Under any mode other than [AUTO_SWITCH] a batch never migrates: the
    state stays [Normal], nothing is counted as pause, the limit stays
    [CONC_BEFORE] and every record is tagged [wifi]. *)
Theorem other_modes_never_migrate (baseUrl m : string) (count clock : Z)
    (es : list event) (st : state) :
  String.eqb m AUTO_SWITCH = false ->
  run (runBatch baseUrl count m clock) es = Some st ->
  migration_state st = Normal /\ pausedMs st = 0 /\
  PriorityPool.limit (pool st) = CONC_BEFORE /\
  forall j pf, nth_error (perFile st) j = Some (Some pf) -> pf_path pf = wifi.
Proof.
  intros Hm Hr.
  pose proof (run_sane es _ st (runBatch_sane baseUrl m count clock) Hr)
    as (_ & _ & Hl & _ & _ & Hwifi & Hcell & _).
  assert (Emode : mode st = m).
  { rewrite (run_keeps_mode es _ st Hr). apply runBatch_mode. }
  rewrite Emode in Hwifi. destruct (Hwifi Hm) as (Hsg & Hsd & Hp).
  assert (Hn : migration_state st = Normal)
    by (unfold migration_state; rewrite Hsg, Hsd; reflexivity).
  rewrite Hn in Hl. repeat split; auto.
  intros j pf Hn' . destruct (pf_path pf) eqn:Ep; [reflexivity|].
  specialize (Hcell j pf Hn' Ep). congruence.
Qed.

Lemma other_modes_never_migrate_witness :
  migration_state (after (runBatch "http://h/images/" 3 WIFI_ONLY 0)
                         (complete 0 1000 102400)) = Normal /\
  pausedMs (after (runBatch "http://h/images/" 3 WIFI_ONLY 0)
                  (complete 0 1000 102400)) = 0 /\
  PriorityPool.limit (pool (after (runBatch "http://h/images/" 3 WIFI_ONLY 0)
                                  (complete 0 1000 102400))) = CONC_BEFORE /\
  forall j pf,
    nth_error (perFile (after (runBatch "http://h/images/" 3 WIFI_ONLY 0)
                              (complete 0 1000 102400))) j = Some (Some pf) ->
    pf_path pf = wifi.
Proof.
  apply (other_modes_never_migrate "http://h/images/" WIFI_ONLY 3 0
           (complete 0 1000 102400)).
  - vm_compute. reflexivity.
  - vm_compute. reflexivity.
Defined.



(** [perFile] has one slot per URL from the first moment to the result:
    its length is [count] (0 when [count] is negative). *)
Theorem one_slot_per_url (baseUrl m : string) (count clock : Z)
    (es : list event) (st : state) :
  run (runBatch baseUrl count m clock) es = Some st ->
  List.length (perFile st) = Z.to_nat count /\
  List.length (urls st) = Z.to_nat count /\
  forall r, main st = Done r -> List.length (res_perFile r) = Z.to_nat count.
Proof.
  intros Hr.
  pose proof (runBatch_sane baseUrl m count clock) as H0.
  pose proof (run_sane es _ st H0 Hr)
    as (_ & _ & _ & _ & _ & _ & _ & Hlp & _ & Hres).
  assert (Eu : List.length (urls st) = Z.to_nat count).
  { rewrite (run_urls es _ st H0 Hr), runBatch_urls. apply build_urls_length. }
  rewrite Hlp. split; [exact Eu|]. split; [exact Eu|].
  intros r Hd. destruct (Hres r Hd) as (H1 & _). congruence.
Qed.

Lemma one_slot_per_url_witness :
  List.length (perFile (after (runBatch "http://h/images/" 5 WIFI_ONLY 0)
                              (complete 0 1000 102400))) = Z.to_nat 5 /\
  List.length (urls (after (runBatch "http://h/images/" 5 WIFI_ONLY 0)
                           (complete 0 1000 102400))) = Z.to_nat 5 /\
  forall r,
    main (after (runBatch "http://h/images/" 5 WIFI_ONLY 0)
                (complete 0 1000 102400)) = Done r ->
    List.length (res_perFile r) = Z.to_nat 5.
Proof.
  apply (one_slot_per_url "http://h/images/" WIFI_ONLY 5 0
           (complete 0 1000 102400)).
  vm_compute. reflexivity.
Defined.

(** A record is tagged [cell] only once the batch has switched: as long
    as [switched] is false every record on file is tagged [wifi]. *)
Theorem cell_tag_only_after_switch (baseUrl m : string) (count clock : Z)
    (es : list event) (st : state) (j : nat) (pf : PerFile) :
  run (runBatch baseUrl count m clock) es = Some st ->
  nth_error (perFile st) j = Some (Some pf) ->
  pf_path pf = cell ->
  migration_state st = Switched.
Proof.
  intros Hr Hn Hc.
  destruct (run_sane es _ st (runBatch_sane baseUrl m count clock) Hr)
    as (_ & _ & _ & _ & _ & _ & Hcell & _).
  unfold migration_state. now rewrite (Hcell j pf Hn Hc).
Qed.

Lemma cell_tag_only_after_switch_witness :
  migration_state
    (after degrading_batch (to_deadline ++ [PollTimer 51] ++ to_the_end))
  = Switched.
Proof.
  eapply (cell_tag_only_after_switch "http://h/images/" AUTO_SWITCH 60 0
            (to_deadline ++ [PollTimer 51] ++ to_the_end) _ 53).
  - vm_compute. reflexivity.
  - vm_compute. reflexivity.
  - reflexivity.
Defined.

End RunnerMore.

(* ===================================================================== *)
(** * The ledger is kept *)
(* ===================================================================== *)

Module LedgerFacts.
Import JsNum JsString Runner RunnerInv TaskLedger RunnerFacts.

(** ** The pool, by membership *)

Lemma pump_members (q : PriorityPool.pool nat) :
  PriorityPool.pumping q = false ->
  exists taken,
    queue q = taken ++ queue (PriorityPool.pump q) /\
    PriorityPool.started (PriorityPool.pump q)
    = PriorityPool.started q ++ taken /\
    PriorityPool.inflight (PriorityPool.pump q)
    = PriorityPool.inflight q ++ taken.
Proof.
  intros Hp.
  destruct (PoolFacts.pump_spec q Hp) as (_ & _ & _ & tk & H1 & H2 & H3 & _).
  exists tk. unfold queue. auto.
Qed.

Lemma fresh_app (p p' : PriorityPool.pool nat) (tk : list nat) :
  PriorityPool.started p' = PriorityPool.started p ++ tk -> fresh p p' = tk.
Proof.
  intros E. unfold fresh. rewrite E.
  rewrite skipn_app, skipn_all, Nat.sub_diag. reflexivity.
Qed.

Lemma remove_nth_in {A : Type} (k : nat) : forall (l rest : list A) (x : A),
  PriorityPool.remove_nth k l = Some rest -> In x rest -> In x l.
Proof.
  induction k as [|k IH]; intros [|a l] rest x H Hin; cbn in H;
    try discriminate.
  - inversion H; subst. right. exact Hin.
  - destruct (PriorityPool.remove_nth k l) as [r|] eqn:E; [|discriminate].
    inversion H; subst. destruct Hin as [->|Hin]; [left; reflexivity|].
    right. eapply IH; eauto.
Qed.

Lemma remove_index_keeps (i : nat) : forall (l rest : list nat) (k x : nat),
  index_of i l = Some k ->
  PriorityPool.remove_nth k l = Some rest ->
  In x l -> x <> i -> In x rest.
Proof.
  induction l as [|a l IH]; intros rest k x Hi Hr Hin Hx; [contradiction|].
  cbn [index_of] in Hi. destruct (Nat.eqb a i) eqn:E.
  - inversion Hi; subst k. cbn in Hr. inversion Hr; subst rest.
    apply Nat.eqb_eq in E. subst a.
    destruct Hin as [<-|Hin]; [contradiction|exact Hin].
  - destruct (index_of i l) as [k'|] eqn:E'; [|discriminate].
    inversion Hi; subst k. cbn in Hr.
    destruct (PriorityPool.remove_nth k' l) as [r|] eqn:Er; [|discriminate].
    inversion Hr; subst rest.
    destruct Hin as [<-|Hin]; [left; reflexivity|].
    right. eapply IH; eauto.
Qed.

(** What [setLimit] does to the membership of tasks. *)
Lemma setLimit_members (n : Z) (p : PriorityPool.pool nat) :
  PriorityPool.consistent p ->
  queue p = fresh p (PriorityPool.setLimit n p)
            ++ queue (PriorityPool.setLimit n p) /\
  PriorityPool.inflight (PriorityPool.setLimit n p)
  = PriorityPool.inflight p ++ fresh p (PriorityPool.setLimit n p).
Proof.
  intros (Hp & _). unfold PriorityPool.setLimit.
  match goal with |- context [PriorityPool.pump ?q] =>
    destruct (pump_members q Hp) as (tk & H1 & H2 & H3);
    rewrite (fresh_app p (PriorityPool.pump q) tk H2) end.
  auto.
Qed.

(** What the [finally] callback of the [k]-th task in flight does. *)
Lemma settle_members (k : nat) (p p' : PriorityPool.pool nat) :
  PriorityPool.consistent p ->
  PriorityPool.step p (PriorityPool.Settle k) = Some p' ->
  queue p = fresh p p' ++ queue p' /\
  exists rest,
    PriorityPool.remove_nth k (PriorityPool.inflight p) = Some rest /\
    PriorityPool.inflight p' = rest ++ fresh p p'.
Proof.
  intros (Hp & _) Hs. cbn [PriorityPool.step] in Hs.
  destruct (PriorityPool.remove_nth k (PriorityPool.inflight p)) as [rest|]
    eqn:Er; [|discriminate].
  inversion Hs; subst p'; clear Hs. unfold PriorityPool.on_settled.
  match goal with |- context [PriorityPool.pump ?q] =>
    destruct (pump_members q eq_refl) as (tk & H1 & H2 & H3);
    rewrite (fresh_app p (PriorityPool.pump q) tk H2) end.
  split; [exact H1|]. exists rest. auto.
Qed.

(** What [push] does. *)
Lemma push_members (t : nat) (sm : bool) (p : PriorityPool.pool nat) :
  PriorityPool.consistent p ->
  Permutation (t :: queue p)
              (fresh p (PriorityPool.push t sm p)
               ++ queue (PriorityPool.push t sm p)) /\
  PriorityPool.inflight (PriorityPool.push t sm p)
  = PriorityPool.inflight p ++ fresh p (PriorityPool.push t sm p).
Proof.
  intros (Hp & _). unfold PriorityPool.push.
  match goal with |- context [PriorityPool.pump ?q] =>
    assert (Hq : PriorityPool.pumping q = false) by (destruct sm; exact Hp);
    destruct (pump_members q Hq) as (tk & H1 & H2 & H3);
    assert (Es : PriorityPool.started q = PriorityPool.started p)
      by (destruct sm; reflexivity);
    assert (Ei : PriorityPool.inflight q = PriorityPool.inflight p)
      by (destruct sm; reflexivity);
    assert (Eq : Permutation (t :: queue p) (queue q));
    [|rewrite Es in H2; rewrite Ei in H3;
      rewrite (fresh_app p (PriorityPool.pump q) tk H2)] end.
  { unfold queue. destruct sm; cbn [PriorityPool.small PriorityPool.large].
    - rewrite <- app_assoc. cbn [app]. apply Permutation_middle.
    - rewrite app_assoc. apply Permutation_cons_append. }
  split; [|exact H3]. rewrite <- H1. exact Eq.
Qed.

Lemma pool_rel_same (p : PriorityPool.pool nat) :
  PriorityPool.consistent p -> pool_rel p p None.
Proof.
  intros H. unfold pool_rel, fresh. rewrite skipn_all, app_nil_r. auto.
Qed.

Lemma pool_rel_setLimit (n : Z) (p : PriorityPool.pool nat) :
  PriorityPool.consistent p -> pool_rel p (PriorityPool.setLimit n p) None.
Proof.
  intros H. destruct (setLimit_members n p H) as [H1 H2].
  split; [|auto].
  apply (PoolFacts.step_consistent p _ (PriorityPool.SetLimit n) H eq_refl).
Qed.

Lemma pool_rel_settle (i idx : nat) (p p' : PriorityPool.pool nat) :
  PriorityPool.consistent p ->
  index_of i (PriorityPool.inflight p) = Some idx ->
  PriorityPool.step p (PriorityPool.Settle idx) = Some p' ->
  pool_rel p p' (Some i).
Proof.
  intros H Hi Hs. destruct (settle_members idx p p' H Hs) as (H1 & rest & H2 & H3).
  split; [apply (PoolFacts.step_consistent p p' _ H Hs)|].
  split; [exact H1|]. exists idx, rest. auto.
Qed.

(** ** Lists *)

Lemma nth_error_set_nth_other {A : Type} (i : nat) (x : A) :
  forall (l : list A) (j : nat),
    j <> i -> nth_error (set_nth i x l) j = nth_error l j.
Proof.
  induction i as [|i IH]; intros [|a l] [|j] H; cbn; try reflexivity.
  - contradiction.
  - apply IH. lia.
Qed.

Lemma enter_all_cases (f : nat -> phase) (fr : list nat) :
  forall (l : list phase) (j : nat) (ph : phase),
    nth_error (fold_left (fun ph i => set_nth i (f i) ph) fr l) j = Some ph ->
    (In j fr /\ ph = f j) \/ (~ In j fr /\ nth_error l j = Some ph).
Proof.
  induction fr as [|a fr IH]; intros l j ph H; cbn [fold_left] in H.
  - right. split; [intros []|exact H].
  - apply IH in H. destruct H as [[Hin ->]|[Hout H]].
    + left. split; [right; exact Hin|reflexivity].
    + apply RunnerMore.nth_error_set_nth_inv in H.
      destruct H as [[-> ->]|[Hne H]].
      * left. split; [left; reflexivity|reflexivity].
      * right. split; [|exact H]. intros [E|E]; [congruence|contradiction].
Qed.

Lemma moved_phases_cases (f : nat -> phase) (fr : list nat) (i : nat)
    (new : phase) (l : list phase) (j : nat) (ph : phase) :
  nth_error (moved_phases f fr (Some (i, new)) l) j = Some ph ->
  (j = i /\ ph = new) \/
  (j <> i /\ In j fr /\ ph = f j) \/
  (j <> i /\ ~ In j fr /\ nth_error l j = Some ph).
Proof.
  unfold moved_phases. cbn zeta. intros H.
  apply RunnerMore.nth_error_set_nth_inv in H.
  destruct H as [[-> ->]|[Hne H]]; [left; auto|].
  apply enter_all_cases in H. destruct H as [[H1 H2]|[H1 H2]]; auto.
Qed.

Lemma moved_phases_length (f : nat -> phase) (fr : list nat)
    (upd : option (nat * phase)) (l : list phase) :
  List.length (moved_phases f fr upd l) = List.length l.
Proof.
  unfold moved_phases. cbn zeta. destruct upd as [[i new]|];
    rewrite ?set_nth_length; apply enter_all_length.
Qed.

Lemma recorded_bytes_set_nth (pf : PerFile) :
  forall (i : nat) (l : list (option PerFile)),
    nth_error l i = Some None ->
    recorded_bytes (set_nth i (Some pf) l) = recorded_bytes l + pf_bytes pf.
Proof.
  induction i as [|i IH]; intros [|a l] H; cbn in H; try discriminate.
  - inversion H; subst. cbn. lia.
  - cbn [set_nth recorded_bytes fold_right]. fold (recorded_bytes l).
    fold (recorded_bytes (set_nth i (Some pf) l)).
    rewrite (IH l H). lia.
Qed.

Lemma nth_error_some_lt {A : Type} (l : list A) (i : nat) (x : A) :
  nth_error l i = Some x -> (i < List.length l)%nat.
Proof. intros H. apply nth_error_Some. congruence. Qed.

(** ** Keeping the ledger *)

(** A task in the queue is waiting. *)
Lemma queued_is_waiting (k : nat) (st : state) (j : nat) :
  coherent k st -> In j (queue (pool st)) ->
  exists ph, nth_error (phases st) j = Some ph /\ stage_of ph = Waiting /\
             nth_error (perFile st) j = Some None.
Proof.
  intros (_ & _ & Hlt & Hk & Hpt & _) Hin.
  assert (Hj : (j < List.length (phases st))%nat) by (specialize (Hlt j Hin); lia).
  destruct (nth_error (phases st) j) as [ph|] eqn:E;
    [|apply nth_error_None in E; lia].
  exists ph. split; [reflexivity|].
  specialize (Hpt j ph E). unfold task_ok in Hpt.
  destruct (stage_of ph); try (destruct Hpt as (_ & Hq & _); contradiction).
  - destruct Hpt as [_ Hn]. auto.
  - destruct Hpt as (Hq & _). contradiction.
Qed.

(** A task that has left the queue was enqueued. *)
Lemma started_is_enqueued (k : nat) (st : state) (j : nat) (ph : phase) :
  coherent k st -> nth_error (phases st) j = Some ph ->
  stage_of ph <> Waiting -> (j < k)%nat.
Proof.
  intros (_ & _ & _ & _ & _ & Hw & _) Hn Hs.
  destruct (Nat.lt_ge_cases j k) as [H|H]; [exact H|].
  exfalso. apply Hs. apply (Hw j ph Hn H).
Qed.

Lemma coherent_move (k : nat) (st st' : state) (f : nat -> phase)
    (i : nat) (old new : phase) (rec : option PerFile) :
  coherent k st ->
  (forall j, stage_of (f j) = Fetching) ->
  nth_error (phases st) i = Some old ->
  legal_move (stage_of old) (stage_of new) rec ->
  pool_rel (pool st) (pool st')
           (match stage_of new with Closed => Some i | _ => None end) ->
  phases st'
  = moved_phases f (fresh (pool st) (pool st')) (Some (i, new)) (phases st) ->
  perFile st'
  = match rec with
    | Some pf => set_nth i (Some pf) (perFile st)
    | None => perFile st
    end ->
  totalBytes st'
  = match rec with
    | Some pf => totalBytes st + pf_bytes pf
    | None => totalBytes st
    end ->
  main st' = main st ->
  coherent k st'.
Proof.
  intros H Hf Hold Hlegal (Hc' & Hq & Hfl) Eph Epf Etb Emain.
  pose proof H as (Hc & Hnd & Hlt & Hk & Hpt & Hw & Htb & Hdone).
  set (fr := fresh (pool st) (pool st')) in *.
  rewrite Hq in Hnd.
  assert (Hnd' : NoDup (queue (pool st'))) by (eapply NoDup_app_remove_l; eauto).
  assert (Hdisj : forall x, In x fr -> ~ In x (queue (pool st'))).
  { intros x Hx Hx'. revert Hnd Hx Hx'. clear.
    induction fr as [|a fr IH]; cbn; intros Hnd Hx Hx'; [contradiction|].
    inversion Hnd; subst. destruct Hx as [->|Hx].
    - apply H1. apply in_or_app. right. exact Hx'.
    - apply IH; assumption. }
  assert (Hsub : forall x, In x (queue (pool st')) -> In x (queue (pool st))).
  { intros x Hx. rewrite Hq. apply in_or_app. right. exact Hx. }
  assert (Hfrq : forall x, In x fr -> In x (queue (pool st))).
  { intros x Hx. rewrite Hq. apply in_or_app. left. exact Hx. }
  assert (Hfr_in : forall x, In x fr -> In x (PriorityPool.inflight (pool st'))).
  { intros x Hx. destruct (stage_of new);
      try (rewrite Hfl; apply in_or_app; right; exact Hx).
    destruct Hfl as (idx & rest & _ & _ & E). rewrite E.
    apply in_or_app. right. exact Hx. }
  assert (Hkeep : forall x, x <> i -> In x (PriorityPool.inflight (pool st)) ->
                            In x (PriorityPool.inflight (pool st'))).
  { intros x Hx Hin. destruct (stage_of new);
      try (rewrite Hfl; apply in_or_app; left; exact Hin).
    destruct Hfl as (idx & rest & Hi & Hr & E). rewrite E.
    apply in_or_app. left. eapply remove_index_keeps; eauto. }
  assert (Hkeep_i : stage_of new <> Closed ->
                    In i (PriorityPool.inflight (pool st)) ->
                    In i (PriorityPool.inflight (pool st'))).
  { intros Hn Hin. destruct (stage_of new); try congruence;
      rewrite Hfl; apply in_or_app; left; exact Hin. }
  assert (Hpf_other : forall j, j <> i ->
            nth_error (perFile st') j = nth_error (perFile st) j).
  { intros j Hj. rewrite Epf. destruct rec; [|reflexivity].
    apply nth_error_set_nth_other; exact Hj. }
  pose proof (Hpt i old Hold) as Hi. unfold task_ok in Hi.
  assert (Hiq : ~ In i (queue (pool st))).
  { unfold legal_move in Hlegal.
    destruct (stage_of old); try contradiction; apply Hi. }
  unfold coherent.
  split; [exact Hc'|]. split; [exact Hnd'|].
  split; [intros j Hj; apply Hlt, Hsub, Hj|].
  split; [rewrite Eph, moved_phases_length; exact Hk|].
  split; [|split; [|split]].
  - intros j ph Hj. rewrite Eph in Hj.
    apply moved_phases_cases in Hj.
    destruct Hj as [[-> ->]|[(Hne & Hin & ->)|(Hne & Hout & Hj)]].
    + (* the task that moved *)
      unfold task_ok. unfold legal_move in Hlegal.
      assert (Hq' : ~ In i (queue (pool st'))) by (intros X; apply Hiq, Hsub, X).
      destruct (stage_of old) eqn:Eo; try contradiction;
        destruct (stage_of new) eqn:En; try contradiction;
        destruct rec as [pf|]; try contradiction;
        destruct Hi as (Hin & _ & Hrec).
      * split; [apply Hkeep_i; [discriminate|exact Hin]|].
        split; [exact Hq'|]. rewrite Epf. exact Hrec.
      * split; [apply Hkeep_i; [discriminate|exact Hin]|].
        split; [exact Hq'|]. exists pf. rewrite Epf.
        apply nth_error_set_nth. eapply nth_error_some_lt; eauto.
      * split; [apply Hkeep_i; [discriminate|exact Hin]|].
        split; [exact Hq'|]. rewrite Epf. exact Hrec.
      * split; [exact Hq'|]. rewrite Epf. exact Hrec.
    + (* a task the pool has just started *)
      unfold task_ok. rewrite (Hf j).
      split; [apply Hfr_in; exact Hin|].
      split; [apply Hdisj; exact Hin|].
      rewrite (Hpf_other j Hne).
      destruct (queued_is_waiting k st j H (Hfrq j Hin)) as (? & _ & _ & E).
      exact E.
    + (* the others *)
      pose proof (Hpt j ph Hj) as Hjok. unfold task_ok in *.
      rewrite (Hpf_other j Hne).
      destruct (stage_of ph).
      * destruct Hjok as [Hq1 Hn1]. split; [|exact Hn1].
        intros Hjk. specialize (Hq1 Hjk). rewrite Hq in Hq1.
        apply in_app_or in Hq1. destruct Hq1 as [X|X]; [contradiction|exact X].
      * destruct Hjok as (H1 & H2 & H3).
        split; [apply Hkeep; assumption|].
        split; [intros X; apply H2, Hsub, X|exact H3].
      * destruct Hjok as (H1 & H2 & H3).
        split; [apply Hkeep; assumption|].
        split; [intros X; apply H2, Hsub, X|exact H3].
      * destruct Hjok as (H2 & H3).
        split; [intros X; apply H2, Hsub, X|exact H3].
  - intros j ph Hj Hkj. rewrite Eph in Hj.
    apply moved_phases_cases in Hj.
    destruct Hj as [[-> ->]|[(Hne & Hin & ->)|(Hne & Hout & Hj)]].
    + exfalso.
      assert (Hs : stage_of old <> Waiting).
      { unfold legal_move in Hlegal. destruct (stage_of old);
          try contradiction; discriminate. }
      pose proof (started_is_enqueued k st i old H Hold Hs). lia.
    + exfalso. specialize (Hlt j (Hfrq j Hin)). lia.
    + apply (Hw j ph Hj Hkj).
  - rewrite Etb, Epf, Htb. unfold legal_move in Hlegal.
    destruct rec as [pf|]; [|reflexivity].
    rewrite recorded_bytes_set_nth; [reflexivity|].
    destruct (stage_of old); try contradiction;
      destruct (stage_of new); try contradiction.
    apply Hi.
  - intros r Hr. rewrite Emain in Hr. apply (Hdone r Hr).
Qed.

(** The same without a call into the pool. *)
Lemma coherent_move_quiet (k : nat) (st st' : state)
    (i : nat) (old new : phase) (rec : option PerFile) :
  coherent k st ->
  nth_error (phases st) i = Some old ->
  legal_move (stage_of old) (stage_of new) rec ->
  stage_of new <> Closed ->
  pool st' = pool st ->
  phases st' = set_nth i new (phases st) ->
  perFile st'
  = match rec with
    | Some pf => set_nth i (Some pf) (perFile st)
    | None => perFile st
    end ->
  totalBytes st'
  = match rec with
    | Some pf => totalBytes st + pf_bytes pf
    | None => totalBytes st
    end ->
  main st' = main st ->
  coherent k st'.
Proof.
  intros H Hold Hlegal Hnc Epool Eph Epf Etb Emain.
  apply (coherent_move k st st' (fun _ => Probing None) i old new rec);
    auto.
  - rewrite Epool.
    replace (match stage_of new with Closed => Some i | _ => None end)
      with (@None nat) by (destruct (stage_of new); congruence).
    apply pool_rel_same. apply H.
  - rewrite Epool, Eph. unfold moved_phases, fresh. rewrite skipn_all.
    reflexivity.
Qed.

(** A transition that touches neither the pool, nor the phases, nor the
    records. *)
Lemma coherent_same (k : nat) (st st' : state) :
  coherent k st ->
  pool st' = pool st -> phases st' = phases st ->
  perFile st' = perFile st -> totalBytes st' = totalBytes st ->
  (forall r, main st' = Done r -> complete_result r) ->
  coherent k st'.
Proof.
  intros (Hc & Hnd & Hlt & Hk & Hpt & Hw & Htb & Hdone) E1 E2 E3 E4 Hd.
  unfold coherent, task_ok. rewrite E1, E2, E3, E4.
  split; [exact Hc|]. split; [exact Hnd|]. split; [exact Hlt|].
  split; [exact Hk|]. split; [exact Hpt|]. split; [exact Hw|].
  split; [exact Htb|exact Hd].
Qed.

(** [enqueue(k)] when the tasks before [k] have been enqueued. *)
Lemma coherent_enqueue (k : nat) (st : state) :
  coherent k st -> (k < List.length (phases st))%nat ->
  coherent (S k) (enqueue st k).
Proof.
  intros H Hkl.
  pose proof H as (Hc & Hnd & Hlt & Hk & Hpt & Hw & Htb & Hdone).
  unfold enqueue. cbn zeta.
  set (sm := isSmallByName (nth k (urls st) EmptyString)).
  set (p' := PriorityPool.push k sm (pool st)).
  destruct (push_members k sm (pool st) Hc) as [Hperm Hfl].
  fold p' in Hperm, Hfl. set (fr := fresh (pool st) p') in *.
  assert (Hc' : PriorityPool.consistent p').
  { apply (PoolFacts.step_consistent (pool st) p' (PriorityPool.Push k sm) Hc
             eq_refl). }
  assert (Hkq : ~ In k (queue (pool st))).
  { intros X. specialize (Hlt k X). lia. }
  assert (Hnd2 : NoDup (fr ++ queue p')).
  { eapply Permutation_NoDup; [exact Hperm|]. constructor; assumption. }
  assert (Hnd' : NoDup (queue p')) by (eapply NoDup_app_remove_l; eauto).
  assert (Hdisj : forall x, In x fr -> ~ In x (queue p')).
  { intros x Hx Hx'. revert Hnd2 Hx Hx'. clear.
    induction fr as [|a fr IH]; cbn; intros Hnd Hx Hx'; [contradiction|].
    inversion Hnd; subst. destruct Hx as [->|Hx].
    - apply H1. apply in_or_app. right. exact Hx'.
    - apply IH; assumption. }
  assert (Hin_old : forall x, In x (fr ++ queue p') ->
                              x = k \/ In x (queue (pool st))).
  { intros x Hx. apply (Permutation_in x (Permutation_sym Hperm)) in Hx.
    destruct Hx as [<-|Hx]; auto. }
  assert (Hin_new : forall x, x = k \/ In x (queue (pool st)) ->
                              In x (fr ++ queue p')).
  { intros x Hx. apply (Permutation_in x Hperm).
    destruct Hx as [->|Hx]; [left; reflexivity|right; exact Hx]. }
  assert (Hwait : forall x, In x (fr ++ queue p') ->
            nth_error (perFile st) x = Some None).
  { intros x Hx. destruct (Hin_old x Hx) as [->|Hq].
    - destruct (nth_error (phases st) k) as [ph|] eqn:E;
        [|apply nth_error_None in E; lia].
      pose proof (Hpt k ph E) as Hok. unfold task_ok in Hok.
      rewrite (Hw k ph E (Nat.le_refl k)) in Hok. apply Hok.
    - destruct (queued_is_waiting k st x H Hq) as (? & _ & _ & E). exact E. }
  set (st' := install_pool st p').
  assert (Ep : pool st' = p') by reflexivity.
  assert (Eph : phases st'
                = fold_left (fun ph i => set_nth i (enter_task st i) ph) fr
                            (phases st)) by reflexivity.
  assert (Epf : perFile st' = perFile st) by reflexivity.
  assert (Etb : totalBytes st' = totalBytes st) by reflexivity.
  assert (Em : main st' = main st) by reflexivity.
  clearbody st'.
  unfold coherent, task_ok. rewrite Ep, Eph, Epf, Etb, Em.
  split; [exact Hc'|]. split; [exact Hnd'|].
  split.
  { intros j Hj.
    destruct (Hin_old j (in_or_app _ _ _ (or_intror Hj))) as [->|Hq];
      [lia|specialize (Hlt j Hq); lia]. }
  split; [rewrite enter_all_length; lia|].
  split; [|split; [|split; [exact Htb|exact Hdone]]].
  - intros j ph Hj. apply enter_all_cases in Hj.
    destruct Hj as [[Hin ->]|[Hout Hj]].
    + unfold enter_task.
      replace (stage_of (if NetProbe.due (now st) (Z.of_nat j + 1) (prober st)
                         then Probing (Some (now st)) else Probing None))
        with Fetching by (destruct (NetProbe.due _ _ _); reflexivity).
      split; [rewrite Hfl; apply in_or_app; right; exact Hin|].
      split; [apply Hdisj; exact Hin|].
      apply Hwait. apply in_or_app. left. exact Hin.
    + pose proof (Hpt j ph Hj) as Hok. unfold task_ok in Hok.
      destruct (stage_of ph) eqn:Es.
      * destruct Hok as [Hq1 Hn1]. split; [|exact Hn1].
        intros Hjk.
        assert (X : In j (fr ++ queue p')).
        { apply Hin_new. destruct (Nat.eq_dec j k) as [->|Hne]; [left; auto|].
          right. apply Hq1. lia. }
        apply in_app_or in X. destruct X as [X|X]; [contradiction|exact X].
      * destruct Hok as (H1 & H2 & H3).
        split; [rewrite Hfl; apply in_or_app; left; exact H1|].
        split; [|exact H3]. intros X.
        destruct (Hin_old j (in_or_app _ _ _ (or_intror X))) as [->|Hq];
          [|contradiction].
        rewrite (Hw k ph Hj (Nat.le_refl k)) in Es. discriminate.
      * destruct Hok as (H1 & H2 & H3).
        split; [rewrite Hfl; apply in_or_app; left; exact H1|].
        split; [|exact H3]. intros X.
        destruct (Hin_old j (in_or_app _ _ _ (or_intror X))) as [->|Hq];
          [|contradiction].
        rewrite (Hw k ph Hj (Nat.le_refl k)) in Es. discriminate.
      * destruct Hok as (H2 & H3). split; [|exact H3]. intros X.
        destruct (Hin_old j (in_or_app _ _ _ (or_intror X))) as [->|Hq];
          [|contradiction].
        rewrite (Hw k ph Hj (Nat.le_refl k)) in Es. discriminate.
  - intros j ph Hj Hkj. apply enter_all_cases in Hj.
    destruct Hj as [[Hin ->]|[Hout Hj]].
    + exfalso.
      destruct (Hin_old j (in_or_app _ _ _ (or_introl Hin))) as [->|Hq];
        [lia|specialize (Hlt j Hq); lia].
    + apply (Hw j ph Hj). lia.
Qed.

(** When the pool is idle every task is closed, so every slot of
    [perFile] is filled. *)
Lemma idle_means_filled (st : state) :
  coherent (List.length (phases st)) st ->
  List.length (perFile st) = List.length (phases st) ->
  PriorityPool.is_idle (pool st) = true ->
  Forall filled (perFile st).
Proof.
  intros (Hc & _ & _ & _ & Hpt & _) Hlen Hidle.
  unfold PriorityPool.is_idle in Hidle.
  apply andb_true_iff in Hidle. destruct Hidle as [Hidle Hl].
  apply andb_true_iff in Hidle. destruct Hidle as [Hr Hs].
  apply Z.eqb_eq in Hr. apply Nat.eqb_eq in Hs, Hl.
  apply length_zero_iff_nil in Hs, Hl.
  destruct Hc as (_ & Hrun & _). rewrite Hr in Hrun.
  assert (Hin : PriorityPool.inflight (pool st) = []).
  { destruct (PriorityPool.inflight (pool st)); [reflexivity|].
    cbn [List.length] in Hrun. lia. }
  apply Forall_forall. intros o Ho.
  apply In_nth_error in Ho. destruct Ho as [j Hj].
  assert (Hjl : (j < List.length (phases st))%nat).
  { rewrite <- Hlen. eapply nth_error_some_lt; eauto. }
  destruct (nth_error (phases st) j) as [ph|] eqn:E;
    [|apply nth_error_None in E; lia].
  specialize (Hpt j ph E). unfold task_ok, queue in Hpt.
  rewrite Hs, Hl, Hin in Hpt. cbn [app In] in Hpt.
  destruct (stage_of ph).
  - destruct Hpt as [X _]. destruct (X Hjl).
  - destruct Hpt as [[] _].
  - destruct Hpt as [[] _].
  - destruct Hpt as (_ & pf & Hpf). rewrite Hj in Hpf.
    inversion Hpf; subst. unfold filled. discriminate.
Qed.

Lemma enter_task_stage (st : state) (j : nat) :
  stage_of (enter_task st j) = Fetching.
Proof. unfold enter_task. destruct (NetProbe.due _ _ _); reflexivity. Qed.

(** What follows [await waitForDefaultNetChange(prevId)] keeps the
    ledger: the task stays recorded, the pool raises its limit. *)
Lemma coherent_finish (k : nat) (st : state) (i : nat) (old : phase) (ps : Z) :
  coherent k st ->
  nth_error (phases st) i = Some old -> stage_of old = Recorded ->
  coherent k (finish_migration st i ps).
Proof.
  intros H Hn Hs.
  apply (coherent_move k st _
           (enter_task (set_switched st (pausedMs st + (now st - ps))))
           i old Returned None);
    [exact H|intros j; apply enter_task_stage|exact Hn|rewrite Hs; exact I
    |apply (pool_rel_setLimit CONC_AFTER (pool st)); apply H
    |reflexivity..].
Qed.

Lemma step_coherent (k : nat) (st st' : state) (e : event) :
  coherent k st ->
  k = List.length (phases st) ->
  List.length (perFile st) = List.length (phases st) ->
  step st e = Some st' ->
  coherent k st'.
Proof.
  intros H Hk Hlen Hs.
  destruct e as [ms|i|i r|i|i|i id|i|i|]; cbn [step] in Hs;
    try (unfold phase_of in Hs;
         destruct (nth_error (phases st) i) as [ph|] eqn:Hn; [|discriminate];
         destruct ph; try discriminate).
  - inversion Hs; subst st'.
    apply (coherent_same k st); try reflexivity; [exact H|apply H].
  - destruct since; inversion Hs; subst st';
      (eapply (coherent_move_quiet k st _ i _ (Downloading (now st)) None);
       [exact H|exact Hn|exact I|discriminate|reflexivity..]).
  - destruct r as [rr|]; inversion Hs; subst st'; clear Hs.
    + unfold on_resolved.
      set (pf := mkPerFile (nth i (urls st) EmptyString)
                   (inject_Z (now st - t0) / 1000)
                   (RangeDownloader.size rr) (current_link st)
                   (Some (RangeDownloader.usedRange rr))
                   (Some (RangeDownloader.retried rr))).
      cbn zeta.
      match goal with |- context [detect_guard ?x] =>
        destruct (detect_guard x) end.
      2:{ eapply (coherent_move_quiet k st _ i _ Returned (Some pf));
            [exact H|exact Hn|exact I|discriminate|reflexivity..]. }
      destruct (WeakNetDetector.feed _ _ true) as [det d].
      destruct (WeakNetDetector.isWeak d).
      2:{ eapply (coherent_move_quiet k st _ i _ Returned (Some pf));
            [exact H|exact Hn|exact I|discriminate|reflexivity..]. }
      unfold drain_tick.
      destruct (Qgeb (WeakNetDetector.confidence d) (1 # 2));
        match goal with |- context [if ?c then _ else _] => destruct c end;
        match goal with
        |- coherent k (set_phase (install_pool ?s4 _) i ?new) =>
          apply (coherent_move k st _ (enter_task s4) i
                   (Downloading t0) new (Some pf));
          [exact H|intros j; apply enter_task_stage|exact Hn|exact I
          |apply (pool_rel_setLimit CONC_WEAK (pool st)); apply H
          |reflexivity..]
        end.
    + unfold on_rejected. destruct (WeakNetDetector.feed _ _ false).
      eapply (coherent_move_quiet k st _ i _ Returned
                (Some (mkPerFile (nth i (urls st) EmptyString) (-1) 0
                                 (current_link st) None None)));
        [exact H|exact Hn|exact I|discriminate|reflexivity|reflexivity
        |reflexivity|cbn; lia|reflexivity].
  - unfold settle_task in Hs.
    destruct (index_of i _) as [idx|] eqn:Hi; [|discriminate].
    destruct (PriorityPool.step (pool st) (PriorityPool.Settle idx)) as [p|]
      eqn:Hp; [|discriminate].
    inversion Hs; subst st'; clear Hs.
    apply (coherent_move k st _ (enter_task st) i Returned Finished None);
      [exact H|intros j; apply enter_task_stage|exact Hn|exact I
      |apply (pool_rel_settle i idx (pool st) p); [apply H|exact Hi|exact Hp]
      |reflexivity..].
  - destruct (wake <=? now st); [|discriminate]. inversion Hs; subst st'.
    unfold drain_tick.
    match goal with |- context [if ?c then _ else _] => destruct c end;
      match goal with |- coherent k (set_phase st i ?new) =>
        eapply (coherent_move_quiet k st _ i _ new None);
        [exact H|exact Hn|exact I|discriminate|reflexivity..] end.
  - inversion Hs; subst st'.
    eapply (coherent_move_quiet k st _ i _ (Opening id (now st)) None);
      [exact H|exact Hn|exact I|discriminate|reflexivity..].
  - destruct (negb (id =? 0) && negb (id =? prev))%bool;
      inversion Hs; subst st'.
    + eapply coherent_finish; eauto.
    + match goal with |- coherent k (set_phase st i ?new) =>
        eapply (coherent_move_quiet k st _ i _ new None);
        [exact H|exact Hn|exact I|discriminate|reflexivity..] end.
  - destruct (now st <? now st + NET_POLL_TIMEOUT); inversion Hs; subst st'.
    + match goal with |- coherent k (set_phase st i ?new) =>
        eapply (coherent_move_quiet k st _ i _ new None);
        [exact H|exact Hn|exact I|discriminate|reflexivity..] end.
    + eapply coherent_finish; eauto.
  - destruct (wake <=? now st); [|discriminate].
    destruct (now st <? deadline); inversion Hs; subst st'.
    + match goal with |- coherent k (set_phase st i ?new) =>
        eapply (coherent_move_quiet k st _ i _ new None);
        [exact H|exact Hn|exact I|discriminate|reflexivity..] end.
    + eapply coherent_finish; eauto.
  - destruct (main st) as [wake| |] eqn:Em; try discriminate.
    destruct (wake <=? now st); [|discriminate]. inversion Hs; subst st'.
    unfold idle_tick. destruct (PriorityPool.is_idle (pool st)) eqn:Hidle.
    + apply (coherent_same k st); try reflexivity; [exact H|].
      unfold finalize. cbn [set_main main]. intros r Hr.
      inversion Hr; subst r. unfold complete_result.
      cbn [res_perFile res_totalBytes].
      split; [|apply H].
      apply idle_means_filled; [rewrite <- Hk; exact H|exact Hlen|exact Hidle].
    + apply (coherent_same k st); try reflexivity; [exact H|].
      cbn [set_main main]. intros r Hr. discriminate.
Qed.

Lemma sane_lengths (st : state) :
  sane st ->
  List.length (perFile st) = List.length (urls st) /\
  List.length (phases st) = List.length (urls st).
Proof. intros (_ & _ & _ & _ & _ & _ & _ & H1 & H2 & _). auto. Qed.

Lemma run_coherent (es : list event) : forall st st' : state,
  sane st -> coherent (List.length (phases st)) st ->
  run st es = Some st' ->
  coherent (List.length (phases st')) st'.
Proof.
  induction es as [|e es IH]; intros st st' Hsane H Hr; cbn [run] in Hr.
  - inversion Hr; subst; exact H.
  - destruct (step st e) as [st1|] eqn:E; [|discriminate].
    pose proof (RunnerMore.step_sane st st1 e Hsane E) as Hsane1.
    destruct (sane_lengths st Hsane) as [L1 L2].
    destruct (sane_lengths st1 Hsane1) as [L3 L4].
    destruct (RunnerMore.step_control st st1 e Hsane E) as (Eu & _).
    apply (IH st1 st' Hsane1); [|exact Hr].
    replace (List.length (phases st1)) with (List.length (phases st))
      by congruence.
    apply (step_coherent _ st st1 e H eq_refl); [congruence|exact E].
Qed.

Lemma recorded_bytes_holes (n : nat) : recorded_bytes (repeat None n) = 0.
Proof. induction n as [|n IH]; cbn; [reflexivity|exact IH]. Qed.

Lemma nth_error_repeat_inv {A : Type} (x y : A) (n j : nat) :
  nth_error (repeat x n) j = Some y -> y = x /\ (j < n)%nat.
Proof.
  intros H. split.
  - apply nth_error_In in H. apply repeat_spec in H. exact H.
  - apply nth_error_some_lt in H. rewrite repeat_length in H. exact H.
Qed.

Lemma nth_error_repeat {A : Type} (x : A) (n j : nat) :
  (j < n)%nat -> nth_error (repeat x n) j = Some x.
Proof.
  revert j. induction n as [|n IH]; intros [|j] H; cbn; try lia;
    [reflexivity|]. apply IH. lia.
Qed.

Lemma enqueue_keeps (st : state) (k : nat) :
  List.length (phases (enqueue st k)) = List.length (phases st) /\
  perFile (enqueue st k) = perFile st.
Proof.
  unfold enqueue. cbn zeta. split; [apply install_pool_phases_length|].
  reflexivity.
Qed.

Lemma enqueue_loop_coherent (m : nat) : forall (k : nat) (st : state),
  coherent k st -> (k + m <= List.length (phases st))%nat ->
  coherent (k + m) (fold_left enqueue (seq k m) st) /\
  List.length (phases (fold_left enqueue (seq k m) st))
  = List.length (phases st) /\
  perFile (fold_left enqueue (seq k m) st) = perFile st.
Proof.
  induction m as [|m IH]; intros k st H Hl; cbn [seq fold_left].
  - rewrite Nat.add_0_r. auto.
  - destruct (enqueue_keeps st k) as [E1 E2].
    destruct (IH (S k) (enqueue st k)) as (H1 & H2 & H3).
    + apply coherent_enqueue; [exact H|lia].
    + rewrite E1. lia.
    + replace (k + S m)%nat with (S k + m)%nat by lia.
      split; [exact H1|]. split; congruence.
Qed.

Lemma runBatch_coherent (baseUrl m : string) (count clock : Z) :
  coherent (List.length (phases (runBatch baseUrl count m clock)))
           (runBatch baseUrl count m clock).
Proof.
  unfold runBatch. cbn zeta.
  set (n := List.length (build_urls baseUrl count)).
  match goal with |- context [fold_left enqueue (seq 0 n) ?s] =>
    set (st0 := s) end.
  assert (H0 : coherent 0 st0).
  { unfold coherent, task_ok, queue. subst st0.
    cbn [pool phases perFile totalBytes main PriorityPool.new
         PriorityPool.small PriorityPool.large app].
    split; [apply PoolFacts.new_consistent|].
    split; [constructor|]. split; [intros j []|]. split; [lia|].
    split; [|split; [|split]].
    - intros j ph Hj. apply nth_error_repeat_inv in Hj.
      destruct Hj as [-> Hj]. cbn [stage_of].
      split; [lia|]. apply nth_error_repeat. exact Hj.
    - intros j ph Hj _. apply nth_error_repeat_inv in Hj.
      destruct Hj as [-> _]. reflexivity.
    - symmetry. apply recorded_bytes_holes.
    - intros r Hr. discriminate. }
  assert (L0 : List.length (phases st0) = n)
    by (subst st0; cbn [phases]; apply repeat_length).
  assert (P0 : List.length (perFile st0) = n)
    by (subst st0; cbn [perFile]; apply repeat_length).
  destruct (enqueue_loop_coherent n 0 st0 H0) as (H1 & H2 & H3); [lia|].
  cbn [Nat.add] in H1. set (s1 := fold_left enqueue (seq 0 n) st0) in *.
  assert (Ei : phases (idle_tick s1) = phases s1)
    by (unfold idle_tick; destruct (PriorityPool.is_idle _); reflexivity).
  rewrite Ei, H2, L0.
  unfold idle_tick. destruct (PriorityPool.is_idle (pool s1)) eqn:Hidle.
  - apply (coherent_same n s1); try reflexivity; [exact H1|].
    unfold finalize. cbn [set_main main]. intros r Hr.
    inversion Hr; subst r. unfold complete_result.
    cbn [res_perFile res_totalBytes]. split; [|apply H1].
    apply idle_means_filled; [|congruence|exact Hidle].
    rewrite H2, L0. exact H1.
  - apply (coherent_same n s1); try reflexivity; [exact H1|].
    cbn [set_main main]. intros r Hr. discriminate.
Qed.

(** What a step does to [perFile]: nothing, or it fills the slot of a
    task that is downloading. *)
Lemma step_records (st st' : state) (e : event) :
  step st e = Some st' ->
  perFile st' = perFile st \/
  exists i t0 pf,
    nth_error (phases st) i = Some (Downloading t0) /\
    perFile st' = set_nth i (Some pf) (perFile st).
Proof.
  intros Hs.
  destruct e as [ms|i|i r|i|i|i id|i|i|]; cbn [step] in Hs;
    try (unfold phase_of in Hs;
         destruct (nth_error (phases st) i) as [ph|] eqn:Hn; [|discriminate];
         destruct ph; try discriminate).
  - inversion Hs; subst. left. reflexivity.
  - destruct since; inversion Hs; subst; left; reflexivity.
  - right. exists i, t0.
    destruct r as [rr|]; inversion Hs; subst st'; clear Hs.
    + eexists. split; [exact Hn|]. unfold on_resolved. cbn zeta.
      match goal with |- context [detect_guard ?x] =>
        destruct (detect_guard x) end; [|reflexivity].
      destruct (WeakNetDetector.feed _ _ true) as [det d].
      destruct (WeakNetDetector.isWeak d); [|reflexivity].
      unfold drain_tick.
      destruct (Qgeb (WeakNetDetector.confidence d) (1 # 2));
        match goal with |- context [if ?c then _ else _] => destruct c end;
        reflexivity.
    + eexists. split; [exact Hn|]. unfold on_rejected.
      destruct (WeakNetDetector.feed _ _ false). reflexivity.
  - unfold settle_task in Hs.
    destruct (index_of i _) as [idx|]; [|discriminate].
    destruct (PriorityPool.step (pool st) (PriorityPool.Settle idx)) as [p|];
      [|discriminate].
    inversion Hs; subst. left. reflexivity.
  - destruct (wake <=? now st); [|discriminate]. inversion Hs; subst.
    unfold drain_tick.
    match goal with |- context [if ?c then _ else _] => destruct c end;
      left; reflexivity.
  - inversion Hs; subst. left. reflexivity.
  - destruct (negb (id =? 0) && negb (id =? prev))%bool;
      inversion Hs; subst; left; reflexivity.
  - destruct (now st <? now st + NET_POLL_TIMEOUT); inversion Hs; subst;
      left; reflexivity.
  - destruct (wake <=? now st); [|discriminate].
    destruct (now st <? deadline); inversion Hs; subst; left; reflexivity.
  - destruct (main st) as [wake| |]; try discriminate.
    destruct (wake <=? now st); [|discriminate]. inversion Hs; subst.
    unfold idle_tick. destruct (PriorityPool.is_idle (pool st));
      left; reflexivity.
Qed.

(** When [runBatch] returns, the result has a record for every URL and
    its [totalBytes] is the sum of the bytes recorded: the batch never
    returns while a task is queued or in flight. *)
Theorem batch_returns_every_record (baseUrl m : string) (count clock : Z)
    (es : list event) (st : state) (r : result) :
  run (runBatch baseUrl count m clock) es = Some st ->
  main st = Done r ->
  Forall filled (res_perFile r) /\
  List.length (res_perFile r) = Z.to_nat count /\
  res_totalBytes r = recorded_bytes (res_perFile r).
Proof.
  intros Hr Hd.
  pose proof (RunnerMore.runBatch_sane baseUrl m count clock) as S0.
  pose proof (run_coherent es _ st S0
                (runBatch_coherent baseUrl m count clock) Hr) as H.
  pose proof (RunnerMore.run_sane es _ st S0 Hr) as S.
  destruct H as (_ & _ & _ & _ & _ & _ & _ & Hdone).
  destruct (Hdone r Hd) as [H1 H2].
  split; [exact H1|]. split; [|exact H2].
  destruct S as (_ & _ & _ & _ & _ & _ & _ & _ & Hlph & Hres).
  destruct (Hres r Hd) as (E & _). rewrite E.
  rewrite (RunnerMore.run_urls es _ st S0 Hr), RunnerMore.runBatch_urls.
  apply RunnerMore.build_urls_length.
Qed.

Lemma batch_returns_every_record_witness :
  exists r,
    main (after (runBatch "http://h/images/" 2 WIFI_ONLY 0)
                (complete 0 1000 102400 ++ complete 1 1000 2048
                 ++ [IdleTimer])) = Done r /\
    Forall filled (res_perFile r) /\
    List.length (res_perFile r) = Z.to_nat 2 /\
    res_totalBytes r = recorded_bytes (res_perFile r).
Proof.
  eexists. split; [vm_compute; reflexivity|].
  apply (batch_returns_every_record "http://h/images/" WIFI_ONLY 2 0
           (complete 0 1000 102400 ++ complete 1 1000 2048 ++ [IdleTimer])
           (after (runBatch "http://h/images/" 2 WIFI_ONLY 0)
                  (complete 0 1000 102400 ++ complete 1 1000 2048
                   ++ [IdleTimer]))).
  - vm_compute. reflexivity.
  - vm_compute. reflexivity.
Defined.

(** At every point of a batch [totalBytes] is the sum of the bytes on
    record, and a slot of [perFile] is a hole exactly as long as its task
    has not come back from the download. *)
Theorem records_follow_the_tasks (baseUrl m : string) (count clock : Z)
    (es : list event) (st : state) :
  run (runBatch baseUrl count m clock) es = Some st ->
  totalBytes st = recorded_bytes (perFile st) /\
  forall j ph, nth_error (phases st) j = Some ph ->
    match stage_of ph with
    | Waiting | Fetching => nth_error (perFile st) j = Some None
    | Recorded | Closed =>
        exists pf, nth_error (perFile st) j = Some (Some pf)
    end.
Proof.
  intros Hr.
  pose proof (RunnerMore.runBatch_sane baseUrl m count clock) as S0.
  pose proof (run_coherent es _ st S0
                (runBatch_coherent baseUrl m count clock) Hr) as H.
  destruct H as (_ & _ & _ & _ & Hpt & _ & Htb & _).
  split; [exact Htb|]. intros j ph Hj.
  specialize (Hpt j ph Hj). unfold task_ok in Hpt.
  destruct (stage_of ph); apply Hpt.
Qed.

Lemma records_follow_the_tasks_witness :
  totalBytes (after degrading_batch to_trigger)
  = recorded_bytes (perFile (after degrading_batch to_trigger)) /\
  forall j ph,
    nth_error (phases (after degrading_batch to_trigger)) j = Some ph ->
    match stage_of ph with
    | Waiting | Fetching =>
        nth_error (perFile (after degrading_batch to_trigger)) j = Some None
    | Recorded | Closed =>
        exists pf,
          nth_error (perFile (after degrading_batch to_trigger)) j
          = Some (Some pf)
    end.
Proof.
  apply (records_follow_the_tasks "http://h/images/" AUTO_SWITCH 60 0
           to_trigger).
  vm_compute. reflexivity.
Defined.

(** A record is written once: no later event changes or removes it. *)
Theorem records_are_final (baseUrl m : string) (count clock : Z)
    (es : list event) (st st' : state) (e : event) (j : nat) (pf : PerFile) :
  run (runBatch baseUrl count m clock) es = Some st ->
  step st e = Some st' ->
  nth_error (perFile st) j = Some (Some pf) ->
  nth_error (perFile st') j = Some (Some pf).
Proof.
  intros Hr Hs Hj.
  pose proof (RunnerMore.runBatch_sane baseUrl m count clock) as S0.
  pose proof (run_coherent es _ st S0
                (runBatch_coherent baseUrl m count clock) Hr) as H.
  destruct H as (_ & _ & _ & _ & Hpt & _).
  destruct (step_records st st' e Hs) as [E|(i & t0 & pf' & Hi & E)];
    rewrite E; [exact Hj|].
  specialize (Hpt i _ Hi). unfold task_ok in Hpt. cbn [stage_of] in Hpt.
  destruct Hpt as (_ & _ & Hnone).
  rewrite nth_error_set_nth_other; [exact Hj|].
  intros ->. congruence.
Qed.

Lemma records_are_final_witness :
  exists pf,
    nth_error (perFile (after degrading_batch to_trigger)) 0 = Some (Some pf) /\
    nth_error (perFile (after degrading_batch (to_trigger ++ [ProbeDone 52])))
              0 = Some (Some pf).
Proof.
  eexists. split; [vm_compute; reflexivity|].
  apply (records_are_final "http://h/images/" AUTO_SWITCH 60 0 to_trigger
           (after degrading_batch to_trigger)
           (after degrading_batch (to_trigger ++ [ProbeDone 52]))
           (ProbeDone 52) 0).
  - vm_compute. reflexivity.
  - vm_compute. reflexivity.
  - vm_compute. reflexivity.
Defined.

End LedgerFacts.

(* ===================================================================== *)
(** * Properties of the prober *)
(* ===================================================================== *)

Module ProbeFacts.
Import NetProbe ProbeTerms.

Lemma after_calls_everyN (cs : list call) : forall pr : probe,
  everyN (after_calls pr cs) = everyN pr.
Proof.
  induction cs as [|c cs IH]; intros pr; cbn [after_calls fold_left];
    [reflexivity|].
  unfold after_calls in IH. rewrite IH. destruct c; reflexivity.
Qed.

Lemma after_calls_fastUntil (cs : list call) : forall pr : probe,
  fastUntil pr <= fastUntil (after_calls pr cs).
Proof.
  induction cs as [|c cs IH]; intros pr; cbn [after_calls fold_left]; [lia|].
  unfold after_calls in IH. etransitivity; [|apply IH].
  destruct c; cbn; lia.
Qed.

Lemma after_calls_stats (cs : list call) : forall pr : probe,
  count (after_calls pr cs) = count pr + probes_made cs /\
  costMs (after_calls pr cs) = costMs pr + fold_right Z.add 0 (map cost_of cs).
Proof.
  induction cs as [|c cs IH]; intros pr.
  - cbn. unfold probes_made. cbn. lia.
  - cbn [after_calls fold_left]. unfold after_calls in IH.
    destruct (IH (apply_call pr c)) as [E1 E2]. rewrite E1, E2.
    unfold probes_made in *. destruct c; cbn [apply_call filter map fold_right
      cost_of boostShort account count costMs List.length]; lia.
Qed.

(** The interval by which an index is tested is never below 2 and never
    above the constructor's (clamped) argument, whatever calls the prober
    has seen and whatever the clock shows: the remainder in [maybeProbe]
    is never taken by zero. *)
Theorem interval_at_least_two (n : Z) (cs : list call) (now : Z) :
  2 <= interval now (after_calls (new n) cs) <= Z.max 2 n.
Proof.
  unfold interval. rewrite after_calls_everyN. cbn [new everyN].
  destruct (now <? _).
  - assert (H : 2 <= Z.max 2 n) by lia.
    assert (Z.max 2 n / 2 <= Z.max 2 n).
    { apply Z.div_le_upper_bound; lia. }
    lia.
  - lia.
Qed.

(** [boostShort] opens a window: for [durationMs] after the call the
    interval is half of [everyN] (but at least 2); and it never cuts a
    window that is already open. *)
Theorem boost_opens_a_window (pr : probe) (now d t : Z) :
  t < now + d \/ t < fastUntil pr ->
  interval t (boostShort now d pr) = Z.max 2 (everyN pr / 2).
Proof.
  intros H. unfold interval, boostShort. cbn [fastUntil everyN].
  destruct (t <? Z.max (fastUntil pr) (now + d)) eqn:E; [reflexivity|].
  apply Z.ltb_ge in E. lia.
Qed.

Lemma boost_opens_a_window_witness :
  interval 1014 (boostShort 1000 15 (new 10)) = Z.max 2 (everyN (new 10) / 2).
Proof.
  apply (boost_opens_a_window (new 10) 1000 15 1014). left. lia.
Defined.

Lemma rem_half (idx n : Z) :
  2 <= n -> Z.even n = true ->
  Z.rem idx n = 0 -> Z.rem idx (Z.max 2 (n / 2)) = 0.
Proof.
  intros Hn He Hr.
  apply Z.rem_divide in Hr; [|lia].
  apply Z.rem_divide; [lia|].
  apply Z.even_spec in He. destruct He as [k Hk]. subst n.
  replace (2 * k / 2) with k
    by (symmetry; rewrite Z.mul_comm; apply Z.div_mul; lia).
  destruct (Z.eq_dec k 1) as [->|Hk1].
  - exact Hr.
  - replace (Z.max 2 k) with k by lia.
    destruct Hr as [q Hq]. exists (q * 2). lia.
Qed.

(** With an even [everyN] a boost can only add probes: an index that is
    probed at the normal interval is probed inside the window too. *)
Theorem boost_keeps_probes (pr : probe) (idx t t' now d : Z) :
  2 <= everyN pr -> Z.even (everyN pr) = true ->
  fastUntil pr <= t ->
  due t idx pr = true ->
  due t' idx (boostShort now d pr) = true.
Proof.
  intros Hn He Ht Hd. unfold due, interval in *.
  cbn [boostShort fastUntil everyN].
  destruct (t <? fastUntil pr) eqn:E; [apply Z.ltb_lt in E; lia|].
  apply Z.eqb_eq in Hd. apply Z.eqb_eq.
  destruct (t' <? _); [|exact Hd].
  apply rem_half; assumption.
Qed.

Lemma boost_keeps_probes_witness :
  due 1010 20 (boostShort 1000 15 (new 10)) = true.
Proof.
  apply (boost_keeps_probes (new 10) 20 500 1010 1000 15).
  - cbn. lia.
  - reflexivity.
  - cbn. lia.
  - reflexivity.
Defined.

(** With an odd [everyN] the boost can drop a probe: at [everyN = 7] index
    7 is probed at the normal interval and skipped inside the window,
    where the interval is 3. *)
Lemma odd_interval_boost_skips :
  due 500 7 (new 7) = true /\
  due 1010 7 (boostShort 1000 15 (new 7)) = false.
Proof. split; reflexivity. Qed.

(** The statistics count the probes made and add up their costs. *)
Theorem snapshot_adds_up (n : Z) (cs : list call) :
  count (after_calls (new n) cs) = probes_made cs /\
  costMs (after_calls (new n) cs) = fold_right Z.add 0 (map cost_of cs).
Proof.
  destruct (after_calls_stats cs (new n)) as [E1 E2].
  rewrite E1, E2. cbn. split; lia.
Qed.

End ProbeFacts.

(* ===================================================================== *)
(** * Properties of the URLs and file names of a batch *)
(* ===================================================================== *)

Module UrlFacts.
Import JsString Runner UrlTerms RunnerFacts.

Lemma toLowerCase_app (a b : string) :
  toLowerCase (a ++ b) = (toLowerCase a ++ toLowerCase b)%string.
Proof. induction a as [|c a IH]; cbn; [reflexivity|now rewrite IH]. Qed.

Lemma append_assoc (a b c : string) :
  ((a ++ b) ++ c = a ++ (b ++ c))%string.
Proof. induction a as [|x a IH]; cbn; [reflexivity|now rewrite IH]. Qed.

Lemma prefix_before_slash (sub : string) : forall x y : string,
  slashless sub = true ->
  String.prefix sub (x ++ String "/" y) = String.prefix sub x.
Proof.
  induction sub as [|a sub IH]; intros x y Hs.
  - destruct x; reflexivity.
  - cbn [slashless] in Hs. apply andb_true_iff in Hs. destruct Hs as [Ha Hs].
    apply negb_true_iff in Ha. apply Ascii.eqb_neq in Ha.
    destruct x as [|c x]; cbn.
    + destruct (ascii_dec a "/"); [contradiction|reflexivity].
    + destruct (ascii_dec a c); [apply IH; exact Hs|reflexivity].
Qed.

Lemma includes_across_slash (a : ascii) (sub : string) : forall x y : string,
  slashless (String a sub) = true ->
  includes (String a sub) (x ++ String "/" y)
  = includes (String a sub) x || includes (String a sub) y.
Proof.
  intros x y Hs.
  assert (Ha : a <> "/"%char).
  { cbn [slashless] in Hs. apply andb_true_iff in Hs. destruct Hs as [Ha _].
    apply negb_true_iff in Ha. now apply Ascii.eqb_neq in Ha. }
  induction x as [|c x IH].
  - cbn [String.append includes]. cbn [String.prefix].
    destruct (ascii_dec a "/"); [contradiction|]. destruct y; reflexivity.
  - cbn [String.append includes].
    change (String c (x ++ String "/" y))
      with (String c x ++ String "/" y)%string.
    rewrite (prefix_before_slash _ (String c x) y Hs).
    destruct (String.prefix (String a sub) (String c x)); [reflexivity|].
    exact IH.
Qed.

Lemma endsWith_app (suf : string) : forall x s : string,
  (String.length suf <= String.length s)%nat ->
  endsWith suf (x ++ s) = endsWith suf s.
Proof.
  induction x as [|c x IH]; intros s Hl; [reflexivity|].
  cbn [String.append endsWith].
  destruct (String.eqb (String c (x ++ s)) suf) eqn:E.
  - apply String.eqb_eq in E. rewrite <- E in Hl. cbn in Hl.
    rewrite length_append in Hl. lia.
  - apply IH; exact Hl.
Qed.

Lemma match_img3_app : forall x s : string,
  (11 <= String.length s)%nat ->
  match_img3 (x ++ s) = match_img3 s.
Proof.
  induction x as [|c x IH]; intros s Hl; [reflexivity|].
  cbn [String.append match_img3].
  destruct (img3_exact (String c (x ++ s))) as [v|] eqn:E.
  - apply img3_exact_length in E. cbn in E. rewrite length_append in E. lia.
  - apply IH; exact Hl.
Qed.

Lemma strip_cases : forall b : string,
  b = strip_trailing_slash b \/ b = (strip_trailing_slash b ++ "/")%string.
Proof.
  induction b as [|c b IH]; [left; reflexivity|].
  cbn [strip_trailing_slash]. destruct b as [|d b].
  - destruct (Ascii.eqb c "/") eqn:E; [|left; reflexivity].
    apply Ascii.eqb_eq in E. subst c. right. reflexivity.
  - destruct IH as [IH|IH]; [left|right]; cbn [String.append];
      f_equal; exact IH.
Qed.

Lemma strip_trailing_slash_app : forall s : string,
  strip_trailing_slash (s ++ "/") = s.
Proof.
  induction s as [|c s IH]; [reflexivity|].
  cbn [String.append strip_trailing_slash]. rewrite IH.
  destruct s; reflexivity.
Qed.

Lemma contains_longer (sub x y : string) :
  contains sub x -> contains sub (x ++ y).
Proof.
  intros (pre & post & ->). exists pre, (post ++ y)%string.
  now rewrite !append_assoc.
Qed.

Lemma includes_stripped (sub b : string) :
  includes sub (toLowerCase b) = false ->
  includes sub (toLowerCase (strip_trailing_slash b)) = false.
Proof.
  intros H. destruct (includes sub (toLowerCase (strip_trailing_slash b)))
    eqn:E; [|reflexivity].
  apply includes_spec in E.
  assert (C : contains sub (toLowerCase b)).
  { destruct (strip_cases b) as [Hb|Hb]; rewrite Hb.
    - exact E.
    - rewrite toLowerCase_app. apply contains_longer. exact E. }
  apply includes_spec in C. congruence.
Qed.

Lemma name_tests_hold : forallb name_tests (seq 0 1000) = true.
Proof. vm_compute. reflexivity. Qed.

Lemma name_tests_below (i : nat) : (i < 1000)%nat -> name_tests i = true.
Proof.
  intros Hi. pose proof name_tests_hold as H.
  rewrite forallb_forall in H. apply H. apply in_seq. lia.
Qed.

(** Under a base URL whose lower-case form holds neither [thumb] nor [_s],
    the hint of index [i] (below 1000) only depends on the index: small up
    to 16, and at 128. *)
Theorem small_urls_of_a_plain_base (baseUrl : string) (i : nat) :
  includes "thumb" (toLowerCase baseUrl) = false ->
  includes "_s" (toLowerCase baseUrl) = false ->
  (i < 1000)%nat ->
  isSmallByName (url_of baseUrl i) = (Nat.leb i 16 || Nat.eqb i 128).
Proof.
  intros Ht Hs Hi.
  apply includes_stripped in Ht. apply includes_stripped in Hs.
  pose proof (name_tests_below i Hi) as Hn. unfold name_tests in Hn.
  repeat (apply andb_true_iff in Hn; destruct Hn as [Hn ?]).
  apply String.eqb_eq in Hn.
  repeat match goal with H : negb _ = true |- _ =>
    apply negb_true_iff in H end.
  match goal with H : Bool.eqb _ _ = true |- _ => apply Bool.eqb_prop in H;
    rename H into H128 end.
  match goal with H : Nat.leb 11 _ = true |- _ => apply Nat.leb_le in H;
    rename H into Hlen end.
  destruct (match_img3 (file_name i)) as [v|] eqn:Em; [|discriminate].
  match goal with H : Nat.eqb v i = true |- _ => apply Nat.eqb_eq in H;
    subst v end.
  set (L := toLowerCase (strip_trailing_slash baseUrl)) in *.
  assert (En : toLowerCase (url_of baseUrl i)
               = (L ++ String "/" (file_name i))%string).
  { unfold url_of. rewrite toLowerCase_app. fold L. f_equal.
    change ("/" ++ ("img_" ++ padStart3 i ++ ".jpg"))%string
      with (String "/" (file_name i)).
    cbn [toLowerCase]. rewrite Hn. reflexivity. }
  assert (Hsmall : includes "_small" L = false).
  { destruct (includes "_small" L) eqn:E; [|reflexivity].
    apply includes_spec in E. destruct E as (pre & post & E).
    assert (C : contains "_s" L).
    { exists pre, ("mall" ++ post)%string. rewrite E. reflexivity. }
    apply includes_spec in C. congruence. }
  assert (Hsmall_n : includes "_small" (file_name i) = false).
  { destruct (includes "_small" (file_name i)) eqn:E; [|reflexivity].
    apply includes_spec in E. destruct E as (pre & post & E).
    assert (C : contains "_s" (file_name i)).
    { exists pre, ("mall" ++ post)%string. rewrite E. reflexivity. }
    apply includes_spec in C. congruence. }
  unfold isSmallByName. cbn zeta. rewrite En.
  rewrite !includes_across_slash by reflexivity.
  rewrite Ht, Hs, Hsmall, Hsmall_n.
  repeat match goal with H : includes _ (file_name i) = false |- _ =>
    rewrite H end.
  change (L ++ String "/" (file_name i))%string
    with (L ++ ("/" ++ file_name i))%string.
  rewrite <- append_assoc.
  rewrite endsWith_app by (cbn [String.length]; lia).
  rewrite match_img3_app by exact Hlen.
  rewrite H128, Em. cbn [orb].
  destruct (Nat.eqb i 128); [now rewrite orb_true_r|].
  rewrite orb_false_r. destruct (Nat.leb i 16); reflexivity.
Qed.

Lemma small_urls_of_a_plain_base_witness :
  isSmallByName (url_of "http://h/images/" 128)
  = (Nat.leb 128 16 || Nat.eqb 128 128).
Proof.
  apply (small_urls_of_a_plain_base "http://h/images/" 128).
  - reflexivity.
  - reflexivity.
  - lia.
Defined.

Lemma basename_acc_slashless : forall s acc : string,
  slashless s = true -> basename_acc acc s = acc.
Proof.
  induction s as [|c s IH]; intros acc H; [reflexivity|].
  cbn [slashless] in H. apply andb_true_iff in H. destruct H as [Hc Hs].
  apply negb_true_iff in Hc. cbn [basename_acc]. rewrite Hc.
  apply IH; exact Hs.
Qed.

Lemma basename_acc_after_slash (t : string) : forall x acc : string,
  slashless t = true ->
  basename_acc acc (x ++ String "/" t) = t.
Proof.
  intros x. induction x as [|c x IH]; intros acc Ht.
  - cbn. apply basename_acc_slashless; exact Ht.
  - cbn [String.append basename_acc].
    destruct (Ascii.eqb c "/"); apply IH; exact Ht.
Qed.

Lemma slashless_app (a b : string) :
  slashless a = true -> slashless b = true -> slashless (a ++ b) = true.
Proof.
  induction a as [|c a IH]; intros Ha Hb; [exact Hb|].
  cbn [slashless String.append] in *. apply andb_true_iff in Ha.
  destruct Ha as [Hc Ha]. rewrite Hc. cbn. now apply IH.
Qed.

Lemma slashless_digits (d : Decimal.uint) :
  slashless (NilEmpty.string_of_uint d) = true.
Proof. induction d; cbn; auto. Qed.

Lemma slashless_padStart3 (i : nat) : slashless (padStart3 i) = true.
Proof.
  unfold padStart3. cbn zeta.
  assert (H : slashless (NilZero.string_of_uint (Nat.to_uint i)) = true).
  { unfold NilZero.string_of_uint.
    destruct (Nat.to_uint i); try apply slashless_digits; reflexivity. }
  destruct (String.length _) as [|[|[|n]]]; try exact H;
    apply slashless_app; auto.
Qed.

Lemma leading_number_digits (d : Decimal.uint) : forall (acc : nat) (rest : string),
  leading_number acc (NilEmpty.string_of_uint d ++ rest)
  = leading_number (Nat.of_uint_acc d acc) rest.
Proof.
  induction d; intros acc rest; cbn [NilEmpty.string_of_uint String.append
    Nat.of_uint_acc]; try reflexivity;
    cbn [leading_number];
    match goal with |- context [is_digit ?c] =>
      change (is_digit c) with true;
      let v := eval vm_compute in (digit_val c) in
      change (digit_val c) with v
    end;
    cbv iota; rewrite IHd; do 2 f_equal; rewrite Nat.tail_mul_spec; lia.
Qed.

Lemma leading_number_padStart3 (i : nat) (rest : string) :
  leading_number 0 (padStart3 i ++ rest) = leading_number i rest.
Proof.
  assert (H : forall r, leading_number 0
                (NilZero.string_of_uint (Nat.to_uint i) ++ r)
              = leading_number i r).
  { intros r. unfold NilZero.string_of_uint.
    pose proof (DecimalNat.Unsigned.of_to i) as Hi. unfold Nat.of_uint in Hi.
    destruct (Nat.to_uint i) eqn:E;
      try (rewrite leading_number_digits, Hi; reflexivity).
    cbn in Hi. subst i. reflexivity. }
  unfold padStart3. cbn zeta.
  destruct (String.length _) as [|[|[|n]]]; try apply H;
    rewrite append_assoc; cbn [String.append leading_number is_digit];
    cbn; apply H.
Qed.

(** The name under which task [i] stores its file is the last segment of
    its URL, [img_] + the padded index + [.jpg], whatever the base URL. *)
Lemma task_file_name (baseUrl : string) (i : nat) :
  basename (url_of baseUrl i) = file_name i.
Proof.
  unfold basename, url_of. apply basename_acc_after_slash.
  apply (slashless_app "img_"); [reflexivity|].
  apply slashless_app; [apply slashless_padStart3|reflexivity].
Qed.

(** Two indices of a batch never share a file name, also beyond 999 where
    the padding no longer applies: no two tasks write the same file. *)
Theorem file_names_never_collide (baseUrl : string) (i j : nat) :
  i <> j -> basename (url_of baseUrl i) <> basename (url_of baseUrl j).
Proof.
  intros Hij E. rewrite !task_file_name in E. unfold file_name in E.
  cbn [String.append] in E. injection E as E.
  apply (f_equal (leading_number 0)) in E.
  rewrite !leading_number_padStart3 in E. cbn in E. contradiction.
Qed.

Lemma file_names_never_collide_witness :
  basename (url_of "http://h/images/" 1)
  <> basename (url_of "http://h/images/" 1001).
Proof.
  apply (file_names_never_collide "http://h/images/" 1 1001). lia.
Defined.

End UrlFacts.
